(** * ecfr-analyzer: the CFR structure parser, the parent linkage pass and
      the concurrent runner

    Shallow embedding of
    - [server/parser/cfr_parser.go]            (module [parser]),
    - [server/service/CfrStructureService.go]  (module [service]),
    - [server/concurrent/runner.go]            (module [concurrent]),
    together with the part of Go's [encoding/xml] decoder the parser
    reads its tokens from (module [xml]). *)

From Stdlib Require Import ZArith String Ascii List Lia Bool.
From Stdlib Require Import DecimalString DecimalZ DecimalPos Sorting.Sorted.
From stdpp Require Import base gmap strings list.
Import ListNotations.

(** ** encoding/xml: names, tokens and the decoder *)

Module xml.

(** [xml.Name] *)
Record Name := mkName { Space : string; Local : string }.

(** [xml.Attr] *)
Record Attr := mkAttr { AttrName : Name; Value : string }.

(** [xml.Token]: the token kinds [Decoder.Token] hands out. *)
Inductive Token :=
| StartElement (name : Name) (attr : list Attr)
| EndElement (name : Name)
| CharData (data : string)
| Comment (data : string)
| ProcInst (target inst : string)
| Directive (data : string).

(** The errors of [Decoder.Token]: [io.EOF] and [*xml.SyntaxError]. *)
Inductive error :=
| io_EOF
| SyntaxError (Msg : string).

(** [xml.Decoder] in its default strict mode.  The scanner ([rawToken])
    is not re-implemented: a decoder is given by the tokens the scanner
    still delivers ([pending]) and by what it reports after the last of
    them ([trailer]: [io.EOF] at the end of the text, a syntax error
    where the text stops being lexically valid).  [stk] is the stack of
    open elements that [Token] maintains (innermost first) and [err] is
    the decoder's sticky error field. *)
Record Decoder := mkDecoder {
  pending : list Token;
  trailer : error;
  stk : list Name;
  err : option error
}.

(** [Token] reports [io.EOF] inside an open element as a syntax error. *)
Definition unexpectedEOF (d : Decoder) (e : error) : error :=
  match e, stk d with
  | io_EOF, _ :: _ => SyntaxError "unexpected EOF"
  | _, _ => e
  end.

(** [popElement]: the check of an end tag against the innermost open
    element; [None] when it matches. *)
Definition closeError (open : option Name) (name : Name) : option error :=
  match open with
  | None =>
      Some (SyntaxError ("unexpected end element </" +:+ Local name +:+ ">"))
  | Some s =>
      if negb (String.eqb (Local s) (Local name)) then
        Some (SyntaxError ("element <" +:+ Local s +:+ "> closed by </"
                             +:+ Local name +:+ ">"))
      else if negb (String.eqb (Space s) (Space name)) then
        Some (SyntaxError ("element <" +:+ Local s +:+ "> in space "
                             +:+ Space s +:+ " closed by </" +:+ Local name
                             +:+ "> in space " +:+ Space name))
      else None
  end.

(** [Decoder.Token]: the next token or an error, and the decoder
    afterwards.  Name-space translation only rewrites [Space] of the
    names handed out, which the parser never reads, and is left out. *)
Definition Decoder_Token (d : Decoder) : (Token + error) * Decoder :=
  match err d with
  | Some e => (inr (unexpectedEOF d e), d)
  | None =>
      match pending d with
      | [] =>
          let d' := mkDecoder [] (trailer d) (stk d) (Some (trailer d)) in
          (inr (unexpectedEOF d' (trailer d)), d')
      | StartElement name attr :: rest =>
          (inl (StartElement name attr),
           mkDecoder rest (trailer d) (name :: stk d) None)
      | EndElement name :: rest =>
          match closeError (head (stk d)) name with
          | Some e =>
              (inr e, mkDecoder rest (trailer d) (tail (stk d)) (Some e))
          | None =>
              (inl (EndElement name),
               mkDecoder rest (trailer d) (tail (stk d)) None)
          end
      | t :: rest => (inl t, mkDecoder rest (trailer d) (stk d) None)
      end
  end.

(** The error the decoder ends with when its tokens are read one after
    the other until [Token] fails. *)
Fixpoint drain (fuel : nat) (d : Decoder) : option error :=
  match fuel with
  | O => None
  | S fuel' =>
      match Decoder_Token d with
      | (inr e, _) => Some e
      | (inl _, d') => drain fuel' d'
      end
  end.

Definition finalError (d : Decoder) : option error :=
  drain (S (length (pending d))) d.

(** The decoder a text is malformed for: reading it through ends in an
    error other than [io.EOF] (a scanner error, an end tag that closes
    the wrong element, or the end of the text inside an open element). *)
Definition malformed (d : Decoder) : Prop :=
  exists msg, finalError d = Some (SyntaxError msg).

(** [reads d d']: [d'] is [d] after some calls of [Token]. *)
Definition reads : Decoder -> Decoder -> Prop :=
  rtc (fun d d' => exists x, Decoder_Token d = (x, d')).

End xml.

(** ** The library functions the parser takes from Go's standard library

    [strings.TrimSpace] and [strings.Fields] (Unicode white space) and
    [xml.NewDecoder (strings.NewReader text)] (the scanner) are not part of
    the repository; the development is parametric in them. *)
Class GoLib := {
  TrimSpace : string -> string;
  Fields : string -> list string;
  NewDecoder : string -> xml.Decoder
}.

(** ** data.CfrStructure *)

Module data.

(** A reference to a structure record: its position in the flattened
    list of the document.  [ParentId] is a Go pointer to the field
    [InternalId] of the parent record; a pointer is modelled by the
    reference of the record it points into. *)
Abbreviation ref := nat.

(** Go's [int] fields are modelled in [Z].  [CreatedAt] is never written
    by the code modelled here and is left out. *)
Record CfrStructure := mkCfrStructure {
  InternalId : Z;
  Id : string;
  TitleId : Z;
  TitleNumber : Z;
  DivType : string;
  DivLevel : Z;
  Identifier : string;
  NodeId : option string;
  Heading : option string;
  TextContent : option string;
  WordCount : Z;
  ParentId : option ref;
  Path : string
}.

End data.

(** ** server/parser/cfr_parser.go *)

Module parser.
Import xml data.

Record CfrParser := mkCfrParser { titleId : Z; titleNumber : Z }.

Definition NewCfrParser (titleId titleNumber : Z) : CfrParser :=
  mkCfrParser titleId titleNumber.

Record ParseResult := mkParseResult {
  Structures : list CfrStructure;
  TotalWords : Z
}.

(** The error [Parse] returns: [fmt.Errorf (format, err)] wrapping the
    decoder's error. *)
Inductive error := Errorf (format : string) (cause : xml.error).

(** [strings.HasPrefix (name, "DIV") && len (name) == 4], the test
    [Parse] and [parseDivElement] share. *)
Definition isDivElement (name : string) : bool :=
  String.prefix "DIV" name && (String.length name =? 4).

(** [int (name[3] - '0')]: a subtraction of bytes, which wraps around
    modulo 256, converted to [int].  It is evaluated under
    [isDivElement] only, where index 3 exists. *)
Definition divLevelOf (name : string) : Z :=
  match String.get 3 name with
  | Some c => (Z.of_nat (nat_of_ascii c) - 48) mod 256
  | None => 0
  end.

(** The attribute loop at the head of [parseDivElement]: the last
    attribute of each local name wins.  ([nodeId] takes the address of
    the loop variable's field; the loop variable is per iteration.) *)
Record divAttrs := mkDivAttrs {
  divType : string;
  identifier : string;
  nodeId : option string
}.

Definition scanAttr (acc : divAttrs) (attr : Attr) : divAttrs :=
  let name := Local (AttrName attr) in
  if String.eqb name "TYPE" then
    mkDivAttrs (Value attr) (identifier acc) (nodeId acc)
  else if String.eqb name "N" then
    mkDivAttrs (divType acc) (Value attr) (nodeId acc)
  else if String.eqb name "NODE" then
    mkDivAttrs (divType acc) (identifier acc) (Some (Value attr))
  else acc.

Definition scanAttrs (attrs : list Attr) : divAttrs :=
  fold_left scanAttr attrs (mkDivAttrs "" "" None).

(** "Build path" *)
Definition buildPath (parentPath identifier : string) : string :=
  let path := parentPath in
  let path := if String.eqb path "" then path else path +:+ "/" in
  path +:+ identifier.

(** Sum of the word counts of a list of records. *)
Definition sumWordCount (l : list CfrStructure) : Z :=
  fold_left (fun acc child => acc + WordCount child)%Z l 0%Z.

Section WithLib.
Context {lib : GoLib}.

(** [countWords] *)
Definition countWords (text : string) : Z :=
  if String.eqb text "" then 0%Z
  else Z.of_nat (length (Fields text)).

(** The character-data step of [extractTextContent] and of
    [parseDivElement]: append the trimmed text and one space. *)
Definition writeText (textContent data : string) : string :=
  let text := TrimSpace data in
  if String.eqb text "" then textContent
  else (textContent +:+ text) +:+ " ".

(** [extractTextContent]; the builder is passed in and returned.
    One unit of fuel per loop iteration. *)
Fixpoint extractTextContent (fuel : nat) (decoder : Decoder)
    (startLocal : string) (textContent : string)
    : option (Decoder * string) :=
  match fuel with
  | O => None
  | S fuel' =>
      match Decoder_Token decoder with
      | (inr _, decoder') => Some (decoder', textContent)
      | (inl (EndElement name), decoder') =>
          if String.eqb (Local name) startLocal
          then Some (decoder', textContent)
          else extractTextContent fuel' decoder' startLocal textContent
      | (inl (StartElement name _), decoder') =>
          match extractTextContent fuel' decoder' (Local name) textContent with
          | None => None
          | Some (decoder'', textContent') =>
              extractTextContent fuel' decoder'' startLocal textContent'
          end
      | (inl (CharData data), decoder') =>
          extractTextContent fuel' decoder' startLocal
                             (writeText textContent data)
      | (inl _, decoder') =>
          extractTextContent fuel' decoder' startLocal textContent
      end
  end.

(** The inner loop of [parseDivElement] that reads the content of a
    HEAD element. *)
Fixpoint readHead (fuel : nat) (decoder : Decoder) (headText : string)
    : option (Decoder * string) :=
  match fuel with
  | O => None
  | S fuel' =>
      match Decoder_Token decoder with
      | (inr _, decoder') => Some (decoder', headText)
      | (inl (EndElement name), decoder') =>
          if String.eqb (Local name) "HEAD"
          then Some (decoder', headText)
          else readHead fuel' decoder' headText
      | (inl (CharData data), decoder') =>
          readHead fuel' decoder' (headText +:+ data)
      | (inl _, decoder') => readHead fuel' decoder' headText
      end
  end.

(** What the main loop of [parseDivElement] has accumulated. *)
Record divBody := mkDivBody {
  heading : option string;
  textContent : string;
  childStructures : list CfrStructure
}.

(** "Build the structure object" *)
Definition newStructure (p : CfrParser) (attrs : divAttrs)
    (divLevel : Z) (parentId : option ref) (path : string)
    (heading : option string) (textContent : string) : CfrStructure :=
  let text := TrimSpace textContent in
  let wordCount := countWords text in
  let textPtr := if String.eqb text "" then None else Some text in
  {| InternalId := 0; Id := "";
     TitleId := titleId p; TitleNumber := titleNumber p;
     DivType := divType attrs; DivLevel := divLevel;
     Identifier := identifier attrs; NodeId := nodeId attrs;
     Heading := heading; TextContent := textPtr;
     WordCount := wordCount; ParentId := parentId; Path := path |}.

(** The rest of [parseDivElement] after its main loop: the record of
    this element followed by the records collected from its child
    elements, and the word total over them. *)
Definition buildStructures (p : CfrParser) (attrs : divAttrs)
    (divLevel : Z) (parentId : option ref) (path : string)
    (body : divBody) : list CfrStructure * Z :=
  let structure :=
    newStructure p attrs divLevel parentId path
                 (heading body) (textContent body) in
  let structures :=
    fold_left (fun acc child => acc ++ [child]) (childStructures body)
              [structure] in
  let totalWords :=
    fold_left (fun acc child => acc + WordCount child)%Z
              (childStructures body) (WordCount structure) in
  (structures, totalWords).

(** [parseDivElement] and its main loop [parseDivLoop].  The flag
    [inHead] of the source is false whenever the loop tests it and is
    left out.  One unit of fuel per call and per loop iteration. *)
Fixpoint parseDivElement (fuel : nat) (p : CfrParser) (decoder : Decoder)
    (startName : Name) (startAttr : list Attr) (divLevel : Z)
    (parentId : option ref) (parentPath : string)
    : option (Decoder * (list CfrStructure * Z)) :=
  match fuel with
  | O => None
  | S fuel' =>
      let attrs := scanAttrs startAttr in
      let path := buildPath parentPath (identifier attrs) in
      match parseDivLoop fuel' p decoder (Local startName) path
                         (mkDivBody None "" []) with
      | None => None
      | Some (decoder', body) =>
          Some (decoder',
                buildStructures p attrs divLevel parentId path body)
      end
  end
with parseDivLoop (fuel : nat) (p : CfrParser) (decoder : Decoder)
    (startLocal : string) (path : string) (body : divBody)
    : option (Decoder * divBody) :=
  match fuel with
  | O => None
  | S fuel' =>
      match Decoder_Token decoder with
      | (inr _, decoder') => Some (decoder', body)
      | (inl (EndElement name), decoder') =>
          if String.eqb (Local name) startLocal
          then Some (decoder', body)
          else parseDivLoop fuel' p decoder' startLocal path body
      | (inl (StartElement name attr), decoder') =>
          if String.eqb (Local name) "HEAD" then
            match readHead fuel' decoder' "" with
            | None => None
            | Some (decoder'', headText) =>
                parseDivLoop fuel' p decoder'' startLocal path
                  (mkDivBody (Some (TrimSpace headText))
                             (textContent body) (childStructures body))
            end
          else if isDivElement (Local name) then
            let childDivLevel := divLevelOf (Local name) in
            match parseDivElement fuel' p decoder' name attr
                                  childDivLevel None path with
            | None => None
            | Some (decoder'', (childDivs, _)) =>
                parseDivLoop fuel' p decoder'' startLocal path
                  (mkDivBody (heading body) (textContent body)
                             (childStructures body ++ childDivs))
            end
          else
            match extractTextContent fuel' decoder' (Local name)
                                     (textContent body) with
            | None => None
            | Some (decoder'', textContent') =>
                parseDivLoop fuel' p decoder'' startLocal path
                  (mkDivBody (heading body) textContent'
                             (childStructures body))
            end
      | (inl (CharData data), decoder') =>
          parseDivLoop fuel' p decoder' startLocal path
            (mkDivBody (heading body)
                       (writeText (textContent body) data)
                       (childStructures body))
      | (inl _, decoder') =>
          parseDivLoop fuel' p decoder' startLocal path body
      end
  end.

(** The loop of [Parse]. *)
Fixpoint parseLoop (fuel : nat) (p : CfrParser) (decoder : Decoder)
    (structures : list CfrStructure) (totalWords : Z)
    : option (ParseResult + error) :=
  match fuel with
  | O => None
  | S fuel' =>
      match Decoder_Token decoder with
      | (inr io_EOF, _) =>
          Some (inl (mkParseResult structures totalWords))
      | (inr e, _) => Some (inr (Errorf "error parsing XML: %w" e))
      | (inl (StartElement name attr), decoder') =>
          if isDivElement (Local name) then
            let divLevel := divLevelOf (Local name) in
            match parseDivElement fuel' p decoder' name attr divLevel
                                  None "" with
            | None => None
            | Some (decoder'', (divStructures, words)) =>
                parseLoop fuel' p decoder''
                          (structures ++ divStructures)
                          (totalWords + words)%Z
            end
          else parseLoop fuel' p decoder' structures totalWords
      | (inl _, decoder') =>
          parseLoop fuel' p decoder' structures totalWords
      end
  end.

(** The fuel that lets every loop of the parser run to its end on a
    decoder: each iteration but the last of a loop reads a token. *)
Definition enoughFuel (decoder : Decoder) : nat :=
  2 * length (pending decoder) + 1.

(** [Parse]: [None] stands for running out of fuel, which
    [Parse_returns] below excludes. *)
Definition Parse (p : CfrParser) (xmlContent : string)
    : option (ParseResult + error) :=
  let decoder := NewDecoder xmlContent in
  parseLoop (enoughFuel decoder) p decoder [] 0%Z.

(** *** The parser with the ancestors of every node made explicit

    The same functions with one ghost argument, the identifiers of
    the hierarchy elements the call is nested in (outermost first);
    every record is returned with the ancestors it was parsed under.
    [parseDivElementA_erase] and [ParseA_erase] below show that
    forgetting the ghost gives back [parseDivElement] and [Parse]. *)
Definition annotated : Type := list string * CfrStructure.

Record divBodyA := mkDivBodyA {
  headingA : option string;
  textContentA : string;
  childStructuresA : list annotated
}.

Definition eraseBody (body : divBodyA) : divBody :=
  mkDivBody (headingA body) (textContentA body)
            (map snd (childStructuresA body)).

Definition buildStructuresA (p : CfrParser) (attrs : divAttrs)
    (divLevel : Z) (parentId : option ref) (path : string)
    (ancestors : list string) (body : divBodyA) : list annotated * Z :=
  let structure :=
    newStructure p attrs divLevel parentId path
                 (headingA body) (textContentA body) in
  let structures :=
    fold_left (fun acc child => acc ++ [child]) (childStructuresA body)
              [(ancestors, structure)] in
  let totalWords :=
    fold_left (fun acc child => acc + WordCount (snd child))%Z
              (childStructuresA body) (WordCount structure) in
  (structures, totalWords).

Fixpoint parseDivElementA (fuel : nat) (p : CfrParser) (decoder : Decoder)
    (startName : Name) (startAttr : list Attr) (divLevel : Z)
    (parentId : option ref) (parentPath : string)
    (ancestors : list string)
    : option (Decoder * (list annotated * Z)) :=
  match fuel with
  | O => None
  | S fuel' =>
      let attrs := scanAttrs startAttr in
      let path := buildPath parentPath (identifier attrs) in
      match parseDivLoopA fuel' p decoder (Local startName) path
                          (ancestors ++ [identifier attrs])
                          (mkDivBodyA None "" []) with
      | None => None
      | Some (decoder', body) =>
          Some (decoder',
                buildStructuresA p attrs divLevel parentId path
                                 ancestors body)
      end
  end
with parseDivLoopA (fuel : nat) (p : CfrParser) (decoder : Decoder)
    (startLocal : string) (path : string) (chain : list string)
    (body : divBodyA) : option (Decoder * divBodyA) :=
  match fuel with
  | O => None
  | S fuel' =>
      match Decoder_Token decoder with
      | (inr _, decoder') => Some (decoder', body)
      | (inl (EndElement name), decoder') =>
          if String.eqb (Local name) startLocal
          then Some (decoder', body)
          else parseDivLoopA fuel' p decoder' startLocal path chain body
      | (inl (StartElement name attr), decoder') =>
          if String.eqb (Local name) "HEAD" then
            match readHead fuel' decoder' "" with
            | None => None
            | Some (decoder'', headText) =>
                parseDivLoopA fuel' p decoder'' startLocal path chain
                  (mkDivBodyA (Some (TrimSpace headText))
                              (textContentA body) (childStructuresA body))
            end
          else if isDivElement (Local name) then
            let childDivLevel := divLevelOf (Local name) in
            match parseDivElementA fuel' p decoder' name attr
                                   childDivLevel None path chain with
            | None => None
            | Some (decoder'', (childDivs, _)) =>
                parseDivLoopA fuel' p decoder'' startLocal path chain
                  (mkDivBodyA (headingA body) (textContentA body)
                              (childStructuresA body ++ childDivs))
            end
          else
            match extractTextContent fuel' decoder' (Local name)
                                     (textContentA body) with
            | None => None
            | Some (decoder'', textContent') =>
                parseDivLoopA fuel' p decoder'' startLocal path chain
                  (mkDivBodyA (headingA body) textContent'
                              (childStructuresA body))
            end
      | (inl (CharData data), decoder') =>
          parseDivLoopA fuel' p decoder' startLocal path chain
            (mkDivBodyA (headingA body)
                        (writeText (textContentA body) data)
                        (childStructuresA body))
      | (inl _, decoder') =>
          parseDivLoopA fuel' p decoder' startLocal path chain body
      end
  end.

Fixpoint parseLoopA (fuel : nat) (p : CfrParser) (decoder : Decoder)
    (structures : list annotated) (totalWords : Z)
    : option (list annotated * Z + error) :=
  match fuel with
  | O => None
  | S fuel' =>
      match Decoder_Token decoder with
      | (inr io_EOF, _) => Some (inl (structures, totalWords))
      | (inr e, _) => Some (inr (Errorf "error parsing XML: %w" e))
      | (inl (StartElement name attr), decoder') =>
          if isDivElement (Local name) then
            let divLevel := divLevelOf (Local name) in
            match parseDivElementA fuel' p decoder' name attr divLevel
                                   None "" [] with
            | None => None
            | Some (decoder'', (divStructures, words)) =>
                parseLoopA fuel' p decoder''
                           (structures ++ divStructures)
                           (totalWords + words)%Z
            end
          else parseLoopA fuel' p decoder' structures totalWords
      | (inl _, decoder') =>
          parseLoopA fuel' p decoder' structures totalWords
      end
  end.

Definition ParseA (p : CfrParser) (xmlContent : string)
    : option (list annotated * Z + error) :=
  let decoder := NewDecoder xmlContent in
  parseLoopA (enoughFuel decoder) p decoder [] 0%Z.

(** Forgetting the ancestors. *)
Definition eraseResult (r : list annotated * Z + error)
    : ParseResult + error :=
  match r with
  | inl (structures, totalWords) =>
      inl (mkParseResult (map snd structures) totalWords)
  | inr e => inr e
  end.

Definition eraseElement (x : Decoder * (list annotated * Z))
    : Decoder * (list CfrStructure * Z) :=
  (fst x, (map snd (fst (snd x)), snd (snd x))).

Definition eraseLoop (x : Decoder * divBodyA) : Decoder * divBody :=
  (fst x, eraseBody (snd x)).

End WithLib.

(** *** The path the claim describes: identifiers joined by "/" *)

(** [strings.Join (elems, sep)] *)
Fixpoint Join (elems : list string) (sep : string) : string :=
  match elems with
  | [] => ""
  | [e] => e
  | e :: rest => (e +:+ sep) +:+ Join rest sep
  end.

(** The identifiers left after the leading empty ones are dropped. *)
Fixpoint dropEmpty (ids : list string) : list string :=
  match ids with
  | [] => []
  | i :: rest => if String.eqb i "" then dropEmpty rest else ids
  end.

(** The path that stands for a chain of identifiers, outermost first. *)
Definition pathOf (chain : list string) : string :=
  Join (dropEmpty chain) "/".

(** What holds of every annotated record of a parse. *)
Definition wellFormedNode (x : annotated) : Prop :=
  Path (snd x) = pathOf (fst x ++ [Identifier (snd x)]) /\
  ParentId (snd x) = None.


End parser.

(** ** server/service/CfrStructureService.go: the parent linkage pass *)

Module service.
Import data.

(** The loop of [getParentPath], with [n] the number of bytes still to
    examine: it looks at index [n - 1], then below. *)
Fixpoint getParentPathFrom (path : string) (n : nat) : string :=
  match n with
  | O => ""
  | S i =>
      match String.get i path with
      | Some c =>
          if Ascii.eqb c "/" then String.substring 0 i path
          else getParentPathFrom path i
      | None => getParentPathFrom path i
      end
  end.

(** [getParentPath] *)
Definition getParentPath (path : string) : string :=
  getParentPathFrom path (String.length path).

Definition setParentId (structure : CfrStructure) (parent : option ref)
    : CfrStructure :=
  {| InternalId := InternalId structure; Id := Id structure;
     TitleId := TitleId structure; TitleNumber := TitleNumber structure;
     DivType := DivType structure; DivLevel := DivLevel structure;
     Identifier := Identifier structure; NodeId := NodeId structure;
     Heading := Heading structure; TextContent := TextContent structure;
     WordCount := WordCount structure; ParentId := parent;
     Path := Path structure |}.

(** The records of one document live in a store indexed by their
    references; [parseResult.Structures] holds the references
    [0 .. n-1] in order.  "First pass": [pathMap[structure.Path] =
    structure] for each record in turn, a later record replacing an
    earlier one with the same path. *)
Definition buildPathMap (store : list CfrStructure) : gmap string ref :=
  fold_left
    (fun (pathMap : gmap string ref) (r : ref) =>
       match store !! r with
       | Some structure => <[Path structure := r]> pathMap
       | None => pathMap
       end)
    (seq 0 (length store)) ∅.

(** One iteration of the "second pass": the record behind reference [r]
    gets a pointer to its parent when the parent path is not empty and
    is a key of [pathMap]. *)
Definition linkParent (pathMap : gmap string ref)
    (store : list CfrStructure) (r : ref) : list CfrStructure :=
  match store !! r with
  | None => store
  | Some structure =>
      let parentPath := getParentPath (Path structure) in
      if String.eqb parentPath "" then store
      else
        match pathMap !! parentPath with
        | Some parent => <[r := setParentId structure (Some parent)]> store
        | None => store
        end
  end.

(** The two passes of [processTitle] over [parseResult.Structures]. *)
Definition linkParents (structures : list CfrStructure)
    : list CfrStructure :=
  let pathMap := buildPathMap structures in
  fold_left (linkParent pathMap) (seq 0 (length structures)) structures.

(** The claim's words: [parent] is the path [path] truncated at its last
    separator, that is, [path] is [parent], a "/" and a last segment
    without "/". *)
Fixpoint hasSeparator (s : string) : bool :=
  match s with
  | EmptyString => false
  | String c rest => Ascii.eqb c "/" || hasSeparator rest
  end.

Definition truncatedAtLastSeparator (path parent : string) : Prop :=
  exists segment,
    path = (parent +:+ "/") +:+ segment /\ hasSeparator segment = false.

(** What the second pass does to one record. *)
Definition linked (pathMap : gmap string ref) (structure : CfrStructure)
    : CfrStructure :=
  let parentPath := getParentPath (Path structure) in
  if String.eqb parentPath "" then structure
  else match pathMap !! parentPath with
       | Some parent => setParentId structure (Some parent)
       | None => structure
       end.

(** The linkage as the specification words it: after the pass a record
    has a parent exactly when some record of the list has the path
    this record's path is truncated to. *)
Definition linkageAsSpecified (structures : list CfrStructure) : Prop :=
  forall r structure,
    linkParents structures !! r = Some structure ->
    (ParentId structure <> None <->
     exists parent,
       truncatedAtLastSeparator (Path structure) parent /\
       exists other, other ∈ structures /\ Path other = parent).

End service.

(** ** server/concurrent/runner.go *)

Module concurrent.

(** Go's [error] values, by their message. *)
Definition error := string.

Record RunnerConfig := mkRunnerConfig {
  MaxConcurrency : Z;
  LogPrefix : string
}.

Record Runner := mkRunner { config : RunnerConfig }.

(** [NewRunner] *)
Definition NewRunner (config : RunnerConfig) : Runner :=
  let config :=
    if String.eqb (LogPrefix config) ""
    then mkRunnerConfig (MaxConcurrency config) "Runner"
    else config in
  mkRunner config.

(** [logInfo]: the line handed to the logger. *)
Definition logInfo (r : Runner) (message : string) : string :=
  (LogPrefix (config r) +:+ ": ") +:+ message.

Section Run.
Context {T R : Type}.

Record RunResult := mkRunResult {
  Results : list R;
  Errors : list error
}.

(** What a worker function does that the runner can observe: it sends
    on the three channels it is given and returns.  A [WorkerFunc] is
    modelled by the sends it performs for an item, in order. *)
Inductive Send :=
| Message (m : string)
| Result (x : R)
| Error (e : error).

Definition WorkerFunc := T -> list Send.

(** Where the goroutine that runs [Run] stands. *)
Inductive Main :=
| Entry (items : list T)            (* at [if len(items) == 0] *)
| Dispatch (items : list T)         (* at the head of the item loop *)
| Acquire (item : T) (rest : list T)  (* after [workersWg.Add(1)] *)
| Spawn (item : T) (rest : list T)    (* at the [go] statement *)
| Wait                              (* at [workersWg.Wait()] *)
| CloseMessages
| CloseResults
| CloseErrors
| Join                              (* at [messagesWG.Wait()] *)
| Returned (result : RunResult).

(** A goroutine started by the item loop. *)
Inductive Goroutine :=
| Running (script : list Send)   (* inside [worker(item, ...)] *)
| Releasing                      (* deferred [<-throttle] *)
| Finishing                      (* deferred [workersWg.Done()] *)
| Exited.

(** One of the three goroutines that range over a channel. *)
Inductive Collector (A : Type) :=
| NotStarted
| Receiving              (* blocked in the receive of [range] *)
| Got (a : A)            (* in the loop body with the value received *)
| Finished.              (* after [messagesWG.Done()] *)
Arguments NotStarted {A}.
Arguments Receiving {A}.
Arguments Got {A} a.
Arguments Finished {A}.

Record State := mkState {
  main : Main;
  throttle : option nat;   (* capacity of [throttle]; [None]: nil *)
  slots : nat;             (* values buffered in [throttle] *)
  workersWg : nat;
  messagesWG : nat;
  workers : list Goroutine;
  messagesRecv : Collector string;
  resultsRecv : Collector R;
  errorsRecv : Collector error;
  messagesClosed : bool;
  resultsClosed : bool;
  errorsClosed : bool;
  logged : list string;
  resultsList : list R;
  errorsList : list error
}.

(** The state in which [Run (items, worker)] is entered. *)
Definition initial (items : list T) : State :=
  mkState (Entry items) None 0 0 0 [] NotStarted NotStarted NotStarted
          false false false [] [] [].

Definition set_main (m : Main) (s : State) : State :=
  mkState m (throttle s) (slots s) (workersWg s) (messagesWG s)
          (workers s) (messagesRecv s) (resultsRecv s) (errorsRecv s)
          (messagesClosed s) (resultsClosed s) (errorsClosed s)
          (logged s) (resultsList s) (errorsList s).
Definition set_slots (n : nat) (s : State) : State :=
  mkState (main s) (throttle s) n (workersWg s) (messagesWG s)
          (workers s) (messagesRecv s) (resultsRecv s) (errorsRecv s)
          (messagesClosed s) (resultsClosed s) (errorsClosed s)
          (logged s) (resultsList s) (errorsList s).
Definition set_workersWg (n : nat) (s : State) : State :=
  mkState (main s) (throttle s) (slots s) n (messagesWG s)
          (workers s) (messagesRecv s) (resultsRecv s) (errorsRecv s)
          (messagesClosed s) (resultsClosed s) (errorsClosed s)
          (logged s) (resultsList s) (errorsList s).
Definition set_messagesWG (n : nat) (s : State) : State :=
  mkState (main s) (throttle s) (slots s) (workersWg s) n
          (workers s) (messagesRecv s) (resultsRecv s) (errorsRecv s)
          (messagesClosed s) (resultsClosed s) (errorsClosed s)
          (logged s) (resultsList s) (errorsList s).
Definition set_workers (ws : list Goroutine) (s : State) : State :=
  mkState (main s) (throttle s) (slots s) (workersWg s) (messagesWG s)
          ws (messagesRecv s) (resultsRecv s) (errorsRecv s)
          (messagesClosed s) (resultsClosed s) (errorsClosed s)
          (logged s) (resultsList s) (errorsList s).
Definition set_messagesRecv (c : Collector string) (s : State) : State :=
  mkState (main s) (throttle s) (slots s) (workersWg s) (messagesWG s)
          (workers s) c (resultsRecv s) (errorsRecv s)
          (messagesClosed s) (resultsClosed s) (errorsClosed s)
          (logged s) (resultsList s) (errorsList s).
Definition set_resultsRecv (c : Collector R) (s : State) : State :=
  mkState (main s) (throttle s) (slots s) (workersWg s) (messagesWG s)
          (workers s) (messagesRecv s) c (errorsRecv s)
          (messagesClosed s) (resultsClosed s) (errorsClosed s)
          (logged s) (resultsList s) (errorsList s).
Definition set_errorsRecv (c : Collector error) (s : State) : State :=
  mkState (main s) (throttle s) (slots s) (workersWg s) (messagesWG s)
          (workers s) (messagesRecv s) (resultsRecv s) c
          (messagesClosed s) (resultsClosed s) (errorsClosed s)
          (logged s) (resultsList s) (errorsList s).
Definition set_closed (m r e : bool) (s : State) : State :=
  mkState (main s) (throttle s) (slots s) (workersWg s) (messagesWG s)
          (workers s) (messagesRecv s) (resultsRecv s) (errorsRecv s)
          m r e (logged s) (resultsList s) (errorsList s).
Definition set_logged (l : list string) (s : State) : State :=
  mkState (main s) (throttle s) (slots s) (workersWg s) (messagesWG s)
          (workers s) (messagesRecv s) (resultsRecv s) (errorsRecv s)
          (messagesClosed s) (resultsClosed s) (errorsClosed s)
          l (resultsList s) (errorsList s).
Definition set_resultsList (l : list R) (s : State) : State :=
  mkState (main s) (throttle s) (slots s) (workersWg s) (messagesWG s)
          (workers s) (messagesRecv s) (resultsRecv s) (errorsRecv s)
          (messagesClosed s) (resultsClosed s) (errorsClosed s)
          (logged s) l (errorsList s).
Definition set_errorsList (l : list error) (s : State) : State :=
  mkState (main s) (throttle s) (slots s) (workersWg s) (messagesWG s)
          (workers s) (messagesRecv s) (resultsRecv s) (errorsRecv s)
          (messagesClosed s) (resultsClosed s) (errorsClosed s)
          (logged s) (resultsList s) l.

Variable r : Runner.
Variable worker : WorkerFunc.

(** [if r.config.MaxConcurrency > 0 { throttle = make(chan int, ...) }] *)
Definition makeThrottle : option nat :=
  if (0 <? MaxConcurrency (config r))%Z
  then Some (Z.to_nat (MaxConcurrency (config r)))
  else None.

(** One step of the goroutine that runs [Run]; [None] when it is
    blocked or has returned. *)
Definition mainStep (s : State) : option State :=
  match main s with
  | Entry [] => Some (set_main (Returned (mkRunResult [] [])) s)
  | Entry items =>
      Some (mkState (Dispatch items) makeThrottle 0 0 3 []
                    Receiving Receiving Receiving false false false
                    [] [] [])
  | Dispatch [] => Some (set_main Wait s)
  | Dispatch (item :: rest) =>
      Some (set_workersWg (S (workersWg s)) (set_main (Acquire item rest) s))
  | Acquire item rest =>
      match throttle s with
      | None => Some (set_main (Spawn item rest) s)
      | Some capacity =>
          if slots s <? capacity
          then Some (set_slots (S (slots s)) (set_main (Spawn item rest) s))
          else None
      end
  | Spawn item rest =>
      Some (set_workers (workers s ++ [Running (worker item)])
                        (set_main (Dispatch rest) s))
  | Wait =>
      if workersWg s =? 0 then Some (set_main CloseMessages s) else None
  | CloseMessages =>
      Some (set_closed true (resultsClosed s) (errorsClosed s)
                       (set_main CloseResults s))
  | CloseResults =>
      Some (set_closed (messagesClosed s) true (errorsClosed s)
                       (set_main CloseErrors s))
  | CloseErrors =>
      Some (set_closed (messagesClosed s) (resultsClosed s) true
                       (set_main Join s))
  | Join =>
      if messagesWG s =? 0
      then Some (set_main
                   (Returned (mkRunResult (resultsList s) (errorsList s))) s)
      else None
  | Returned _ => None
  end.

(** One step of the [i]-th goroutine of the item loop.  A send is a
    rendezvous with the goroutine that ranges over the channel (the
    channels are unbuffered); a send on a closed channel, which
    panics in Go, is not a step. *)
Definition workerStep (i : nat) (s : State) : option State :=
  match workers s !! i with
  | Some (Running []) => Some (set_workers (<[i := Releasing]> (workers s)) s)
  | Some (Running (Message m :: rest)) =>
      match messagesClosed s, messagesRecv s with
      | false, Receiving =>
          Some (set_messagesRecv (Got m)
                  (set_workers (<[i := Running rest]> (workers s)) s))
      | _, _ => None
      end
  | Some (Running (Result x :: rest)) =>
      match resultsClosed s, resultsRecv s with
      | false, Receiving =>
          Some (set_resultsRecv (Got x)
                  (set_workers (<[i := Running rest]> (workers s)) s))
      | _, _ => None
      end
  | Some (Running (Error e :: rest)) =>
      match errorsClosed s, errorsRecv s with
      | false, Receiving =>
          Some (set_errorsRecv (Got e)
                  (set_workers (<[i := Running rest]> (workers s)) s))
      | _, _ => None
      end
  | Some Releasing =>
      match throttle s with
      | None => Some (set_workers (<[i := Finishing]> (workers s)) s)
      | Some _ =>
          match slots s with
          | S n =>
              Some (set_slots n
                      (set_workers (<[i := Finishing]> (workers s)) s))
          | O => None
          end
      end
  | Some Finishing =>
      match workersWg s with
      | S n =>
          Some (set_workersWg n
                  (set_workers (<[i := Exited]> (workers s)) s))
      | O => None
      end
  | Some Exited | None => None
  end.

(** One step of the goroutine that ranges over [messages]. *)
Definition messagesStep (s : State) : option State :=
  match messagesRecv s with
  | Got m =>
      Some (set_logged (logged s ++ [logInfo r m])
                       (set_messagesRecv Receiving s))
  | Receiving =>
      match messagesClosed s, messagesWG s with
      | true, S n => Some (set_messagesWG n (set_messagesRecv Finished s))
      | _, _ => None
      end
  | _ => None
  end.

(** One step of the goroutine that ranges over [results]. *)
Definition resultsStep (s : State) : option State :=
  match resultsRecv s with
  | Got x =>
      Some (set_resultsList (resultsList s ++ [x])
                            (set_resultsRecv Receiving s))
  | Receiving =>
      match resultsClosed s, messagesWG s with
      | true, S n => Some (set_messagesWG n (set_resultsRecv Finished s))
      | _, _ => None
      end
  | _ => None
  end.

(** One step of the goroutine that ranges over [errors]. *)
Definition errorsStep (s : State) : option State :=
  match errorsRecv s with
  | Got e =>
      Some (set_errorsList (errorsList s ++ [e])
                           (set_errorsRecv Receiving s))
  | Receiving =>
      match errorsClosed s, messagesWG s with
      | true, S n => Some (set_messagesWG n (set_errorsRecv Finished s))
      | _, _ => None
      end
  | _ => None
  end.

(** The goroutines of a run. *)
Inductive Thread :=
| MainThread
| WorkerThread (i : nat)
| MessagesThread
| ResultsThread
| ErrorsThread.

Definition stepOf (t : Thread) (s : State) : option State :=
  match t with
  | MainThread => mainStep s
  | WorkerThread i => workerStep i s
  | MessagesThread => messagesStep s
  | ResultsThread => resultsStep s
  | ErrorsThread => errorsStep s
  end.

(** The scheduler picks any goroutine that can take a step. *)
Definition step (s s' : State) : Prop :=
  exists t, stepOf t s = Some s'.

(** The states a run of [Run (items, worker)] passes through. *)
Definition reachable (items : list T) (s : State) : Prop :=
  rtc step (initial items) s.

(** A run under a given schedule. *)
Fixpoint runSchedule (schedule : list Thread) (s : State) : option State :=
  match schedule with
  | [] => Some s
  | t :: rest =>
      match stepOf t s with
      | Some s' => runSchedule rest s'
      | None => None
      end
  end.

(** *** Quantities the proofs count with *)

(** Worker invocations executing in a state. *)
Definition isRunning (g : Goroutine) : nat :=
  match g with Running _ => 1 | _ => 0 end.
Definition executing (s : State) : nat :=
  sum_list_with isRunning (workers s).

(** Goroutines that hold a slot of the throttle. *)
Definition holdsSlot (g : Goroutine) : nat :=
  match g with Running _ | Releasing => 1 | _ => 0 end.

(** Goroutines counted by [workersWg]. *)
Definition isActive (g : Goroutine) : nat :=
  match g with Exited => 0 | _ => 1 end.

Definition isResult (a : Send) : nat :=
  match a with Result _ => 1 | _ => 0 end.
Definition isError (a : Send) : nat :=
  match a with Error _ => 1 | _ => 0 end.
(** The outcomes a worker sends: values on [results] and on [errors]. *)
Definition isOutcome (a : Send) : nat := isResult a + isError a.

Definition resultsOf (script : list Send) : nat :=
  sum_list_with isResult script.
Definition errorsOf (script : list Send) : nat :=
  sum_list_with isError script.
Definition outcomesOf (script : list Send) : nat :=
  sum_list_with isOutcome script.

Definition scriptOf (g : Goroutine) : list Send :=
  match g with Running script => script | _ => [] end.

(** The items the loop has not yet started a goroutine for. *)
Definition undispatched (m : Main) : list T :=
  match m with
  | Entry items | Dispatch items => items
  | Acquire item rest | Spawn item rest => item :: rest
  | _ => []
  end.

Definition holding {A} (c : Collector A) : nat :=
  match c with Got _ => 1 | _ => 0 end.
Definition unfinished {A} (c : Collector A) : nat :=
  match c with Receiving | Got _ => 1 | _ => 0 end.

(** A bound on the steps a state can still take. *)
Definition goroutineSteps (g : Goroutine) : nat :=
  match g with
  | Running script => 3 + 2 * length script
  | Releasing => 2
  | Finishing => 1
  | Exited => 0
  end.
Definition collectorSteps {A} (c : Collector A) : nat :=
  match c with
  | NotStarted | Receiving => 1
  | Got _ => 2
  | Finished => 0
  end.
Definition itemSteps (item : T) : nat := 6 + 2 * length (worker item).
Definition mainSteps (m : Main) : nat :=
  match m with
  | Entry items => 10 + sum_list_with itemSteps items
  | Dispatch items => 6 + sum_list_with itemSteps items
  | Acquire item rest => 5 + itemSteps item + sum_list_with itemSteps rest
  | Spawn item rest => 4 + itemSteps item + sum_list_with itemSteps rest
  | Wait => 5
  | CloseMessages => 4
  | CloseResults => 3
  | CloseErrors => 2
  | Join => 1
  | Returned _ => 0
  end.
Definition stepsLeft (s : State) : nat :=
  mainSteps (main s) + sum_list_with goroutineSteps (workers s)
  + collectorSteps (messagesRecv s) + collectorSteps (resultsRecv s)
  + collectorSteps (errorsRecv s).

End Run.

Arguments NotStarted {A}.
Arguments Receiving {A}.
Arguments Got {A} a.
Arguments Finished {A}.
Arguments RunResult : clear implicits.
Arguments Send : clear implicits.
Arguments WorkerFunc : clear implicits.
Arguments State : clear implicits.
Arguments Main : clear implicits.

(** *** The invariant of a run of [Run (items, worker)] *)

Section Invariant.
Context {T R : Type}.
Variable r : Runner.
Variable worker : WorkerFunc T R.
Variable items : list T.

Definition inHand (m : Main T R) : nat :=
  match m with Acquire _ _ | Spawn _ _ => 1 | _ => 0 end.
Definition inSpawn (m : Main T R) : nat :=
  match m with Spawn _ _ => 1 | _ => 0 end.

Definition pendingResults (g : Goroutine (R:=R)) : nat := resultsOf (scriptOf g).
Definition pendingErrors (g : Goroutine (R:=R)) : nat := errorsOf (scriptOf g).

Definition resultsSent (l : list T) : nat :=
  sum_list_with (fun item => resultsOf (worker item)) l.
Definition errorsSent (l : list T) : nat :=
  sum_list_with (fun item => errorsOf (worker item)) l.

Definition closedFlags (s : State T R) : bool * bool * bool :=
  (messagesClosed s, resultsClosed s, errorsClosed s).

Definition phaseInv (s : State T R) : Prop :=
  match main s with
  | Entry _ => s = initial items
  | Dispatch _ | Acquire _ _ | Spawn _ _ | Wait =>
      throttle s = makeThrottle r /\
      closedFlags s = (false, false, false) /\
      unfinished (messagesRecv s) = 1 /\
      unfinished (resultsRecv s) = 1 /\
      unfinished (errorsRecv s) = 1
  | CloseMessages =>
      throttle s = makeThrottle r /\ workersWg s = 0 /\
      closedFlags s = (false, false, false)
  | CloseResults =>
      throttle s = makeThrottle r /\ workersWg s = 0 /\
      closedFlags s = (true, false, false)
  | CloseErrors =>
      throttle s = makeThrottle r /\ workersWg s = 0 /\
      closedFlags s = (true, true, false)
  | Join =>
      throttle s = makeThrottle r /\ workersWg s = 0 /\
      closedFlags s = (true, true, true)
  | Returned result =>
      (workers s <> [] -> throttle s = makeThrottle r) /\
      workersWg s = 0 /\ messagesWG s = 0 /\
      Results result = resultsList s /\ Errors result = errorsList s
  end.

Record Inv (s : State T R) : Prop := mkInv {
  inv_wg : workersWg s = sum_list_with isActive (workers s) + inHand (main s);
  inv_slots : forall capacity, throttle s = Some capacity ->
      slots s = sum_list_with holdsSlot (workers s) + inSpawn (main s) /\
      slots s <= capacity;
  inv_collectors : messagesWG s
      = unfinished (messagesRecv s) + unfinished (resultsRecv s)
        + unfinished (errorsRecv s);
  inv_results : length (resultsList s) + holding (resultsRecv s)
        + sum_list_with pendingResults (workers s)
        + resultsSent (undispatched (main s)) = resultsSent items;
  inv_errors : length (errorsList s) + holding (errorsRecv s)
        + sum_list_with pendingErrors (workers s)
        + errorsSent (undispatched (main s)) = errorsSent items;
  inv_dispatched : length (workers s) + length (undispatched (main s))
        = length items;
  inv_phase : phaseInv s
}.
End Invariant.

End concurrent.

(** ** Concrete inputs

    An instance of the library functions on ASCII text, and the token
    streams of a few small documents, for the examples below. *)

Module samples.
Import xml.

Definition isSpace (c : ascii) : bool :=
  let n := nat_of_ascii c in
  ((9 <=? n) && (n <=? 13)) || (n =? 32).

Fixpoint trimLeft (s : string) : string :=
  match s with
  | EmptyString => EmptyString
  | String c rest => if isSpace c then trimLeft rest else s
  end.

Fixpoint trimRight (s : string) : string :=
  match s with
  | EmptyString => EmptyString
  | String c rest =>
      let rest' := trimRight rest in
      if isSpace c && String.eqb rest' "" then EmptyString
      else String c rest'
  end.

Definition asciiTrimSpace (s : string) : string := trimRight (trimLeft s).

Fixpoint fieldsFrom (word : string) (s : string) : list string :=
  match s with
  | EmptyString => if String.eqb word "" then [] else [word]
  | String c rest =>
      if isSpace c then
        if String.eqb word "" then fieldsFrom "" rest
        else word :: fieldsFrom "" rest
      else fieldsFrom (word +:+ String c EmptyString) rest
  end.

Definition asciiFields (s : string) : list string := fieldsFrom "" s.

Definition name (local : string) : Name := mkName "" local.
Definition attr (local value : string) : Attr := mkAttr (name local) value.

(** Documents and what the scanner delivers for them. *)
Definition documents : list (string * (list Token * error)) :=
  [ ("<DIV1 N='1' TYPE='TITLE'>Lorem ipsum dolor</DIV1>",
     ([StartElement (name "DIV1") [attr "N" "1"; attr "TYPE" "TITLE"];
       CharData "Lorem ipsum dolor";
       EndElement (name "DIV1")], io_EOF));
    ("<DIV1 N='1'><HEAD>Title one</HEAD><DIV2 N='A'>foo bar</DIV2></DIV1>",
     ([StartElement (name "DIV1") [attr "N" "1"];
       StartElement (name "HEAD") []; CharData "Title one";
       EndElement (name "HEAD");
       StartElement (name "DIV2") [attr "N" "A"]; CharData "foo bar";
       EndElement (name "DIV2");
       EndElement (name "DIV1")], io_EOF));
    ("<DIV1><DIV2 N='A'>foo</DIV2></DIV1>",
     ([StartElement (name "DIV1") [];
       StartElement (name "DIV2") [attr "N" "A"]; CharData "foo";
       EndElement (name "DIV2");
       EndElement (name "DIV1")], io_EOF));
    ("<DIV1><DIV2 N='/A'>foo</DIV2></DIV1>",
     ([StartElement (name "DIV1") [];
       StartElement (name "DIV2") [attr "N" "/A"]; CharData "foo";
       EndElement (name "DIV2");
       EndElement (name "DIV1")], io_EOF));
    ("<DIV1 N='1'><DIV2 N='A'>foo bar",
     ([StartElement (name "DIV1") [attr "N" "1"];
       StartElement (name "DIV2") [attr "N" "A"];
       CharData "foo bar"], io_EOF));
    ("<DIV0 N='x'>a</DIV0>",
     ([StartElement (name "DIV0") [attr "N" "x"]; CharData "a";
       EndElement (name "DIV0")], io_EOF));
    ("<DIVA N='x'>a</DIVA>",
     ([StartElement (name "DIVA") [attr "N" "x"]; CharData "a";
       EndElement (name "DIVA")], io_EOF));
    ("<DIV10 N='x'>a</DIV10>",
     ([StartElement (name "DIV10") [attr "N" "x"]; CharData "a";
       EndElement (name "DIV10")], io_EOF)) ].

Fixpoint scan (table : list (string * (list Token * error)))
    (text : string) : Decoder :=
  match table with
  | [] => mkDecoder [] io_EOF [] None
  | (doc, (tokens, trailer)) :: rest =>
      if String.eqb doc text then mkDecoder tokens trailer [] None
      else scan rest text
  end.

Definition lib : GoLib :=
  {| TrimSpace := asciiTrimSpace;
     Fields := asciiFields;
     NewDecoder := scan documents |}.

Definition theParser : parser.CfrParser := parser.NewCfrParser 7 40.

End samples.

Module runs.
Import concurrent.
Definition negativeRunner : Runner := NewRunner (mkRunnerConfig (-1) "").
Definition oneSlot : Runner := NewRunner (mkRunnerConfig 1 "").

(** A worker that reports progress, then succeeds on even items and
    fails on odd ones. *)
Definition parity : WorkerFunc nat nat :=
  fun item =>
    if Nat.even item
    then [Message "Success"; Result item]
    else [Message "Failed"; Error "odd item"].

(** A schedule of [Run ([1; 2], parity)] with one slot: the goroutine
    of [Run] runs until it blocks on the throttle, the first worker
    runs to its end, then the second, then the channels are closed and
    the collectors finish. *)
Definition fullSchedule : list Thread :=
  [MainThread; MainThread; MainThread; MainThread; MainThread;
   WorkerThread 0; MessagesThread; WorkerThread 0; ErrorsThread;
   WorkerThread 0; WorkerThread 0; MainThread; MainThread; MainThread;
   WorkerThread 0; WorkerThread 1; MessagesThread;
   WorkerThread 1; ResultsThread; WorkerThread 1;
   WorkerThread 1; WorkerThread 1; MainThread; MainThread; MainThread;
   MainThread; MessagesThread; ResultsThread; ErrorsThread; MainThread].

(** Its first five steps: the second item waits for the slot. *)
Definition earlySchedule : list Thread :=
  [MainThread; MainThread; MainThread; MainThread; MainThread].
End runs.

(** ** Which start tags the parser makes records from *)
Module recognition.
Import xml data parser.

(** A tag name of exactly four bytes that starts with "DIV": its
    fourth byte. *)
Definition fourthByte (name : string) : option ascii :=
  match name with
  | String d (String i (String v (String c EmptyString))) =>
      if Ascii.eqb d "D" && Ascii.eqb i "I" && Ascii.eqb v "V" then Some c
      else None
  | _ => None
  end.

(** The loops of the parser that read tokens, besides the loop of
    [Parse]: the main loop of [parseDivElement], its inner loop over a
    HEAD element, and the loop of [extractTextContent]; the first and the
    last end at an end tag with the local name of their start tag. *)
Inductive Loop :=
| divLoop (startLocal : string)
| headLoop
| textLoop (startLocal : string).

(** The loops that are running when a token is read, innermost first;
    none when the loop of [Parse] reads it.  [next] is the loops running
    after the token, as the four loops enter and leave one another. *)
Definition next (active : list Loop) (t : Token) : list Loop :=
  match active, t with
  | [], StartElement name _ =>
      if fourthByte (Local name) is Some _ then [divLoop (Local name)] else []
  | divLoop startLocal :: outer, EndElement name =>
      if String.eqb (Local name) startLocal then outer else active
  | divLoop _ :: _, StartElement name _ =>
      if String.eqb (Local name) "HEAD" then headLoop :: active
      else if fourthByte (Local name) is Some _
           then divLoop (Local name) :: active
      else textLoop (Local name) :: active
  | headLoop :: outer, EndElement name =>
      if String.eqb (Local name) "HEAD" then outer else active
  | textLoop startLocal :: outer, EndElement name =>
      if String.eqb (Local name) startLocal then outer else active
  | textLoop _ :: _, StartElement name _ => textLoop (Local name) :: active
  | _, _ => active
  end.

(** The loop of [Parse] and the main loop of [parseDivElement] are the
    ones that look at the name of a start tag for a hierarchy element. *)
Definition testsNames (active : list Loop) : bool :=
  match active with
  | [] | divLoop _ :: _ => true
  | _ => false
  end.

(** The token is a start tag named "DIV" and one more byte, read by a
    loop that tests names. *)
Definition recognizes (active : list Loop) (t : Token) : bool :=
  match t with
  | StartElement name _ =>
      if fourthByte (Local name) is Some _ then testsNames active else false
  | _ => false
  end.

(** The tokens of a document that are recognised as the start of a
    hierarchy element, in the order of the document. *)
Fixpoint recognized (active : list Loop) (tokens : list Token) : list Token :=
  match tokens with
  | [] => []
  | t :: rest =>
      (if recognizes active t then [t] else [])
        ++ recognized (next active t) rest
  end.




(** A decoder that has failed for good: with a syntax error, or at the
    end of its tokens. *)
Definition broken (d : Decoder) : Prop :=
  exists e, err d = Some e /\ (pending d = [] \/ exists msg, e = SyntaxError msg).




End recognition.

Module recognitionSamples.
Import xml samples.

(** A document with the tags DIV0, DIV10 and DIVA below a root element,
    one with a DIV2 element inside a paragraph, one with a HEAD element
    at the top, and one with a DIV2 element inside a HEAD element after
    an inner HEAD element. *)
Definition mixed : string :=
  "<ROOT><DIV0 N='x'>a</DIV0><DIV10 N='y'>b</DIV10><DIVA N='z'>c</DIVA></ROOT>".
Definition inParagraph : string :=
  "<DIV1 N='1'><P><DIV2 N='A'>foo</DIV2></P></DIV1>".
Definition headOnTop : string := "<HEAD N='x'>a</HEAD>".
Definition headInHead : string :=
  "<DIV1 N='1'><HEAD><HEAD>x</HEAD><DIV2 N='A'>foo</DIV2></HEAD></DIV1>".

Definition table : list (string * (list Token * error)) :=
  [ (mixed,
     ([StartElement (name "ROOT") [];
       StartElement (name "DIV0") [attr "N" "x"]; CharData "a";
       EndElement (name "DIV0");
       StartElement (name "DIV10") [attr "N" "y"]; CharData "b";
       EndElement (name "DIV10");
       StartElement (name "DIVA") [attr "N" "z"]; CharData "c";
       EndElement (name "DIVA");
       EndElement (name "ROOT")], io_EOF));
    (inParagraph,
     ([StartElement (name "DIV1") [attr "N" "1"];
       StartElement (name "P") [];
       StartElement (name "DIV2") [attr "N" "A"]; CharData "foo";
       EndElement (name "DIV2");
       EndElement (name "P");
       EndElement (name "DIV1")], io_EOF));
    (headOnTop,
     ([StartElement (name "HEAD") [attr "N" "x"]; CharData "a";
       EndElement (name "HEAD")], io_EOF));
    (headInHead,
     ([StartElement (name "DIV1") [attr "N" "1"];
       StartElement (name "HEAD") [];
       StartElement (name "HEAD") []; CharData "x";
       EndElement (name "HEAD");
       StartElement (name "DIV2") [attr "N" "A"]; CharData "foo";
       EndElement (name "DIV2");
       EndElement (name "HEAD");
       EndElement (name "DIV1")], io_EOF)) ].

Definition lib : GoLib :=
  {| TrimSpace := asciiTrimSpace;
     Fields := asciiFields;
     NewDecoder := scan table |}.

End recognitionSamples.

(** ** The parser over a store of objects

    [Parse] once more, with the objects it reaches through pointers
    kept in a store that outlives the call: the receiver
    ([*CfrParser]), the decoder ([*xml.Decoder]) and the records
    ([*data.CfrStructure]).  A call reads the receiver, creates its
    decoder, advances it, and allocates its records; what it returns
    holds pointers.  The builder [textContent] and the start element,
    which are local variables passed by address, stay values. *)
Module store.
Import xml data parser.

Abbreviation ptr := nat.

Record Store := mkStore {
  parsers : list CfrParser;
  decoders : list Decoder;
  structures : list CfrStructure
}.

(** What a call does to the store: it returns, it panics on a pointer
    that points to no object, or the model runs out of fuel. *)
Inductive Outcome (A : Type) : Type :=
| Returns (a : A) (h : Store)
| Panics
| OutOfFuel.
Arguments Returns {A} a h.
Arguments Panics {A}.
Arguments OutOfFuel {A}.

Definition M (A : Type) : Type := Store -> Outcome A.

Definition ret {A} (a : A) : M A := fun h => Returns a h.

Definition bind {A B} (m : M A) (k : A -> M B) : M B :=
  fun h =>
    match m h with
    | Returns a h' => k a h'
    | Panics => Panics
    | OutOfFuel => OutOfFuel
    end.

Notation "'let*' x ':=' m 'in' k" := (bind m (fun x => k))
  (at level 10, x name, m at level 100, k at level 200).

(** [p.titleId] and [p.titleNumber] *)
Definition loadParser (p : ptr) : M CfrParser :=
  fun h =>
    match parsers h !! p with
    | Some c => Returns c h
    | None => Panics
    end.

Definition setDecoder (decoder : ptr) (d : Decoder) (h : Store) : Store :=
  mkStore (parsers h) (<[decoder := d]> (decoders h)) (structures h).

Definition addStructures (new : list CfrStructure) (h : Store) : Store :=
  mkStore (parsers h) (decoders h) (structures h ++ new).

(** [xml.NewDecoder (strings.NewReader (xmlContent))] *)
Definition newDecoder {lib : GoLib} (xmlContent : string) : M ptr :=
  fun h =>
    Returns (length (decoders h))
            (mkStore (parsers h) (decoders h ++ [NewDecoder xmlContent])
                     (structures h)).

(** [decoder.Token ()] *)
Definition Token (decoder : ptr) : M (xml.Token + xml.error) :=
  fun h =>
    match decoders h !! decoder with
    | Some d =>
        let (x, d') := Decoder_Token d in Returns x (setDecoder decoder d' h)
    | None => Panics
    end.

(** [&data.CfrStructure{...}] *)
Definition allocStructure (structure : CfrStructure) : M ptr :=
  fun h => Returns (length (structures h)) (addStructures [structure] h).

(** [child.WordCount] *)
Definition loadWordCount (child : ptr) : M Z :=
  fun h =>
    match structures h !! child with
    | Some s => Returns (WordCount s) h
    | None => Panics
    end.

(** The fuel for the loops of a call, as in [parser.Parse]. *)
Definition fuelFor (decoder : ptr) : M nat :=
  fun h =>
    match decoders h !! decoder with
    | Some d => Returns (enoughFuel d) h
    | None => Panics
    end.

Record ParseResult := mkParseResult {
  Structures : list ptr;
  TotalWords : Z
}.

Record divBody := mkDivBody {
  heading : option string;
  textContent : string;
  childStructures : list ptr
}.

Section WithLib.
Context {lib : GoLib}.

Fixpoint extractTextContent (fuel : nat) (decoder : ptr)
    (startLocal : string) (textContent : string) : M string :=
  match fuel with
  | O => fun _ => OutOfFuel
  | S fuel' =>
      let* x := Token decoder in
      match x with
      | inr _ => ret textContent
      | inl (EndElement name) =>
          if String.eqb (Local name) startLocal then ret textContent
          else extractTextContent fuel' decoder startLocal textContent
      | inl (StartElement name _) =>
          let* textContent' :=
            extractTextContent fuel' decoder (Local name) textContent in
          extractTextContent fuel' decoder startLocal textContent'
      | inl (CharData data) =>
          extractTextContent fuel' decoder startLocal
                             (writeText textContent data)
      | inl _ => extractTextContent fuel' decoder startLocal textContent
      end
  end.

Fixpoint readHead (fuel : nat) (decoder : ptr) (headText : string)
    : M string :=
  match fuel with
  | O => fun _ => OutOfFuel
  | S fuel' =>
      let* x := Token decoder in
      match x with
      | inr _ => ret headText
      | inl (EndElement name) =>
          if String.eqb (Local name) "HEAD" then ret headText
          else readHead fuel' decoder headText
      | inl (CharData data) => readHead fuel' decoder (headText +:+ data)
      | inl _ => readHead fuel' decoder headText
      end
  end.

(** "totalWords += child.WordCount" over the children *)
Fixpoint addWordCounts (children : list ptr) (totalWords : Z) : M Z :=
  match children with
  | [] => ret totalWords
  | child :: rest =>
      let* wordCount := loadWordCount child in
      addWordCounts rest (totalWords + wordCount)%Z
  end.

(** The rest of [parseDivElement] after its main loop. *)
Definition buildStructures (p : ptr) (attrs : divAttrs) (divLevel : Z)
    (parentId : option ref) (path : string) (body : divBody)
    : M (list ptr * Z) :=
  let* c := loadParser p in
  let record :=
    newStructure c attrs divLevel parentId path
                 (heading body) (textContent body) in
  let* structure := allocStructure record in
  let structures :=
    fold_left (fun acc child => acc ++ [child]) (childStructures body)
              [structure] in
  let* totalWords :=
    addWordCounts (childStructures body) (WordCount record) in
  ret (structures, totalWords).

Fixpoint parseDivElement (fuel : nat) (p : ptr) (decoder : ptr)
    (startName : Name) (startAttr : list Attr) (divLevel : Z)
    (parentId : option ref) (parentPath : string) : M (list ptr * Z) :=
  match fuel with
  | O => fun _ => OutOfFuel
  | S fuel' =>
      let attrs := scanAttrs startAttr in
      let path := buildPath parentPath (identifier attrs) in
      let* body :=
        parseDivLoop fuel' p decoder (Local startName) path
                     (mkDivBody None "" []) in
      buildStructures p attrs divLevel parentId path body
  end
with parseDivLoop (fuel : nat) (p : ptr) (decoder : ptr)
    (startLocal : string) (path : string) (body : divBody) : M divBody :=
  match fuel with
  | O => fun _ => OutOfFuel
  | S fuel' =>
      let* x := Token decoder in
      match x with
      | inr _ => ret body
      | inl (EndElement name) =>
          if String.eqb (Local name) startLocal then ret body
          else parseDivLoop fuel' p decoder startLocal path body
      | inl (StartElement name attr) =>
          if String.eqb (Local name) "HEAD" then
            let* headText := readHead fuel' decoder "" in
            parseDivLoop fuel' p decoder startLocal path
              (mkDivBody (Some (TrimSpace headText))
                         (textContent body) (childStructures body))
          else if isDivElement (Local name) then
            let childDivLevel := divLevelOf (Local name) in
            let* child :=
              parseDivElement fuel' p decoder name attr childDivLevel
                              None path in
            parseDivLoop fuel' p decoder startLocal path
              (mkDivBody (heading body) (textContent body)
                         (childStructures body ++ fst child))
          else
            let* textContent' :=
              extractTextContent fuel' decoder (Local name)
                                 (textContent body) in
            parseDivLoop fuel' p decoder startLocal path
              (mkDivBody (heading body) textContent'
                         (childStructures body))
      | inl (CharData data) =>
          parseDivLoop fuel' p decoder startLocal path
            (mkDivBody (heading body)
                       (writeText (textContent body) data)
                       (childStructures body))
      | inl _ => parseDivLoop fuel' p decoder startLocal path body
      end
  end.

Fixpoint parseLoop (fuel : nat) (p : ptr) (decoder : ptr)
    (structures : list ptr) (totalWords : Z)
    : M (ParseResult + parser.error) :=
  match fuel with
  | O => fun _ => OutOfFuel
  | S fuel' =>
      let* x := Token decoder in
      match x with
      | inr io_EOF => ret (inl (mkParseResult structures totalWords))
      | inr e => ret (inr (Errorf "error parsing XML: %w" e))
      | inl (StartElement name attr) =>
          if isDivElement (Local name) then
            let divLevel := divLevelOf (Local name) in
            let* div :=
              parseDivElement fuel' p decoder name attr divLevel None "" in
            parseLoop fuel' p decoder (structures ++ fst div)
                      (totalWords + snd div)%Z
          else parseLoop fuel' p decoder structures totalWords
      | inl _ => parseLoop fuel' p decoder structures totalWords
      end
  end.

(** [Parse] on the receiver [p] *)
Definition Parse (p : ptr) (xmlContent : string)
    : M (ParseResult + parser.error) :=
  let* decoder := newDecoder xmlContent in
  let* fuel := fuelFor decoder in
  parseLoop fuel p decoder [] 0%Z.

End WithLib.

(** The records behind a list of pointers. *)
Definition loadAll (h : Store) (l : list ptr) : option (list CfrStructure) :=
  mapM (fun q => structures h !! q) l.

(** What a caller sees of a result in a store: the records behind the
    pointers, in the order of the list, and the total; or the error. *)
Definition view (h : Store) (r : ParseResult + parser.error)
    : option (parser.ParseResult + parser.error) :=
  match r with
  | inl result =>
      match loadAll h (Structures result) with
      | Some l => Some (inl (parser.mkParseResult l (TotalWords result)))
      | None => None
      end
  | inr e => Some (inr e)
  end.

(** The store after a call that left the decoder as [d] and allocated
    the records [new]. *)
Definition after (decoder : ptr) (d : Decoder) (new : list CfrStructure)
    (h : Store) : Store :=
  addStructures new (setDecoder decoder d h).

(** The pointers [l] point to the records [k] in [objects]. *)
Definition pointTo (objects : list CfrStructure) (l : list ptr)
    (k : list CfrStructure) : Prop :=
  Forall2 (fun q s => objects !! q = Some s) l k.

(** The bodies of the two models agree. *)
Definition sameBody (objects : list CfrStructure) (body : divBody)
    (body' : parser.divBody) : Prop :=
  heading body = parser.heading body' /\
  textContent body = parser.textContent body' /\
  pointTo objects (childStructures body) (parser.childStructures body').

End store.

Module storeSamples.
Import store samples.

(** A store that holds one parser object and nothing else. *)
Definition fresh : Store := mkStore [theParser] [] [].

Definition document : string :=
  "<DIV1 N='1'><HEAD>Title one</HEAD><DIV2 N='A'>foo bar</DIV2></DIV1>".

(** Two calls on the same receiver and text, one after the other: the
    two results, and what they show in the store after both. *)
Definition twice (text : string)
    : option ((ParseResult + parser.error) * (ParseResult + parser.error)
              * option (parser.ParseResult + parser.error)
              * option (parser.ParseResult + parser.error)) :=
  match Parse (lib := lib) 0 text fresh with
  | Returns r1 h1 =>
      match Parse (lib := lib) 0 text h1 with
      | Returns r2 h2 => Some (r1, r2, view h2 r1, view h2 r2)
      | _ => None
      end
  | _ => None
  end.

End storeSamples.

(** * More of the repository

    The modules below embed the code around the functions above:
    [RunWithCallbacks], the rest of [CfrStructureService]
    ([processTitle], [ProcessAllTitles]), the services that start runs
    of the runner ([ComputedValueServiceRefactored],
    [TitleVersionService]), [ChangeTrackingService] and
    [GetDivTypeForLevel]; with them what the statements about runs and
    about parses are worded in. *)

(** ** The order of the records of a parse *)
Module preorder.
Import data parser.

(** The record at index [i], parsed under the chain [a] of ancestors,
    comes after the record of its parent. *)
Definition parentBefore (l : list annotated) (i : nat) (a : list string)
    : Prop :=
  exists j a' s', j < i /\ l !! j = Some (a', s') /\
                  a = a' ++ [Identifier s'].

(** Every record of [l] is directly below [chain] or comes after its
    parent. *)
Definition under (chain : list string) (l : list annotated) : Prop :=
  forall i a s, l !! i = Some (a, s) -> a = chain \/ parentBefore l i a.
End preorder.

(** ** Where the records of a parse come from *)
Module provenance.
Import xml data parser.

(** Whether a token is the start tag of a hierarchy element. *)
Definition isDivStart (t : Token) : bool :=
  match t with
  | StartElement name _ => isDivElement (Local name)
  | _ => false
  end.

(** The start tags of hierarchy elements among the tokens. *)
Definition hierarchyTags (tokens : list Token) : list Token :=
  List.filter isDivStart tokens.

(** The record was made from a start tag among the tokens: its level
    is read off the tag, its type, identifier and node id off the
    attributes. *)
Definition fromTag (tokens : list Token) (s : CfrStructure) : Prop :=
  exists name attr,
    StartElement name attr ∈ tokens /\
    isDivElement (Local name) = true /\
    DivLevel s = divLevelOf (Local name) /\
    DivType s = divType (scanAttrs attr) /\
    Identifier s = identifier (scanAttrs attr) /\
    NodeId s = nodeId (scanAttrs attr).
End provenance.

(** ** What a run of [Run] delivers: the values, not only their number *)
Module delivery.
Import concurrent.

Section Delivery.
Context {T R : Type}.

Definition messageOf (a : Send R) : option string :=
  match a with Message m => Some m | _ => None end.
Definition resultOf (a : Send R) : option R :=
  match a with Result x => Some x | _ => None end.
Definition errorOf (a : Send R) : option error :=
  match a with Error e => Some e | _ => None end.

(** The values a worker sends on each channel, in the order sent. *)
Definition messagesIn (script : list (Send R)) : list string :=
  omap messageOf script.
Definition resultsIn (script : list (Send R)) : list R :=
  omap resultOf script.
Definition errorsIn (script : list (Send R)) : list error :=
  omap errorOf script.

(** The value a collector has received and not yet handled. *)
Definition heldBy {A} (c : Collector A) : list A :=
  match c with Got a => [a] | _ => [] end.

Variable r : Runner.
Variable worker : WorkerFunc T R.

(** Everything sent or still to be sent on one channel, from where it
    is now: handled by the collector, in the collector's hand, still in
    the script of a goroutine, or with an item not yet dispatched. *)
Definition inFlight {A} (pick : list (Send R) -> list A)
    (handled held : list A) (s : State T R) : list A :=
  handled ++ held
  ++ (workers s ≫= fun g => pick (scriptOf g))
  ++ (undispatched (main s) ≫= fun item => pick (worker item)).

Definition linesOf (script : list (Send R)) : list string :=
  logInfo r <$> messagesIn script.

Definition messagesInFlight (s : State T R) : list string :=
  inFlight linesOf (logged s) (logInfo r <$> heldBy (messagesRecv s)) s.
Definition resultsInFlight (s : State T R) : list R :=
  inFlight resultsIn (resultsList s) (heldBy (resultsRecv s)) s.
Definition errorsInFlight (s : State T R) : list error :=
  inFlight errorsIn (errorsList s) (heldBy (errorsRecv s)) s.

(** All the values the workers send for a list of items. *)
Definition allMessages (items : list T) : list string :=
  items ≫= fun item => messagesIn (worker item).
Definition allResults (items : list T) : list R :=
  items ≫= fun item => resultsIn (worker item).
Definition allErrors (items : list T) : list error :=
  items ≫= fun item => errorsIn (worker item).

End Delivery.
End delivery.

(** ** The order in which a run delivers *)
Module order.
Import concurrent delivery.
Section Order.
Context {T R : Type}.
Variable r : Runner.
Variable worker : WorkerFunc T R.
Variable items : list T.

(** The goroutines started so far run the items in order; for each of
    them, what it has already sent on a channel has reached the
    collector of that channel in the order sent. *)
Definition sentInOrder {A} (pick : list (Send R) -> list A)
    (received : list A) (s : State T R) : Prop :=
  forall i g item,
    workers s !! i = Some g -> items !! i = Some item ->
    exists sent,
      pick (worker item) = sent ++ pick (scriptOf g) /\
      sent `sublist_of` received.

Record Ordered (s : State T R) : Prop := mkOrdered {
  ord_items : drop (length (workers s)) items = undispatched (main s);
  ord_messages :
    sentInOrder (linesOf r)
      (logged s ++ (logInfo r <$> heldBy (messagesRecv s))) s;
  ord_results :
    sentInOrder resultsIn (resultsList s ++ heldBy (resultsRecv s)) s;
  ord_errors :
    sentInOrder errorsIn (errorsList s ++ heldBy (errorsRecv s)) s
}.
End Order.
End order.

(** ** server/concurrent/runner.go: [RunWithCallbacks] *)
Module callbacks.
Import concurrent.

Section RunWithCallbacks.
Context {T R : Type}.

(** A call of one of the callbacks. *)
Inductive Call :=
| OnMessage (message : string)
| OnResult (result : R)
| OnError (err : error).

(** The callbacks given: [true] for a function, [false] for nil.  A
    callback that is called returns. *)
Record Callbacks := mkCallbacks {
  onMessage : bool;
  onResult : bool;
  onError : bool
}.

Variable r : Runner.
Variable worker : WorkerFunc T R.
Variable cb : Callbacks.

(** The state of a run: the goroutines, wait groups and channels as
    for [Run] (there are no lists [resultsList] and [errorsList] here;
    the two fields stay empty), and the calls of the callbacks made so
    far, in the order made. *)
Definition CbState : Type := State T R * list Call.

(** [if on != nil { on(value) }] *)
Definition call (given : bool) (c : Call) (calls : list Call) : list Call :=
  if given then calls ++ [c] else calls.

(** The goroutine that runs [RunWithCallbacks] and the goroutines of
    its item loop: statement by statement those of [Run]. *)
Definition mainStepCb (st : CbState) : option CbState :=
  match mainStep r worker (fst st) with
  | Some s' => Some (s', snd st)
  | None => None
  end.

Definition workerStepCb (i : nat) (st : CbState) : option CbState :=
  match workerStep i (fst st) with
  | Some s' => Some (s', snd st)
  | None => None
  end.

(** The goroutine that ranges over [messages]: the callback, then
    [r.logInfo]. *)
Definition messagesStepCb (st : CbState) : option CbState :=
  let s := fst st in
  match messagesRecv s with
  | Got m =>
      Some (set_logged (logged s ++ [logInfo r m])
                       (set_messagesRecv Receiving s),
            call (onMessage cb) (OnMessage m) (snd st))
  | Receiving =>
      match messagesClosed s, messagesWG s with
      | true, S n =>
          Some (set_messagesWG n (set_messagesRecv Finished s), snd st)
      | _, _ => None
      end
  | _ => None
  end.

(** The goroutine that ranges over [results]. *)
Definition resultsStepCb (st : CbState) : option CbState :=
  let s := fst st in
  match resultsRecv s with
  | Got x =>
      Some (set_resultsRecv Receiving s,
            call (onResult cb) (OnResult x) (snd st))
  | Receiving =>
      match resultsClosed s, messagesWG s with
      | true, S n =>
          Some (set_messagesWG n (set_resultsRecv Finished s), snd st)
      | _, _ => None
      end
  | _ => None
  end.

(** The goroutine that ranges over [errors]. *)
Definition errorsStepCb (st : CbState) : option CbState :=
  let s := fst st in
  match errorsRecv s with
  | Got e =>
      Some (set_errorsRecv Receiving s,
            call (onError cb) (OnError e) (snd st))
  | Receiving =>
      match errorsClosed s, messagesWG s with
      | true, S n =>
          Some (set_messagesWG n (set_errorsRecv Finished s), snd st)
      | _, _ => None
      end
  | _ => None
  end.

Definition stepOfCb (t : Thread) (st : CbState) : option CbState :=
  match t with
  | MainThread => mainStepCb st
  | WorkerThread i => workerStepCb i st
  | MessagesThread => messagesStepCb st
  | ResultsThread => resultsStepCb st
  | ErrorsThread => errorsStepCb st
  end.

Definition stepCb (st st' : CbState) : Prop :=
  exists t, stepOfCb t st = Some st'.

(** The states a run of [RunWithCallbacks (items, worker, ...)] passes
    through. *)
Definition reachableCb (items : list T) (st : CbState) : Prop :=
  rtc stepCb (initial items, []) st.

(** Whether [RunWithCallbacks] has returned. *)
Definition returned (st : CbState) : Prop :=
  exists result, main (fst st) = Returned result.

(** The arguments each callback was called with, in order. *)
Definition messagesCalled (calls : list Call) : list string :=
  omap (fun c => match c with OnMessage m => Some m | _ => None end) calls.
Definition resultsCalled (calls : list Call) : list R :=
  omap (fun c => match c with OnResult x => Some x | _ => None end) calls.
Definition errorsCalled (calls : list Call) : list error :=
  omap (fun c => match c with OnError e => Some e | _ => None end) calls.

(** *** The run of [Run] a run of [RunWithCallbacks] follows *)

(** A state of [Run] without what [RunWithCallbacks] does not have:
    the two lists and the value returned. *)
Definition forgetMain (m : Main T R) : Main T R :=
  match m with
  | Returned _ => Returned (mkRunResult [] [])
  | _ => m
  end.

Definition forget (s : State T R) : State T R :=
  mkState (forgetMain (main s)) (throttle s) (slots s) (workersWg s)
          (messagesWG s) (workers s) (messagesRecv s) (resultsRecv s)
          (errorsRecv s) (messagesClosed s) (resultsClosed s)
          (errorsClosed s) (logged s) [] [].

(** [st] is [s] seen through the callbacks: the same goroutines, and
    each given callback called with what [Run] has collected. *)
Definition follows (st : CbState) (s : State T R) : Prop :=
  fst st = forget s /\
  resultsCalled (snd st) = (if onResult cb then resultsList s else []) /\
  errorsCalled (snd st) = (if onError cb then errorsList s else []) /\
  logInfo r <$> messagesCalled (snd st)
  = (if onMessage cb then logged s else []).

End RunWithCallbacks.

Arguments Call : clear implicits.
Arguments CbState : clear implicits.
End callbacks.

(** ** fmt *)
Module fmt.
(** [fmt.Sprintf("%d", n)]: the decimal numeral of [n]. *)
Definition Sprintf_d (n : Z) : string :=
  NilZero.string_of_int (Z.to_int n).
End fmt.

(** ** server/service/CfrStructureService.go: [processTitle] and
    [ProcessAllTitles] *)
Module cfrStructureService.
Import xml data parser service concurrent fmt.

(** The fields of [data.Title] the service reads. *)
Record Title := mkTitle {
  InternalId : Z;
  Name : Z
}.

(** The errors [processTitle] returns: an error of a DAO call or of the
    parser, wrapped by [fmt.Errorf] with the verb [%w]. *)
Inductive error :=
| daoError (message : string)
| parserError (e : parser.error)
| Errorf (format : string) (cause : error).

(** What the DAOs answer while one title is processed: the content of
    the title or an error; an error or nil for the two statements. *)
Record Dao := mkDao {
  GetContent : Z -> string + string;
  DeleteByTitleId : Z -> option string;
  BatchInsert : list CfrStructure -> option string
}.

(** The DAO calls [processTitle] makes. *)
Inductive Call :=
| CallGetContent (titleNumber : Z)
| CallDeleteByTitleId (titleId : Z)
| CallBatchInsert (structures : list CfrStructure).

(** The title filter of [ProcessAllTitles]: [filterMap] and the lookup
    [filterMap[key]], which is false for a missing key. *)
Definition buildFilterMap (titlesFilter : list string) : gmap string bool :=
  fold_left (fun (filterMap : gmap string bool) t => <[t := true]> filterMap)
            titlesFilter ∅.

Definition filterLookup (filterMap : gmap string bool) (key : string) : bool :=
  default false (filterMap !! key).

Definition filterTitles (titlesFilter : list string) (titles : list Title)
    : list Title :=
  if 0 <? length titlesFilter then
    let filterMap := buildFilterMap titlesFilter in
    fold_left
      (fun filteredTitles title =>
         if filterLookup filterMap (Sprintf_d (Name title))
         then filteredTitles ++ [title] else filteredTitles)
      titles []
  else titles.

Section WithLib.
Context {lib : GoLib}.

(** [processTitle]: the calls made, in order, and the error returned.
    [None] only when the parser's fuel runs out, which
    [processTitle_returns] below excludes. *)
Definition processTitle (dao : Dao) (title : Title)
    : option (list Call * option error) :=
  let getContent := CallGetContent (Name title) in
  match GetContent dao (Name title) with
  | inr err =>
      Some ([getContent],
            Some (Errorf "failed to get title content: %w" (daoError err)))
  | inl xmlContent =>
      let cfrParser := NewCfrParser (InternalId title) (Name title) in
      match Parse cfrParser xmlContent with
      | None => None
      | Some (inr err) =>
          Some ([getContent],
                Some (Errorf "failed to parse XML: %w" (parserError err)))
      | Some (inl parseResult) =>
          let delete := CallDeleteByTitleId (InternalId title) in
          match DeleteByTitleId dao (InternalId title) with
          | Some err =>
              Some ([getContent; delete],
                    Some (Errorf "failed to delete existing structures: %w"
                                 (daoError err)))
          | None =>
              if 0 <? length (Structures parseResult) then
                let structures := linkParents (Structures parseResult) in
                let insert := CallBatchInsert structures in
                match BatchInsert dao structures with
                | Some err =>
                    Some ([getContent; delete; insert],
                          Some (Errorf "failed to insert structures: %w"
                                       (daoError err)))
                | None => Some ([getContent; delete; insert], None)
                end
              else Some ([getContent; delete], None)
          end
      end
  end.

(** [err.Error()] *)
Variable ErrorString : error -> string.

(** The worker function of [ProcessAllTitles].  An item is a title
    with the answers of the DAOs while it is processed. *)
Definition worker : WorkerFunc (Title * Dao) string :=
  fun item =>
    let title := fst item in
    let name := Sprintf_d (Name title) in
    Message ("Processing: Title " +:+ name) ::
    match processTitle (snd item) title with
    | None => []
    | Some (_, Some err) =>
        [Message ((("Failed: Title " +:+ name) +:+ " - ") +:+ ErrorString err);
         Error (ErrorString (Errorf (("title " +:+ name) +:+ ": %w") err))]
    | Some (_, None) =>
        [Message ("Success: Title " +:+ name);
         Result ("Title " +:+ name)]
    end.

(** Whether [processTitle] returns nil for an item. *)
Definition succeeds (item : Title * Dao) : bool :=
  match processTitle (snd item) (fst item) with
  | Some (_, None) => true
  | _ => false
  end.

(** The error [processTitle] returns for an item. *)
Definition failure (item : Title * Dao) : option error :=
  match processTitle (snd item) (fst item) with
  | Some (_, Some err) => Some err
  | _ => None
  end.

End WithLib.

(** The runner [ProcessAllTitles] creates. *)
Definition runner : Runner :=
  NewRunner (mkRunnerConfig 5 "CFR Structure Parser").

End cfrStructureService.

(** ** server/service/ComputedValueServiceRefactored.go *)
Module computedValueService.
Import concurrent cfrStructureService.

(** Agencies live in a heap; a [*data.Agency] is an address in it.
    The fields of [data.Agency] the service reads or writes. *)
Abbreviation ptr := nat.

Record Agency := mkAgency {
  Name : string;
  Slug : string;
  Children : list ptr;
  Parent : option ptr
}.

Abbreviation Heap := (list Agency).

(** [child.Parent = agency] *)
Definition setParent (child : Agency) (agency : ptr) : Agency :=
  {| Name := Name child; Slug := Slug child; Children := Children child;
     Parent := Some agency |}.

(** The body of the inner loop of [extractSubAgencies]; [None] is the
    panic of a nil pointer dereference. *)
Definition visitChild (agency : ptr) (state : option (Heap * list ptr))
    (child : ptr) : option (Heap * list ptr) :=
  match state with
  | None => None
  | Some (heap, subAgencies) =>
      match heap !! child with
      | None => None
      | Some c =>
          Some (<[child := setParent c agency]> heap, subAgencies ++ [child])
      end
  end.

(** The body of the outer loop. *)
Definition visitAgency (state : option (Heap * list ptr)) (agency : ptr)
    : option (Heap * list ptr) :=
  match state with
  | None => None
  | Some (heap, subAgencies) =>
      match heap !! agency with
      | None => None
      | Some a =>
          fold_left (visitChild agency) (Children a)
                    (Some (heap, subAgencies))
      end
  end.

(** [extractSubAgencies]: the heap after the call and the slice
    returned. *)
Definition extractSubAgencies (heap : Heap) (agencies : list ptr)
    : option (Heap * list ptr) :=
  fold_left visitAgency agencies (Some (heap, [])).

(** The children an agency of the heap lists. *)
Definition childrenOf (heap : Heap) (agency : ptr) : list ptr :=
  match heap !! agency with
  | Some a => Children a
  | None => []
  end.

(** Every agency of the list and every child it lists is in the heap
    (no nil pointer). *)
Definition noNil (heap : Heap) (agencies : list ptr) : Prop :=
  forall agency, agency ∈ agencies ->
    agency < length heap /\
    forall child, child ∈ childrenOf heap agency -> child < length heap.

(** Two heaps that differ at most in [Parent] fields. *)
Definition sameButParent (heap heap' : Heap) : Prop :=
  length heap' = length heap /\
  forall q a, heap !! q = Some a ->
    exists a', heap' !! q = Some a' /\
      Name a' = Name a /\ Slug a' = Slug a /\ Children a' = Children a.

(** What the metric service, [json.Marshal] and the DAO answer while
    one agency is processed: an error or nil each. *)
Record Answers := mkAnswers {
  CountWordsAndSections : option string;
  Marshal : option string;
  Insert : option string
}.

(** The sends of [processAgencyMetric] and [processSubAgencyMetric]
    after the first message: [subject] is the slug or the name, [kind]
    is "agency" or "sub-agency". *)
Definition report (kind subject : string) (answers : Answers)
    : list (Send string) :=
  let failed (what err : string) : list (Send string) :=
    [Message ((((((("failed to " +:+ what) +:+ " ") +:+ kind)
                   +:+ " metrics, ") +:+ subject) +:+ ", ") +:+ err);
     Error ((((kind +:+ " ") +:+ subject) +:+ ": ") +:+ err)] in
  match CountWordsAndSections answers with
  | Some err => failed "count" err
  | None =>
      match Marshal answers with
      | Some err => failed "marshall" err
      | None =>
          match Insert answers with
          | Some err => failed "insert" err
          | None => [Message ("Success: " +:+ subject); Result subject]
          end
      end
  end.

(** [processAgencyMetric] *)
Definition processAgencyMetric : WorkerFunc (Agency * Answers) string :=
  fun item =>
    let slug := Slug (fst item) in
    Message ("Processing: " +:+ slug) :: report "agency" slug (snd item).

(** [processSubAgencyMetric], over the heap [extractSubAgencies] left. *)
Definition processSubAgencyMetric (heap : Heap)
    : WorkerFunc (ptr * Answers) string :=
  fun item =>
    match heap !! fst item with
    | None => []
    | Some subAgency =>
        match Parent subAgency with
        | None =>
            [Error (("sub-agency " +:+ Name subAgency) +:+ " has no parent")]
        | Some parent =>
            match heap !! parent with
            | None => []
            | Some p =>
                let parentSlug := Slug p in
                let subAgencyName := Name subAgency in
                Message (((("Processing: " +:+ subAgencyName)
                             +:+ " (sub-agency of ") +:+ parentSlug) +:+ ")")
                :: report "sub-agency" subAgencyName (snd item)
            end
        end
    end.

(** Whether every call made for an item answers nil. *)
Definition succeeds (answers : Answers) : bool :=
  match CountWordsAndSections answers, Marshal answers, Insert answers with
  | None, None, None => true
  | _, _, _ => false
  end.

(** [getFilteredAgencies] once [AgencyDAO.FindAll] has returned
    [agencies]. *)
Definition getFilteredAgencies (agenciesFilter : list string)
    (agencies : list Agency) : list Agency :=
  if length agenciesFilter =? 0 then agencies
  else
    let filterMap := buildFilterMap agenciesFilter in
    fold_left
      (fun filteredAgencies agency =>
         if filterLookup filterMap (Slug agency)
         then filteredAgencies ++ [agency] else filteredAgencies)
      agencies [].

(** The runners of [ProcessAgencyMetrics] and
    [ProcessSubAgencyMetrics]. *)
Definition agencyRunner : Runner :=
  NewRunner (mkRunnerConfig 3 "Agency Metrics").
Definition subAgencyRunner : Runner :=
  NewRunner (mkRunnerConfig 3 "Sub-Agency Metrics").

End computedValueService.

(** ** server/service/ChangeTrackingService.go: [GetTopChangingTitles] *)
Module changeTracking.

(** The integer fields of [TitleChange] (the dates and the two
    percentages are carried along and not read by the code below). *)
Record TitleChange := mkTitleChange {
  TitleNumber : Z;
  WordCountChange : Z;
  SectionCountChange : Z;
  TotalWordsStart : Z;
  TotalWordsEnd : Z;
  TotalSectionsStart : Z;
  TotalSectionsEnd : Z
}.

(** Go's [int] is 64 bits wide on the platforms the server runs on;
    [wrap] is the value an arithmetic result is stored as. *)
Definition wrap (z : Z) : Z := ((z + 2 ^ 63) mod 2 ^ 64 - 2 ^ 63)%Z.

(** [abs] *)
Definition abs (n : Z) : Z :=
  if (n <? 0)%Z then wrap (- n) else n.

(** The body of the inner loop of the bubble sort:
    [if abs(s[j].WordCountChange) < abs(s[j+1].WordCountChange)
     { s[j], s[j+1] = s[j+1], s[j] }].  An index out of range
    panics in Go; the loop bounds keep [j + 1] in range. *)
Definition swapStep (sortedChanges : list TitleChange) (j : nat)
    : list TitleChange :=
  match sortedChanges !! j, sortedChanges !! (S j) with
  | Some x, Some y =>
      if (abs (WordCountChange x) <? abs (WordCountChange y))%Z
      then <[j := y]> (<[S j := x]> sortedChanges)
      else sortedChanges
  | _, _ => sortedChanges
  end.

(** [for j := 0; j < len(sortedChanges)-i-1; j++] *)
Definition innerLoop (sortedChanges : list TitleChange) (i : nat)
    : list TitleChange :=
  fold_left swapStep (seq 0 (length sortedChanges - i - 1)) sortedChanges.

(** [for i := 0; i < len(sortedChanges)-1; i++] *)
Definition bubbleSort (changes : list TitleChange) : list TitleChange :=
  fold_left innerLoop (seq 0 (length changes - 1)) changes.

(** [GetTopChangingTitles] once [GetChangeSummary] has returned
    [changes]; [None] is the panic of the slice expression
    [sortedChanges[:limit]] for a negative [limit]. *)
Definition GetTopChangingTitles (changes : list TitleChange) (limit : Z)
    : option (list TitleChange) :=
  let sortedChanges := bubbleSort changes in
  let limit :=
    if (Z.of_nat (length sortedChanges) <? limit)%Z
    then Z.of_nat (length sortedChanges) else limit in
  if (limit <? 0)%Z then None
  else Some (take (Z.to_nat limit) sortedChanges).

(** The order the sort establishes: decreasing [abs(WordCountChange)]. *)
Definition byChange (x y : TitleChange) : Prop :=
  (abs (WordCountChange y) <= abs (WordCountChange x))%Z.

End changeTracking.

(** ** server/parser/cfr_parser.go: [GetDivTypeForLevel] *)
Module divTypes.
(** The [DivType] constants of package [data]. *)
Definition DivTypeTitle : string := "TITLE".
Definition DivTypeSubtitle : string := "SUBTITLE".
Definition DivTypeChapter : string := "CHAPTER".
Definition DivTypeSubchap : string := "SUBCHAP".
Definition DivTypePart : string := "PART".
Definition DivTypeSubpart : string := "SUBPART".
Definition DivTypeSubjgrp : string := "SUBJGRP".
Definition DivTypeSection : string := "SECTION".
Definition DivTypeAppendix : string := "APPENDIX".

(** [GetDivTypeForLevel] *)
Definition GetDivTypeForLevel (level : Z) : string :=
  match level with
  | 1 => DivTypeTitle
  | 2 => DivTypeSubtitle
  | 3 => DivTypeChapter
  | 4 => DivTypeSubchap
  | 5 => DivTypePart
  | 6 => DivTypeSubpart
  | 7 => DivTypeSubjgrp
  | 8 => DivTypeSection
  | 9 => DivTypeAppendix
  | _ => ""
  end%Z.
End divTypes.

(** ** server/service/ChangeTrackingService.go: [parseVersionMetrics]
    and [computeTitleChange] *)
Module changeMetrics.
Import xml data parser divTypes.

(** A record with the title fields replaced: what a parser for another
    title gives for the same element. *)
Definition withTitle (p : CfrParser) (s : CfrStructure) : CfrStructure :=
  {| InternalId := InternalId s; Id := Id s;
     TitleId := titleId p; TitleNumber := titleNumber p;
     DivType := DivType s; DivLevel := DivLevel s;
     Identifier := Identifier s; NodeId := NodeId s;
     Heading := Heading s; TextContent := TextContent s;
     WordCount := WordCount s; ParentId := ParentId s;
     Path := Path s |}.

Definition withTitleResult (p : CfrParser) (r : ParseResult + parser.error)
    : ParseResult + parser.error :=
  match r with
  | inl result =>
      inl (mkParseResult (withTitle p <$> Structures result)
                         (TotalWords result))
  | inr e => inr e
  end.

(** The same for the state of the loops of the parser. *)
Definition withTitleBody (p : CfrParser) (body : divBody) : divBody :=
  mkDivBody (heading body) (textContent body)
            (withTitle p <$> childStructures body).

Definition withTitleElement (p : CfrParser)
    (x : Decoder * (list CfrStructure * Z))
    : Decoder * (list CfrStructure * Z) :=
  (fst x, (withTitle p <$> fst (snd x), snd (snd x))).

Definition withTitleLoop (p : CfrParser) (x : Decoder * divBody)
    : Decoder * divBody :=
  (fst x, withTitleBody p (snd x)).

Record VersionMetrics := mkVersionMetrics {
  TotalWords : Z;
  TotalSections : Z
}.

(** The fields of [data.TitleVersionWithContent] the service reads. *)
Record TitleVersionWithContent := mkTitleVersionWithContent {
  TitleId : Z;
  Content : string
}.

(** The errors of the service: [fmt.Errorf] with the verb [%w] around
    an error of the DAO or of the parser, or around a nil error. *)
Inductive error :=
| nilError
| daoError (message : string)
| parserError (e : parser.error)
| Errorf (format : string) (cause : error).

Section WithLib.
Context {lib : GoLib}.

(** "Count sections": the records whose [DivType] is
    [data.DivTypeSection]. *)
Definition countSections (structures : list CfrStructure) : Z :=
  fold_left
    (fun sectionCount structure =>
       if String.eqb (DivType structure) DivTypeSection
       then (sectionCount + 1)%Z else sectionCount)
    structures 0%Z.

(** [parseVersionMetrics] *)
Definition parseVersionMetrics (titleId titleNumber : Z) (content : string)
    : option (VersionMetrics + error) :=
  let cfrParser := NewCfrParser titleId titleNumber in
  match Parse cfrParser content with
  | None => None
  | Some (inr err) =>
      Some (inr (Errorf "failed to parse version: %w"
                        (parserError err)))
  | Some (inl parseResult) =>
      Some (inl (mkVersionMetrics (parser.TotalWords parseResult)
                                  (countSections (Structures parseResult))))
  end.

(** [computeTitleChange]; [getContentByVersion] is what
    [TitleVersionDAO.GetContentByVersion] answers: a version, nil
    (no row for the date), or an error.  The two percentages are
    left out. *)
Definition computeTitleChange {Time : Type}
    (getContentByVersion :
       Z -> Time -> option TitleVersionWithContent + string)
    (titleNumber : Z) (startDate endDate : Time)
    : option (changeTracking.TitleChange + error) :=
  match getContentByVersion titleNumber startDate with
  | inr err =>
      Some (inr (Errorf "failed to get start version: %w"
                        (daoError err)))
  | inl None => Some (inr (Errorf "failed to get start version: %w" nilError))
  | inl (Some startVersion) =>
  match getContentByVersion titleNumber endDate with
  | inr err =>
      Some (inr (Errorf "failed to get end version: %w"
                        (daoError err)))
  | inl None => Some (inr (Errorf "failed to get end version: %w" nilError))
  | inl (Some endVersion) =>
  match parseVersionMetrics (TitleId startVersion) titleNumber
                            (Content startVersion) with
  | None => None
  | Some (inr err) =>
      Some (inr (Errorf "failed to parse start version: %w" err))
  | Some (inl startMetrics) =>
  match parseVersionMetrics (TitleId endVersion) titleNumber
                            (Content endVersion) with
  | None => None
  | Some (inr err) =>
      Some (inr (Errorf "failed to parse end version: %w" err))
  | Some (inl endMetrics) =>
      let wordChange :=
        (TotalWords endMetrics - TotalWords startMetrics)%Z in
      let sectionChange :=
        (TotalSections endMetrics - TotalSections startMetrics)%Z in
      Some (inl (changeTracking.mkTitleChange
                   titleNumber wordChange sectionChange
                   (TotalWords startMetrics) (TotalWords endMetrics)
                   (TotalSections startMetrics)
                   (TotalSections endMetrics)))
  end end end end.

End WithLib.
End changeMetrics.

(** ** The historical import ([TitleVersionService]) *)
Module titleVersionService.
Import concurrent fmt cfrStructureService.

(** The fields of [ecfrdata.AllFilesItem] and of
    [ecfrdata.TitleFileItem] the service reads ([FileLink] is the
    field [Link] of the second). *)
Record AllFilesItem := mkAllFilesItem {
  CFRTitle : Z;
  Link : string
}.

Record TitleFileItem := mkTitleFileItem {
  FileExtension : string;
  FileLink : string
}.

(** The filter loop of [getAllFilesForDate], over the files of the
    decoded response. *)
Definition getAllFilesForDate (files : list AllFilesItem)
    (titlesFilter : list string) : list AllFilesItem :=
  let filterMap := buildFilterMap titlesFilter in
  let hasFilter := 0 <? length titlesFilter in
  fold_left
    (fun finalFiles file =>
       if (0 <? CFRTitle file)%Z
          && (negb hasFilter
              || filterLookup filterMap (Sprintf_d (CFRTitle file)))
       then finalFiles ++ [file] else finalFiles)
    files [].

(** What the HTTP client and the JSON decoder give [getTitleFile]. *)
Inductive TitleFilesAnswer :=
| GetJSONFails (err : string)
| DecodeFails (err : string)
| TitleFilesResponse (files : list TitleFileItem).

(** "Find the XML file" *)
Fixpoint findXML (files : list TitleFileItem) : option TitleFileItem :=
  match files with
  | [] => None
  | titleFile :: rest =>
      if String.eqb (FileExtension titleFile) "xml" then Some titleFile
      else findXML rest
  end.

(** [getTitleFile]; errors by their message. *)
Definition getTitleFile (url : string) (answer : TitleFilesAnswer)
    : TitleFileItem + string :=
  match answer with
  | GetJSONFails err =>
      inr ((("failed to fetch files for title at " +:+ url) +:+ ": ") +:+ err)
  | DecodeFails err =>
      inr ("failed to unmarshal title files response: " +:+ err)
  | TitleFilesResponse files =>
      match findXML files with
      | Some titleFile => inl titleFile
      | None => inr "no XML file found for title"
      end
  end.

(** What the calls made for one file answer. *)
Record Answers := mkAnswers {
  FindByNumber : option string;
  TitleFiles : TitleFilesAnswer;
  GetXML : option string;
  ReadAll : option string;
  Insert : option string
}.

(** [downloadTitleVersion] *)
Definition downloadTitleVersion (url : string) (answers : Answers)
    : option string :=
  match GetXML answers with
  | Some err =>
      Some ((("failed to fetch title XML from " +:+ url) +:+ ": ") +:+ err)
  | None =>
      match ReadAll answers with
      | Some err => Some ("failed to read title content: " +:+ err)
      | None =>
          match Insert answers with
          | Some err => Some ("failed to insert title version: " +:+ err)
          | None => None
          end
      end
  end.

(** [processTitleVersionFile] *)
Definition processTitleVersionFile
    : WorkerFunc (AllFilesItem * Answers) Z :=
  fun item =>
    let file := fst item in
    let answers := snd item in
    let titleNumber := CFRTitle file in
    let n := Sprintf_d titleNumber in
    let failed (what err : string) : list (Send Z) :=
      [Message ((((what +:+ n) +:+ ": ") +:+ err));
       Error ((("title " +:+ n) +:+ ": ") +:+ err)] in
    Message ("Fetching: Title " +:+ n) ::
    match FindByNumber answers with
    | Some err => failed "failed to find title " err
    | None =>
        match getTitleFile (Link file) (TitleFiles answers) with
        | inr err => failed "failed to get title file for " err
        | inl titleFile =>
            Message ("Downloading: Title " +:+ n) ::
            match downloadTitleVersion (FileLink titleFile) answers with
            | Some err => failed "failed to download title " err
            | None =>
                [Message ("Success: Title " +:+ n); Result titleNumber]
            end
        end
    end.

(** Whether a file is imported. *)
Definition imported (item : AllFilesItem * Answers) : bool :=
  match FindByNumber (snd item),
        getTitleFile (Link (fst item)) (TitleFiles (snd item)) with
  | None, inl titleFile =>
      match downloadTitleVersion (FileLink titleFile) (snd item) with
      | None => true
      | Some _ => false
      end
  | _, _ => false
  end.

(** The runner of [ImportHistoricalTitles]; [date] is the version date
    in the layout 2006-01-02. *)
Definition runner (date : string) : Runner :=
  NewRunner (mkRunnerConfig 5 (("Historical Import (" +:+ date) +:+ ")")).

End titleVersionService.

(** ** Schedules and inputs for the examples of the services *)
Module schedules.
Import concurrent.

(** The collector a send is a rendezvous with. *)
Definition collectorOf {R} (a : Send R) : Thread :=
  match a with
  | Message _ => MessagesThread
  | Result _ => ResultsThread
  | Error _ => ErrorsThread
  end.

(** The item loop dispatches item [i]; its goroutine runs to its end,
    each send followed by the step of its collector. *)
Definition itemSchedule {R} (i : nat) (script : list (Send R))
    : list Thread :=
  [MainThread; MainThread; MainThread]
  ++ (script ≫= fun a => [WorkerThread i; collectorOf a])
  ++ [WorkerThread i; WorkerThread i; WorkerThread i].

(** The run in which the items are processed one after the other. *)
Definition sequentialSchedule {R} (scripts : list (list (Send R)))
    : list Thread :=
  [MainThread] ++ mjoin (imap itemSchedule scripts)
  ++ [MainThread; MainThread; MainThread; MainThread; MainThread;
      MessagesThread; ResultsThread; ErrorsThread; MainThread].
End schedules.

Module serviceSamples.
Import data cfrStructureService.

Definition nested : string :=
  "<DIV1 N='1'><HEAD>Title one</HEAD><DIV2 N='A'>foo bar</DIV2></DIV1>".
Definition truncated : string := "<DIV1 N='1'><DIV2 N='A'>foo bar".

(** A DAO that serves a document and stores without error. *)
Definition serving (content : string) : Dao :=
  mkDao (fun _ => inl content) (fun _ => None) (fun _ => None).

Definition title40 : Title := mkTitle 7 40.
Definition title41 : Title := mkTitle 8 41.

(** A rendering of the errors of [processTitle]. *)
Fixpoint errorText (e : error) : string :=
  match e with
  | daoError message => message
  | parserError _ => "error parsing XML"
  | Errorf format cause => (format +:+ " <- ") +:+ errorText cause
  end.

Definition titleItems : list (Title * Dao) :=
  [(title40, serving nested); (title41, serving truncated)].

(** Two records with the same path and a record below that path. *)
Definition record (path : string) : CfrStructure :=
  mkCfrStructure 0 "" 7 40 "" 1 "" None None None 0 None path.
Definition twins : list CfrStructure :=
  [record "1"; record "1"; record "1/A"].
End serviceSamples.

Module agencySamples.
Import computedValueService.
(** Two agencies that list the same child. *)
Definition heap : Heap :=
  [mkAgency "Agriculture" "agriculture" [2] None;
   mkAgency "Commerce" "commerce" [2; 3] None;
   mkAgency "Forest Service" "forest-service" [] None;
   mkAgency "Census" "census" [] None].
Definition calm : Answers := mkAnswers None None None.
Definition failing : Answers := mkAnswers None None (Some "no connection").
Definition agencyItems : list (Agency * Answers) :=
  [(mkAgency "Agriculture" "agriculture" [] None, calm);
   (mkAgency "Commerce" "commerce" [] None, failing)].
End agencySamples.

Module importSamples.
Import titleVersionService.
Definition listing : TitleFilesAnswer :=
  TitleFilesResponse [mkTitleFileItem "json" "a.json";
                      mkTitleFileItem "xml" "a.xml"].
Definition noXML : TitleFilesAnswer :=
  TitleFilesResponse [mkTitleFileItem "json" "a.json"].
Definition fileItems : list (AllFilesItem * Answers) :=
  [(mkAllFilesItem 1 "t1", mkAnswers None listing None None None);
   (mkAllFilesItem 2 "t2", mkAnswers None noXML None None None)].
End importSamples.

(** * Proofs *)

Section DecoderFacts.
Import xml.

Lemma Token_ok_pending d t d' :
  Decoder_Token d = (inl t, d') ->
  length (pending d) = S (length (pending d')) /\ trailer d' = trailer d.
Proof.
  unfold Decoder_Token. intros H.
  destruct (err d); [discriminate|].
  destruct (pending d) as [|t0 rest]; [discriminate|].
  destruct t0; try (injection H as <- <-; simpl; auto).
  destruct (closeError _ _); [discriminate|].
  injection H as <- <-. simpl. auto.
Qed.

Lemma Token_err_pending d e d' :
  Decoder_Token d = (inr e, d') ->
  length (pending d') <= length (pending d) /\
  Decoder_Token d' = (inr e, d').
Proof.
  unfold Decoder_Token. intros H.
  destruct (err d) as [e0|] eqn:He.
  - injection H as <- <-. rewrite He. auto.
  - destruct (pending d) as [|t0 rest] eqn:Hp.
    + injection H as <- <-. simpl. split; [lia|].
      unfold unexpectedEOF. simpl.
      destruct (trailer d), (stk d); reflexivity.
    + destruct t0; try discriminate.
      destruct (closeError _ _) as [e1|] eqn:Hc; [|discriminate].
      injection H as <- <-. simpl. split; [lia|].
      unfold closeError in Hc.
      destruct (head (stk d)).
      * destruct (negb _).
        { injection Hc as <-. reflexivity. }
        destruct (negb _); [|discriminate].
        injection Hc as <-. reflexivity.
      * injection Hc as <-. reflexivity.
Qed.

Lemma Token_pending_le d x d' :
  Decoder_Token d = (x, d') -> length (pending d') <= length (pending d).
Proof.
  destruct x as [t|e]; intros H.
  - apply Token_ok_pending in H. lia.
  - apply Token_err_pending in H. lia.
Qed.

Lemma reads_pending_le d d' :
  reads d d' -> length (pending d') <= length (pending d).
Proof.
  induction 1 as [|d1 d2 d3 [x Hx] _ IH]; [lia|].
  apply Token_pending_le in Hx. lia.
Qed.

Lemma reads_Token d x d' : Decoder_Token d = (x, d') -> reads d d'.
Proof. intros H. apply rtc_once. eauto. Qed.

Lemma reads_Token_l d x d' d'' :
  Decoder_Token d = (x, d') -> reads d' d'' -> reads d d''.
Proof. intros H. apply rtc_l. eauto. Qed.

(** Draining does not depend on the fuel once it exceeds the pending tokens *)
Lemma drain_enough fuel d :
  length (pending d) < fuel -> drain fuel d = finalError d.
Proof.
  unfold finalError.
  revert d. induction fuel as [|fuel IH]; intros d Hlt; [lia|].
  simpl. destruct (Decoder_Token d) as [[t|e] d'] eqn:Ht; [|reflexivity].
  pose proof (Token_ok_pending _ _ _ Ht) as [Hlen _].
  rewrite Hlen. apply IH. lia.
Qed.

Lemma finalError_Token_ok d t d' :
  Decoder_Token d = (inl t, d') -> finalError d' = finalError d.
Proof.
  intros Ht. pose proof (Token_ok_pending _ _ _ Ht) as [Hlen _].
  unfold finalError at 2. rewrite Hlen. simpl. rewrite Ht.
  apply drain_enough. lia.
Qed.

Lemma finalError_Token_err d e d' :
  Decoder_Token d = (inr e, d') ->
  finalError d = Some e /\ finalError d' = Some e.
Proof.
  intros Ht. pose proof (Token_err_pending _ _ _ Ht) as [_ Ht'].
  unfold finalError. simpl. rewrite Ht, Ht'. auto.
Qed.

Lemma finalError_reads d d' : reads d d' -> finalError d' = finalError d.
Proof.
  induction 1 as [|d1 d2 d3 [x Hx] _ IH]; [reflexivity|].
  rewrite IH. destruct x as [t|e].
  - eapply finalError_Token_ok; eauto.
  - apply finalError_Token_err in Hx as [-> ->]. reflexivity.
Qed.

Lemma finalError_some d : exists e, finalError d = Some e.
Proof.
  unfold finalError. remember (S (length (pending d))) as fuel.
  assert (Hlt : length (pending d) < fuel) by lia. clear Heqfuel.
  revert d Hlt. induction fuel as [|fuel IH]; intros d Hlt; [lia|].
  simpl. destruct (Decoder_Token d) as [[t|e] d'] eqn:Ht; [|eauto].
  apply Token_ok_pending in Ht as [Hlen _]. apply IH. lia.
Qed.

Lemma Token_ok_head d t d' :
  Decoder_Token d = (inl t, d') -> pending d = t :: pending d'.
Proof.
  unfold Decoder_Token. intros H.
  destruct (err d); [discriminate|].
  destruct (pending d) as [|t0 rest]; [discriminate|].
  destruct t0; try (injection H as <- <-; reflexivity).
  destruct (closeError _ _); [discriminate|].
  injection H as <- <-. reflexivity.
Qed.
End DecoderFacts.

Section StringFacts.
Lemma string_app_cons (x : ascii) (a b : string) :
  String x a +:+ b = String x (a +:+ b).
Proof. reflexivity. Qed.

Lemma string_app_assoc (a b c : string) : (a +:+ b) +:+ c = a +:+ (b +:+ c).
Proof.
  induction a as [|x a IH]; [reflexivity|].
  rewrite !string_app_cons. by rewrite IH.
Qed.

Lemma string_app_nil_r (a : string) : a +:+ "" = a.
Proof.
  induction a as [|x a IH]; [reflexivity|].
  rewrite string_app_cons. by rewrite IH.
Qed.

Lemma string_app_length (a b : string) :
  String.length (a +:+ b) = String.length a + String.length b.
Proof.
  induction a as [|x a IH]; [reflexivity|].
  rewrite string_app_cons. simpl. by rewrite IH.
Qed.

Lemma string_app_empty (a b : string) : a +:+ b = "" -> a = "" /\ b = "".
Proof. destruct a; [auto|discriminate]. Qed.
End StringFacts.

Section ParserFacts.
Context {lib : GoLib}.
Import xml data parser.

(** Case analysis on the token a loop iteration reads. *)
Ltac read_token d :=
  let Ht := fresh "Ht" in
  let tok := fresh "tok" in
  let e := fresh "e" in
  let d' := fresh "d'" in
  destruct (Decoder_Token d) as [[tok|e] d'] eqn:Ht;
  [pose proof (reads_Token _ _ _ Ht); destruct tok|
   pose proof (reads_Token _ _ _ Ht)].

Lemma extractTextContent_reads fuel : forall d name tc d' tc',
  extractTextContent fuel d name tc = Some (d', tc') -> reads d d'.
Proof.
  induction fuel as [|fuel IH]; intros d name tc d1 tc1 H; [discriminate|].
  simpl in H. read_token d.
  - destruct (extractTextContent fuel d' _ tc) as [[d2 tc2]|] eqn:H2;
      [|discriminate].
    apply IH in H2. apply IH in H. do 2 (etrans; eauto).
  - destruct (String.eqb _ _).
    + injection H as <- <-. done.
    + apply IH in H. etrans; eauto.
  - apply IH in H. etrans; eauto.
  - apply IH in H. etrans; eauto.
  - apply IH in H. etrans; eauto.
  - apply IH in H. etrans; eauto.
  - injection H as <- <-. done.
Qed.

Lemma readHead_reads fuel : forall d text d' text',
  readHead fuel d text = Some (d', text') -> reads d d'.
Proof.
  induction fuel as [|fuel IH]; intros d tc d1 tc1 H; [discriminate|].
  simpl in H. read_token d;
    try (apply IH in H; etrans; eauto; fail).
  - destruct (String.eqb _ _).
    + injection H as <- <-. done.
    + apply IH in H. etrans; eauto.
  - injection H as <- <-. done.
Qed.

Lemma parseDiv_reads p fuel :
  (forall d name attr lvl pid pp d' r,
      parseDivElement fuel p d name attr lvl pid pp = Some (d', r) ->
      reads d d') /\
  (forall d sl path body d' body',
      parseDivLoop fuel p d sl path body = Some (d', body') ->
      reads d d').
Proof.
  induction fuel as [|fuel [IHe IHl]]; (split; [intros d name attr lvl pid pp d1 r H|intros d sl path body d1 body1 H]); try discriminate.
  - simpl in H.
    destruct (parseDivLoop fuel p d _ _ _) as [[d2 body2]|] eqn:H2;
      [|discriminate].
    injection H as <- <-. eauto.
  - simpl in H. read_token d;
      try (apply IHl in H; etrans; eauto; fail).
    + destruct (String.eqb (Local name) "HEAD").
      { destruct (readHead fuel d' "") as [[d2 ht]|] eqn:H2; [|discriminate].
        apply readHead_reads in H2. apply IHl in H.
        do 2 (etrans; eauto). }
      destruct (isDivElement _).
      { destruct (parseDivElement fuel p d' _ _ _ _ _)
          as [[d2 [cd w]]|] eqn:H2; [|discriminate].
        apply IHe in H2. apply IHl in H. do 2 (etrans; eauto). }
      destruct (extractTextContent fuel d' _ _) as [[d2 tc2]|] eqn:H2;
        [|discriminate].
      apply extractTextContent_reads in H2. apply IHl in H.
      do 2 (etrans; eauto).
    + destruct (String.eqb _ _).
      * injection H as <- <-. done.
      * apply IHl in H. etrans; eauto.
    + injection H as <- <-. done.
Qed.

Lemma extractTextContent_returns fuel : forall d name tc,
  length (pending d) < fuel ->
  exists d' tc', extractTextContent fuel d name tc = Some (d', tc').
Proof.
  induction fuel as [|fuel IH]; intros d name tc Hlt; [lia|].
  simpl. destruct (Decoder_Token d) as [[tok|e] d'] eqn:Ht; [|eauto].
  apply Token_ok_pending in Ht as [Hlen _].
  destruct tok; try (apply IH; lia).
  - destruct (IH d' (Local name0) tc) as (d2 & tc2 & H2); [lia|].
    rewrite H2. apply extractTextContent_reads, reads_pending_le in H2.
    apply IH. lia.
  - destruct (String.eqb _ _); [eauto|]. apply IH. lia.
Qed.

Lemma readHead_returns fuel : forall d text,
  length (pending d) < fuel ->
  exists d' text', readHead fuel d text = Some (d', text').
Proof.
  induction fuel as [|fuel IH]; intros d tc Hlt; [lia|].
  simpl. destruct (Decoder_Token d) as [[tok|e] d'] eqn:Ht; [|eauto].
  apply Token_ok_pending in Ht as [Hlen _].
  destruct tok; try (apply IH; lia).
  destruct (String.eqb _ _); [eauto|]. apply IH. lia.
Qed.

Lemma parseDiv_returns p fuel :
  (forall d name attr lvl pid pp,
      2 * length (pending d) + 2 <= fuel ->
      exists d' r, parseDivElement fuel p d name attr lvl pid pp = Some (d', r)) /\
  (forall d sl path body,
      2 * length (pending d) + 1 <= fuel ->
      exists d' body', parseDivLoop fuel p d sl path body = Some (d', body')).
Proof.
  induction fuel as [|fuel [IHe IHl]];
    (split; [intros d name attr lvl pid pp Hle|intros d sl path body Hle]);
    try lia.
  - simpl. destruct (IHl d (Local name) (buildPath pp (identifier (scanAttrs attr)))
                         (mkDivBody None "" [])) as (d2 & b2 & H2); [lia|].
    rewrite H2. eauto.
  - simpl. destruct (Decoder_Token d) as [[tok|e] d'] eqn:Ht; [|eauto].
    apply Token_ok_pending in Ht as [Hlen _].
    destruct tok; try (apply IHl; lia).
    + destruct (String.eqb (Local name) "HEAD").
      { destruct (readHead_returns fuel d' "") as (d2 & ht & H2); [lia|].
        rewrite H2. apply readHead_reads, reads_pending_le in H2.
        apply IHl. lia. }
      destruct (isDivElement _).
      { destruct (IHe d' name attr (divLevelOf (Local name)) None path)
          as (d2 & [cd w] & H2); [lia|].
        rewrite H2. apply (proj1 (parseDiv_reads p fuel)), reads_pending_le in H2.
        apply IHl. lia. }
      destruct (extractTextContent_returns fuel d' (Local name) (textContent body))
        as (d2 & tc2 & H2); [lia|].
      rewrite H2. apply extractTextContent_reads, reads_pending_le in H2.
      apply IHl. lia.
    + destruct (String.eqb _ _); [eauto|]. apply IHl. lia.
Qed.

Lemma parseLoop_returns p fuel : forall d structures total,
  2 * length (pending d) + 1 <= fuel ->
  exists r, parseLoop fuel p d structures total = Some r.
Proof.
  induction fuel as [|fuel IH]; intros d structures total Hle; [lia|].
  simpl. destruct (Decoder_Token d) as [[tok|e] d'] eqn:Ht.
  - apply Token_ok_pending in Ht as [Hlen _].
    destruct tok; try (apply IH; lia).
    destruct (isDivElement _); [|apply IH; lia].
    destruct (proj1 (parseDiv_returns p fuel) d' name attr
                    (divLevelOf (Local name)) None "")
      as (d2 & [ds w] & H2); [lia|].
    rewrite H2. apply (proj1 (parseDiv_reads p fuel)), reads_pending_le in H2.
    apply IH. lia.
  - destruct e; eauto.
Qed.

Lemma Parse_returns p text : exists r, Parse p text = Some r.
Proof. apply parseLoop_returns. unfold enoughFuel. lia. Qed.

(** Word counts *)
Lemma sumWordCount_from (l : list CfrStructure) (z : Z) :
  fold_left (fun acc child => acc + WordCount child)%Z l z
  = (z + sumWordCount l)%Z.
Proof.
  unfold sumWordCount. revert z.
  induction l as [|x l IH]; intros z; simpl; [lia|].
  rewrite IH, (IH (0 + WordCount x)%Z). lia.
Qed.

Lemma sumWordCount_cons x l :
  sumWordCount (x :: l) = (WordCount x + sumWordCount l)%Z.
Proof. unfold sumWordCount at 1. simpl. apply sumWordCount_from. Qed.

Lemma sumWordCount_app l1 l2 :
  sumWordCount (l1 ++ l2) = (sumWordCount l1 + sumWordCount l2)%Z.
Proof.
  induction l1 as [|x l1 IH]; simpl.
  - unfold sumWordCount at 2. simpl. lia.
  - rewrite !sumWordCount_cons, IH. lia.
Qed.

Lemma append_each {A} (l acc : list A) :
  fold_left (fun acc child => acc ++ [child]) l acc = acc ++ l.
Proof.
  revert acc. induction l as [|x l IH]; intros acc; simpl.
  - by rewrite app_nil_r.
  - rewrite IH, <- app_assoc. reflexivity.
Qed.

Lemma buildStructures_eq p attrs lvl pid path body :
  buildStructures p attrs lvl pid path body
  = (newStructure p attrs lvl pid path (heading body) (textContent body)
       :: childStructures body,
     (WordCount (newStructure p attrs lvl pid path (heading body)
                              (textContent body))
      + sumWordCount (childStructures body))%Z).
Proof.
  unfold buildStructures. rewrite append_each, sumWordCount_from.
  reflexivity.
Qed.

Lemma parseDivElement_words p fuel d name attr lvl pid pp d' structures total :
  parseDivElement fuel p d name attr lvl pid pp = Some (d', (structures, total)) ->
  exists root descendants,
    structures = root :: descendants /\
    total = (WordCount root + sumWordCount descendants)%Z /\
    total = sumWordCount structures.
Proof.
  destruct fuel as [|fuel]; [discriminate|]. simpl.
  destruct (parseDivLoop _ _ _ _ _ _) as [[d2 body]|]; [|discriminate].
  rewrite buildStructures_eq. intros H. injection H as _ <- <-.
  eexists _, _. split; [reflexivity|]. split; [reflexivity|].
  by rewrite sumWordCount_cons.
Qed.

Lemma parseLoop_words p fuel : forall d structures total res,
  parseLoop fuel p d structures total = Some (inl res) ->
  total = sumWordCount structures ->
  TotalWords res = sumWordCount (Structures res).
Proof.
  induction fuel as [|fuel IH]; intros d structures total res H Hinv;
    [discriminate|].
  simpl in H. destruct (Decoder_Token d) as [[tok|e] d'] eqn:Ht.
  - destruct tok; try (eapply IH; eauto; fail).
    destruct (isDivElement _); [|eapply IH; eauto].
    destruct (parseDivElement fuel p d' _ _ _ _ _) as [[d2 [ds w]]|] eqn:H2;
      [|discriminate].
    apply parseDivElement_words in H2 as (root & desc & _ & _ & ->).
    eapply IH; eauto. rewrite sumWordCount_app. lia.
  - destruct e; [|discriminate]. injection H as <-. done.
Qed.
End ParserFacts.

Section ParserFacts2.
Context {lib : GoLib}.
Import xml data parser.

Lemma parseLoop_malformed p fuel : forall d structures total r,
  parseLoop fuel p d structures total = Some r ->
  malformed d ->
  exists msg, r = inr (Errorf "error parsing XML: %w" (SyntaxError msg)).
Proof.
  unfold malformed.
  induction fuel as [|fuel IH]; intros d structures total r H [msg Hm];
    [discriminate|].
  simpl in H. destruct (Decoder_Token d) as [[tok|e] d'] eqn:Ht.
  - pose proof (finalError_Token_ok _ _ _ Ht) as Hf.
    destruct tok;
      try (eapply IH; [exact H|]; exists msg; congruence).
    destruct (isDivElement _);
      [|eapply IH; [exact H|]; exists msg; congruence].
    destruct (parseDivElement fuel p d' _ _ _ _ _) as [[d2 [ds w]]|] eqn:H2;
      [|discriminate].
    apply (proj1 (parseDiv_reads p fuel)), finalError_reads in H2.
    eapply IH; [exact H|]. exists msg. congruence.
  - apply finalError_Token_err in Ht as [Hf _].
    rewrite Hf in Hm. injection Hm as ->.
    injection H as <-. eauto.
Qed.

(** Erasure *)
Lemma fold_words_erase (l : list annotated) (z : Z) :
  fold_left (fun acc child => acc + WordCount child)%Z (map snd l) z
  = fold_left (fun acc child => acc + WordCount (snd child))%Z l z.
Proof. revert z. induction l as [|x l IH]; intros z; simpl; [reflexivity|]. apply IH. Qed.

Lemma buildStructuresA_erase p attrs lvl pid path anc body :
  buildStructures p attrs lvl pid path (eraseBody body)
  = (map snd (fst (buildStructuresA p attrs lvl pid path anc body)),
     snd (buildStructuresA p attrs lvl pid path anc body)).
Proof.
  unfold buildStructures, buildStructuresA, eraseBody. simpl.
  rewrite !append_each. simpl. f_equal. apply fold_words_erase.
Qed.

Lemma parseDivA_erase p fuel :
  (forall d name attr lvl pid pp anc,
      parseDivElement fuel p d name attr lvl pid pp
      = eraseElement <$> parseDivElementA fuel p d name attr lvl pid pp anc) /\
  (forall d sl path chain body,
      parseDivLoop fuel p d sl path (eraseBody body)
      = eraseLoop <$> parseDivLoopA fuel p d sl path chain body).
Proof.
  induction fuel as [|fuel [IHe IHl]];
    (split; [intros d name attr lvl pid pp anc|intros d sl path chain body]);
    try reflexivity.
  - simpl.
    change (mkDivBody None "" []) with (eraseBody (mkDivBodyA None "" [])).
    rewrite (IHl _ _ _ (anc ++ [identifier (scanAttrs attr)])).
    destruct (parseDivLoopA fuel p d _ _ _ _) as [[d2 b2]|]; simpl;
      [|reflexivity].
    rewrite (buildStructuresA_erase _ _ _ _ _ anc). reflexivity.
  - simpl. destruct (Decoder_Token d) as [[tok|e] d'] eqn:Ht;
      [|reflexivity].
    destruct tok; try apply IHl.
    + destruct (String.eqb (Local name) "HEAD").
      { destruct (readHead fuel d' "") as [[d2 ht]|]; [|reflexivity].
        apply (IHl d2 sl path chain
                   (mkDivBodyA (Some (TrimSpace ht)) (textContentA body)
                               (childStructuresA body))). }
      destruct (isDivElement _).
      { rewrite (IHe _ _ _ _ _ _ chain).
        destruct (parseDivElementA fuel p d' _ _ _ _ _ _)
          as [[d2 [cd w]]|]; simpl; [|reflexivity].
        rewrite <- (IHl d2 sl path chain). unfold eraseBody. simpl.
        by rewrite map_app. }
      simpl.
      destruct (extractTextContent fuel d' _ _) as [[d2 tc2]|]; [|reflexivity].
      apply (IHl d2 sl path chain
                 (mkDivBodyA (headingA body) tc2 (childStructuresA body))).
    + destruct (String.eqb _ _); [reflexivity|]. apply IHl.
    + apply (IHl d' sl path chain
                 (mkDivBodyA (headingA body)
                             (writeText (textContentA body) data)
                             (childStructuresA body))).
Qed.

Lemma parseLoopA_erase p fuel : forall d structures total,
  parseLoop fuel p d (map snd structures) total
  = eraseResult <$> parseLoopA fuel p d structures total.
Proof.
  induction fuel as [|fuel IH]; intros d structures total; [reflexivity|].
  simpl. destruct (Decoder_Token d) as [[tok|e] d'] eqn:Ht.
  - destruct tok; try apply IH.
    destruct (isDivElement _); [|apply IH].
    rewrite (proj1 (parseDivA_erase p fuel) _ _ _ _ _ _ []).
    destruct (parseDivElementA fuel p d' _ _ _ _ _ _) as [[d2 [ds w]]|];
      simpl; [|reflexivity].
    rewrite <- IH. by rewrite map_app.
  - destruct e; reflexivity.
Qed.

Lemma ParseA_erase p text :
  Parse p text = eraseResult <$> ParseA p text.
Proof. apply (parseLoopA_erase p _ _ []). Qed.

(** Invariants of the annotated parser *)
Lemma parseDivA_inv (Q : annotated -> Prop)
    (Link : string -> list string -> Prop) p :
  (forall pp anc attrs lvl h tc,
      Link pp anc ->
      Q (anc, newStructure p attrs lvl None
                           (buildPath pp (identifier attrs)) h tc) /\
      Link (buildPath pp (identifier attrs)) (anc ++ [identifier attrs])) ->
  forall fuel,
    (forall d name attr lvl pp anc d' l w,
        parseDivElementA fuel p d name attr lvl None pp anc = Some (d', (l, w)) ->
        Link pp anc -> Forall Q l) /\
    (forall d sl path chain body d' body',
        parseDivLoopA fuel p d sl path chain body = Some (d', body') ->
        Link path chain ->
        Forall Q (childStructuresA body) ->
        Forall Q (childStructuresA body')).
Proof.
  intros Hnew.
  induction fuel as [|fuel [IHe IHl]];
    (split; [intros d name attr lvl pp anc d1 l w H HL
            |intros d sl path chain body d1 body1 H HL HQ]);
    try discriminate.
  - simpl in H.
    destruct (parseDivLoopA fuel p d _ _ _ _) as [[d2 b2]|] eqn:H2;
      [|discriminate].
    injection H as _ <- _.
    destruct (Hnew pp anc (scanAttrs attr) lvl (headingA b2)
                   (textContentA b2) HL) as [HQ HL'].
    rewrite append_each. constructor; [exact HQ|].
    eapply IHl; [exact H2|exact HL'|constructor].
  - simpl in H. destruct (Decoder_Token d) as [[tok|e] d'] eqn:Ht.
    + destruct tok; try (eapply IHl; eauto; fail).
      * destruct (String.eqb (Local name) "HEAD").
        { destruct (readHead fuel d' "") as [[d2 ht]|]; [|discriminate].
          eapply IHl; eauto. }
        destruct (isDivElement _).
        { destruct (parseDivElementA fuel p d' _ _ _ _ _ _)
            as [[d2 [cd w]]|] eqn:H2; [|discriminate].
          eapply IHl; [exact H|exact HL|]. simpl.
          apply Forall_app. split; [exact HQ|]. eapply IHe; eauto. }
        destruct (extractTextContent fuel d' _ _) as [[d2 tc2]|];
          [|discriminate].
        eapply IHl; eauto.
      * destruct (String.eqb _ _).
        { injection H as _ <-. exact HQ. }
        eapply IHl; eauto.
    + injection H as _ <-. exact HQ.
Qed.

Lemma parseLoopA_inv (Q : annotated -> Prop) p :
  (forall fuel d name attr lvl d' l w,
      parseDivElementA fuel p d name attr lvl None "" [] = Some (d', (l, w)) ->
      Forall Q l) ->
  forall fuel d structures total l w,
    parseLoopA fuel p d structures total = Some (inl (l, w)) ->
    Forall Q structures -> Forall Q l.
Proof.
  intros He.
  induction fuel as [|fuel IH]; intros d structures total l w H HQ;
    [discriminate|].
  simpl in H. destruct (Decoder_Token d) as [[tok|e] d'] eqn:Ht.
  - destruct tok; try (eapply IH; eauto; fail).
    destruct (isDivElement _); [|eapply IH; eauto].
    destruct (parseDivElementA fuel p d' _ _ _ _ _ _)
      as [[d2 [ds w2]]|] eqn:H2; [|discriminate].
    eapply IH; [exact H|]. apply Forall_app. split; [exact HQ|].
    eapply He; eauto.
  - destruct e; [|discriminate]. injection H as <- _. exact HQ.
Qed.

(** Paths *)
Lemma Join_snoc (l : list string) (x sep : string) :
  l <> [] -> Join (l ++ [x]) sep = (Join l sep +:+ sep) +:+ x.
Proof.
  induction l as [|e [|e' r] IH]; intros Hne; [done|reflexivity|].
  change (Join ((e :: e' :: r) ++ [x]) sep)
    with ((e +:+ sep) +:+ Join ((e' :: r) ++ [x]) sep).
  rewrite IH by done.
  change (Join (e :: e' :: r) sep) with ((e +:+ sep) +:+ Join (e' :: r) sep).
  by rewrite !string_app_assoc.
Qed.

Lemma Join_nonempty (e : string) (rest : list string) (sep : string) :
  e <> "" -> Join (e :: rest) sep <> "".
Proof.
  intros He H. destruct rest as [|e' r]; [done|].
  change (Join (e :: e' :: r) sep) with ((e +:+ sep) +:+ Join (e' :: r) sep) in H.
  apply string_app_empty in H as [H _].
  apply string_app_empty in H as [H _]. done.
Qed.

Lemma buildPath_pathOf (anc : list string) (id : string) :
  buildPath (pathOf anc) id = pathOf (anc ++ [id]).
Proof.
  unfold pathOf. induction anc as [|a r IH]; simpl.
  - unfold buildPath. simpl. destruct (String.eqb_spec id ""); by subst.
  - destruct (String.eqb_spec a "") as [->|Ha]; [exact IH|].
    change (a :: r ++ [id]) with ((a :: r) ++ [id]).
    rewrite Join_snoc by done. unfold buildPath.
    destruct (String.eqb_spec (Join (a :: r) "/") "") as [Hj|Hj]; [|done].
    by apply Join_nonempty in Hj.
Qed.


Lemma parseDivElementA_wellFormed p fuel d name attr lvl pp anc d' l w :
  parseDivElementA fuel p d name attr lvl None pp anc = Some (d', (l, w)) ->
  pp = pathOf anc -> Forall wellFormedNode l.
Proof.
  apply (parseDivA_inv wellFormedNode (fun pp anc => pp = pathOf anc)).
  intros pp' anc' attrs lvl' h tc ->. unfold wellFormedNode. simpl.
  rewrite buildPath_pathOf. auto.
Qed.

Lemma ParseA_wellFormed p text l w :
  ParseA p text = Some (inl (l, w)) -> Forall wellFormedNode l.
Proof.
  intros H. eapply (parseLoopA_inv wellFormedNode p); [|exact H|constructor].
  intros. eapply parseDivElementA_wellFormed; eauto.
Qed.
End ParserFacts2.

Section ParserTheorems.
Context {lib : GoLib}.
Import xml data parser.

Lemma buildStructuresA_eq p attrs lvl pid path anc body :
  buildStructuresA p attrs lvl pid path anc body
  = ((anc, newStructure p attrs lvl pid path (headingA body)
                        (textContentA body)) :: childStructuresA body,
     (WordCount (newStructure p attrs lvl pid path (headingA body)
                              (textContentA body))
      + sumWordCount (map snd (childStructuresA body)))%Z).
Proof.
  unfold buildStructuresA. rewrite append_each.
  by rewrite <- fold_words_erase, sumWordCount_from.
Qed.

Lemma parseDivElementA_subtree p fuel d name attr lvl pp anc d' nodes total :
  parseDivElementA fuel p d name attr lvl None pp anc
    = Some (d', (nodes, total)) ->
  exists root descendants,
    nodes = (anc, root) :: descendants /\
    Forall (fun x => (anc ++ [Identifier root]) `prefix_of` fst x) descendants /\
    total = (WordCount root + sumWordCount (map snd descendants))%Z.
Proof.
  destruct fuel as [|fuel]; [discriminate|]. simpl.
  destruct (parseDivLoopA fuel p d _ _ _ _) as [[d2 body]|] eqn:H2;
    [|discriminate].
  rewrite buildStructuresA_eq. intros H. injection H as _ <- <-.
  eexists _, _. split; [reflexivity|]. split; [|reflexivity].
  simpl.
  eapply (proj2 (parseDivA_inv
                   (fun x => (anc ++ [identifier (scanAttrs attr)]) `prefix_of` fst x)
                   (fun _ chain => (anc ++ [identifier (scanAttrs attr)]) `prefix_of` chain)
                   p _ fuel)); [exact H2|done|constructor].
  Unshelve.
  intros pp' anc' attrs lvl' h tc Hpre. simpl. split; [exact Hpre|].
  by apply prefix_app_r.
Qed.

(** C3.  Word-count additivity.  [Parse] returns on every document
    text; the total it returns is the sum of [WordCount] over the
    flattened list it returns; and for every subtree, the cumulative
    count [parseDivElement] returns is the [WordCount] of the subtree's
    root plus the sum of [WordCount] over its descendants (the records
    after the root, each parsed with the root among its ancestors). *)
Theorem Parse_word_count_additive (p : CfrParser) (text : string) :
  (exists r, Parse p text = Some r) /\
  (forall result, Parse p text = Some (inl result) ->
     TotalWords result = sumWordCount (Structures result)) /\
  (forall fuel decoder name attr divLevel parentId parentPath decoder'
          structures totalWords,
     parseDivElement fuel p decoder name attr divLevel parentId parentPath
       = Some (decoder', (structures, totalWords)) ->
     exists root descendants,
       structures = root :: descendants /\
       totalWords = (WordCount root + sumWordCount descendants)%Z) /\
  (forall fuel decoder name attr divLevel parentPath ancestors decoder'
          nodes totalWords,
     parseDivElementA fuel p decoder name attr divLevel None parentPath
                      ancestors = Some (decoder', (nodes, totalWords)) ->
     exists root descendants,
       nodes = (ancestors, root) :: descendants /\
       Forall (fun x => (ancestors ++ [Identifier root]) `prefix_of` fst x)
              descendants /\
       totalWords
       = (WordCount root + sumWordCount (map snd descendants))%Z).
Proof.
  split; [apply Parse_returns|]. split; [|split].
  - intros result H. eapply parseLoop_words; [exact H|reflexivity].
  - intros * H. apply parseDivElement_words in H as (root & desc & ? & ? & _).
    eauto.
  - intros *. apply parseDivElementA_subtree.
Qed.


Lemma Parse_ParentId_nil (p : CfrParser) (text : string) result :
  Parse p text = Some (inl result) ->
  Forall (fun structure => ParentId structure = None) (Structures result).
Proof.
  rewrite ParseA_erase. destruct (ParseA p text) as [[[nodes w]|e]|] eqn:H;
    try discriminate.
  intros [= <-]. simpl. apply ParseA_wellFormed in H.
  apply Forall_map. eapply Forall_impl; [exact H|]. by intros x [_ ?].
Qed.

(** C6.  Malformed or truncated text.  When the decoder of the text
    ends in an error other than the end of the input (a scanner error,
    a wrongly closed element, an element left open at the end), [Parse]
    returns that error wrapped, and no structure list. *)
Theorem Parse_malformed_fails (p : CfrParser) (text : string) :
  malformed (NewDecoder text) ->
  exists msg,
    Parse p text
    = Some (inr (Errorf "error parsing XML: %w" (SyntaxError msg))).
Proof.
  intros Hm. destruct (Parse_returns p text) as [r Hr].
  destruct (parseLoop_malformed _ _ _ _ _ _ Hr Hm) as [msg ->]. eauto.
Qed.



End ParserTheorems.

Section ServiceFacts.
Import data service.

Lemma get_app_l (a b : string) (n : nat) :
  n < String.length a -> String.get n (a +:+ b) = String.get n a.
Proof. intros H. symmetry. by apply append_correct1. Qed.

Lemma get_app_r (a b : string) (n : nat) :
  String.get (String.length a + n) (a +:+ b) = String.get n b.
Proof. rewrite Nat.add_comm. symmetry. apply append_correct2. Qed.

Lemma substring_app_l (a b : string) :
  String.substring 0 (String.length a) (a +:+ b) = a.
Proof.
  induction a as [|x a IH].
  - by destruct b.
  - rewrite string_app_cons. simpl. by rewrite IH.
Qed.

Lemma hasSeparator_get (s : string) (n : nat) (c : ascii) :
  hasSeparator s = false -> String.get n s = Some c -> Ascii.eqb c "/" = false.
Proof.
  revert n. induction s as [|x s IH]; intros n Hs Hg; [discriminate|].
  simpl in Hs. apply orb_false_iff in Hs as [Hx Hs].
  destruct n as [|n]; simpl in Hg.
  - by injection Hg as <-.
  - eauto.
Qed.

Lemma getParentPathFrom_segment (parent segment : string) (k : nat) :
  hasSeparator segment = false ->
  k <= String.length segment ->
  getParentPathFrom ((parent +:+ "/") +:+ segment)
                    (String.length (parent +:+ "/") + k) = parent.
Proof.
  intros Hs. induction k as [|k IH]; intros Hk.
  - rewrite Nat.add_0_r, string_app_length. simpl.
    replace (String.length parent + 1) with (S (String.length parent)) by lia.
    simpl. rewrite string_app_assoc.
    replace (String.length parent) with (String.length parent + 0) at 1 by lia.
    rewrite get_app_r. simpl. apply substring_app_l.
  - replace (String.length (parent +:+ "/") + S k)
      with (S (String.length (parent +:+ "/") + k)) by lia.
    simpl. rewrite get_app_r.
    destruct (String.get k segment) as [c|] eqn:Hg.
    + rewrite (hasSeparator_get _ _ _ Hs Hg). apply IH. lia.
    + apply IH. lia.
Qed.

Lemma getParentPath_truncated (path parent : string) :
  truncatedAtLastSeparator path parent -> getParentPath path = parent.
Proof.
  intros (segment & -> & Hs). unfold getParentPath.
  rewrite string_app_length. by apply getParentPathFrom_segment.
Qed.

Lemma getParentPathFrom_none (path : string) (n : nat) :
  hasSeparator path = false -> getParentPathFrom path n = "".
Proof.
  intros Hs. induction n as [|n IH]; [reflexivity|]. simpl.
  destruct (String.get n path) as [c|] eqn:Hg; [|exact IH].
  by rewrite (hasSeparator_get _ _ _ Hs Hg).
Qed.

Lemma getParentPath_no_separator (path : string) :
  hasSeparator path = false -> getParentPath path = "".
Proof. apply getParentPathFrom_none. Qed.

Lemma hasSeparator_truncated (path : string) :
  hasSeparator path = true ->
  exists parent, truncatedAtLastSeparator path parent.
Proof.
  induction path as [|c rest IH]; [discriminate|]. simpl. intros H.
  destruct (hasSeparator rest) eqn:Hr.
  - destruct IH as (parent & segment & -> & Hs); [done|].
    exists (String c parent), segment. by rewrite !string_app_cons.
  - rewrite orb_false_r in H. apply Ascii.eqb_eq in H as ->.
    exists "", rest. auto.
Qed.

(** The lookup table of the first pass *)
Lemma pathMap_fold (store : list CfrStructure) (rs : list ref)
    (m : gmap string ref) (q : string) :
  let m' := fold_left
    (fun (pathMap : gmap string ref) (r : ref) =>
       match store !! r with
       | Some structure => <[Path structure := r]> pathMap
       | None => pathMap
       end) rs m in
  (is_Some (m' !! q) <->
   is_Some (m !! q) \/
   exists r s, r ∈ rs /\ store !! r = Some s /\ Path s = q) /\
  (forall r, m' !! q = Some r ->
     m !! q = Some r \/ exists s, store !! r = Some s /\ Path s = q).
Proof.
  revert m. induction rs as [|r0 rs IH]; intros m; simpl.
  - split; [|auto]. split; [auto|]. intros [H|(r & s & Hr & _)]; [done|].
    by apply elem_of_nil in Hr.
  - destruct (store !! r0) as [s0|] eqn:Hs0.
    + destruct (IH (<[Path s0 := r0]> m)) as [IH1 IH2]. split.
      * rewrite IH1. split.
        { intros [H|(r & s & Hr & Hs & Hq)].
          - destruct (decide (Path s0 = q)) as [Heq|Hne].
            + right. exists r0, s0. split; [left|]. done.
            + rewrite lookup_insert_ne in H by done. by left.
          - right. exists r, s. split; [by right|done]. }
        { intros [H|(r & s & Hr & Hs & Hq)].
          - left. destruct (decide (Path s0 = q)) as [Heq|Hne].
            + subst. rewrite lookup_insert_eq. eauto.
            + by rewrite lookup_insert_ne.
          - apply elem_of_cons in Hr as [->|Hr].
            + left. rewrite Hs0 in Hs. injection Hs as ->. subst.
              rewrite lookup_insert_eq. eauto.
            + right. eauto. }
      * intros r Hr. apply IH2 in Hr as [Hr|Hr]; [|by right].
        destruct (decide (Path s0 = q)) as [Heq|Hne].
        { subst. rewrite lookup_insert_eq in Hr. injection Hr as <-.
          right. eauto. }
        { rewrite lookup_insert_ne in Hr by done. by left. }
    + destruct (IH m) as [IH1 IH2]. split; [|exact IH2].
      rewrite IH1. split.
      * intros [H|(r & s & Hr & Hs & Hq)]; [by left|].
        right. exists r, s. split; [by right|done].
      * intros [H|(r & s & Hr & Hs & Hq)]; [by left|].
        apply elem_of_cons in Hr as [->|Hr]; [congruence|].
        right. eauto.
Qed.

Lemma buildPathMap_is_Some (store : list CfrStructure) (q : string) :
  is_Some (buildPathMap store !! q) <->
  exists s, s ∈ store /\ Path s = q.
Proof.
  unfold buildPathMap.
  destruct (pathMap_fold store (seq 0 (length store)) ∅ q) as [H _].
  simpl in H. rewrite H. rewrite lookup_empty. split.
  - intros [[? ?]|(r & s & _ & Hs & Hq)]; [done|].
    exists s. split; [|done]. by eapply list_elem_of_lookup_2.
  - intros (s & Hs & Hq). right.
    apply list_elem_of_lookup in Hs as [r Hr].
    exists r, s. split; [|done].
    apply elem_of_seq. apply lookup_lt_Some in Hr. lia.
Qed.

Lemma buildPathMap_Some (store : list CfrStructure) (q : string) (r : ref) :
  buildPathMap store !! q = Some r ->
  exists s, store !! r = Some s /\ Path s = q.
Proof.
  unfold buildPathMap. intros H.
  destruct (pathMap_fold store (seq 0 (length store)) ∅ q) as [_ H2].
  apply H2 in H as [H|H]; [|done]. by rewrite lookup_empty in H.
Qed.

(** The second pass *)
Lemma linkParent_lookup pathMap (store : list CfrStructure) (r i : ref) :
  linkParent pathMap store r !! i
  = if decide (i = r) then linked pathMap <$> store !! i else store !! i.
Proof.
  unfold linkParent, linked.
  destruct (decide (i = r)) as [->|Hne].
  - destruct (store !! r) as [s|] eqn:Hs; simpl; [|done].
    destruct (String.eqb _ _); [done|].
    destruct (pathMap !! _); [|done].
    rewrite list_lookup_insert_eq; [done|]. by eapply lookup_lt_Some.
  - destruct (store !! r) as [s|] eqn:Hs; [|done].
    destruct (String.eqb _ _); [done|].
    destruct (pathMap !! _); [|done].
    by rewrite list_lookup_insert_ne.
Qed.

Lemma linkParent_fold pathMap (rs : list ref) :
  NoDup rs -> forall (store : list CfrStructure) (i : ref),
  fold_left (linkParent pathMap) rs store !! i
  = if decide (i ∈ rs) then linked pathMap <$> store !! i else store !! i.
Proof.
  induction 1 as [|r rs Hr Hnd IH]; intros store i; cbn [fold_left].
  - destruct (decide (i ∈ [])) as [Hi%elem_of_nil|]; done.
  - rewrite IH, linkParent_lookup.
    repeat case_decide; subst; try done.
    + exfalso. match goal with H : _ ∉ _ :: _ |- _ =>
        apply H, elem_of_cons; auto end.
    + exfalso. match goal with H : _ ∉ _ :: _ |- _ =>
        apply H, elem_of_cons; auto end.
    + match goal with H : _ ∈ _ :: _ |- _ =>
        apply elem_of_cons in H as [?|?]; done end.
Qed.

Lemma linkParents_lookup (structures : list CfrStructure) (i : ref) :
  linkParents structures !! i
  = linked (buildPathMap structures) <$> structures !! i.
Proof.
  unfold linkParents. rewrite linkParent_fold by apply NoDup_seq.
  case_decide as Hi; [done|].
  rewrite lookup_ge_None_2; [done|].
  rewrite elem_of_seq in Hi. lia.
Qed.
End ServiceFacts.

Section ServiceTheorems.
Import data service.

(** C5 (amended).  Parent linkage.  Run over a list whose records
    have no parent yet, the pass leaves every [Path] as it is, and a
    record ends with a non-nil [ParentId] if and only if its [Path]
    truncated at the last "/" is not empty and is the [Path] of some
    record of the list; [ParentId] then refers to a record with that
    path.  A record whose [Path] has no separator keeps a nil
    [ParentId]. *)
Theorem linkParents_sets_parent (structures : list CfrStructure) :
  Forall (fun structure => ParentId structure = None) structures ->
  Path <$> linkParents structures = Path <$> structures /\
  forall r structure,
    linkParents structures !! r = Some structure ->
    (ParentId structure <> None <->
     exists parent,
       truncatedAtLastSeparator (Path structure) parent /\
       parent <> "" /\
       exists other, other ∈ structures /\ Path other = parent) /\
    (hasSeparator (Path structure) = false -> ParentId structure = None) /\
    (forall parentRef, ParentId structure = Some parentRef ->
       exists parent, structures !! parentRef = Some parent /\
                      Path parent = getParentPath (Path structure)).
Proof.
  intros Hnil. split.
  { apply list_eq. intros i. rewrite !list_lookup_fmap, linkParents_lookup.
    destruct (structures !! i) as [s|]; [|reflexivity]. simpl. f_equal.
    unfold linked. destruct (String.eqb _ _); [reflexivity|].
    destruct (buildPathMap structures !! _); reflexivity. }
  intros r s' Hr. rewrite linkParents_lookup in Hr.
  destruct (structures !! r) as [s|] eqn:Hs; [|discriminate].
  injection Hr as <-.
  assert (Hsnil : ParentId s = None).
  { rewrite Forall_forall in Hnil. apply Hnil.
    by eapply list_elem_of_lookup_2. }
  assert (Hpath : Path (linked (buildPathMap structures) s) = Path s).
  { unfold linked. destruct (String.eqb _ _); [reflexivity|].
    destruct (buildPathMap structures !! _); reflexivity. }
  rewrite Hpath. unfold linked.
  destruct (String.eqb_spec (getParentPath (Path s)) "") as [He|Hne].
  - rewrite Hsnil. split; [|split]; [|done|done].
    split; [done|]. intros (parent & Ht & Hp & _).
    apply getParentPath_truncated in Ht. congruence.
  - destruct (buildPathMap structures !! getParentPath (Path s))
      as [j|] eqn:Hj; simpl.
    + split; [|split].
      * split; [|done]. intros _.
        destruct (hasSeparator (Path s)) eqn:Hsep.
        { apply hasSeparator_truncated in Hsep as [parent Ht].
          pose proof (getParentPath_truncated _ _ Ht) as Hg.
          exists parent. split; [exact Ht|]. split; [congruence|].
          apply buildPathMap_is_Some. rewrite <- Hg, Hj. eauto. }
        { apply getParentPath_no_separator in Hsep. done. }
      * intros Hsep. apply getParentPath_no_separator in Hsep. done.
      * intros ? [= <-]. by apply buildPathMap_Some.
    + rewrite Hsnil. split; [|split]; [|done|done].
      split; [done|]. intros (parent & Ht & Hp & Hex).
      apply getParentPath_truncated in Ht. subst parent.
      apply buildPathMap_is_Some in Hex as [? Hex]. congruence.
Qed.
End ServiceTheorems.

Section RunnerFacts.
Import concurrent.
Context {T R : Type}.
Variable r : Runner.
Variable worker : WorkerFunc T R.
Variable items : list T.

Local Abbreviation Inv := (Inv r worker items).

Lemma sum_list_with_insert {A} (f : A -> nat) (l : list A) (i : nat) (x y : A) :
  l !! i = Some x ->
  sum_list_with f (<[i := y]> l) + f x = sum_list_with f l + f y.
Proof.
  revert i. induction l as [|a l IH]; intros i H; [done|].
  destruct i as [|i]; simpl in *.
  - injection H as ->. lia.
  - specialize (IH i H). lia.
Qed.

Lemma sum_list_with_pos {A} (f : A -> nat) (l : list A) :
  0 < sum_list_with f l -> exists i x, l !! i = Some x /\ 0 < f x.
Proof.
  induction l as [|a l IH]; simpl; [lia|]. intros H.
  destruct (f a) as [|n] eqn:Hfa.
  - destruct IH as (i & x & Hi & Hx); [lia|]. exists (S i), x. auto.
  - exists 0, a. simpl. split; [done|lia].
Qed.

Lemma sum_list_with_zero {A} (f g : A -> nat) (l : list A) :
  (forall x, f x = 0 -> g x = 0) ->
  sum_list_with f l = 0 -> sum_list_with g l = 0.
Proof.
  intros Hfg. induction l as [|a l IH]; simpl; [done|]. intros H.
  rewrite (Hfg a), IH; lia.
Qed.

Lemma Inv_initial : Inv (initial items).
Proof.
  constructor; simpl; try done; try lia.
Qed.

Ltac open_state s :=
  destruct s as [m th sl wg mwg ws mr rr er mc rc ec lg rl el].

Ltac finish_inv :=
  constructor;
  unfold phaseInv, closedFlags, resultsSent, errorsSent, pendingResults,
    pendingErrors in *; simpl in *;
  rewrite ?sum_list_with_app, ?length_app in *; simpl in *;
  try (intuition (try congruence; try lia); fail).

Lemma mainStep_Inv s s' : Inv s -> mainStep r worker s = Some s' -> Inv s'.
Proof.
  intros [Hwg Hsl Hco Hre Her Hdi Hph] H. open_state s.
  unfold mainStep in H. simpl in *.
  destruct m as [its|its|item rest|item rest| | | | | |res];
    unfold phaseInv, closedFlags in Hph; simpl in *.
  - injection Hph as -> -> -> -> -> -> -> -> -> -> -> -> -> -> ->.
    destruct items as [|i its]; injection H as <-; finish_inv.
  - destruct its as [|item rest]; injection H as <-; finish_inv.
  - destruct th as [cap|].
    + destruct (Nat.ltb_spec sl cap); [|discriminate].
      injection H as <-. finish_inv.
      intros c [= <-]. destruct (Hsl cap eq_refl). lia.
    + injection H as <-. finish_inv.
  - injection H as <-. finish_inv.
    intros c Hc. destruct (Hsl c Hc). lia.
  - destruct (Nat.eqb_spec wg 0); [|discriminate].
    injection H as <-. finish_inv.
  - injection H as <-. finish_inv.
  - injection H as <-. finish_inv.
  - injection H as <-. finish_inv.
  - destruct (Nat.eqb_spec mwg 0); [|discriminate].
    injection H as <-. finish_inv.
  - discriminate.
Qed.

(** the sums over the goroutines after goroutine [i] changes state *)
Ltac update_sums Hi w' :=
  pose proof (sum_list_with_insert isActive _ _ _ w' Hi);
  pose proof (sum_list_with_insert holdsSlot _ _ _ w' Hi);
  pose proof (sum_list_with_insert pendingResults _ _ _ w' Hi);
  pose proof (sum_list_with_insert pendingErrors _ _ _ w' Hi);
  simpl in *.

Ltac finish_inv' :=
  constructor;
  unfold phaseInv, closedFlags, resultsSent, errorsSent, pendingResults,
    pendingErrors, resultsOf, errorsOf in *; simpl in *;
  rewrite ?length_insert, ?length_app in *; simpl in *;
  try (intuition (subst; simpl in *; try congruence; try lia); fail).

(** a goroutine of the item loop exists: the run is past its entry *)
Ltac worker_case m Hph Hi Hsl :=
  unfold phaseInv in Hph; destruct m; simpl in Hph;
  [exfalso; injection Hph; intros; subst; simpl in Hi; discriminate|..];
  try (match type of Hph with
       | (?ws <> [] -> _) /\ _ =>
           let Hth := fresh in let Hrest := fresh in
           destruct Hph as [Hth Hrest];
           assert (ws <> []) by (intros ->; simpl in Hi; discriminate)
       end);
  finish_inv';
  try (let c := fresh in let Hc := fresh in
       intros c Hc; destruct (Hsl c Hc); lia).

Lemma workerStep_Inv i s s' :
  Inv s -> workerStep i s = Some s' -> Inv s'.
Proof.
  intros [Hwg Hsl Hco Hre Her Hdi Hph] H. open_state s.
  unfold workerStep in H. simpl in *.
  destruct (ws !! i) as [[[|[m0|x|e] rest]| | |]|] eqn:Hi; try discriminate.
  - injection H as <-. update_sums Hi (Releasing (R:=R)).
    worker_case m Hph Hi Hsl.
  - destruct mc; [discriminate|]. destruct mr; try discriminate.
    injection H as <-. update_sums Hi (Running rest).
    worker_case m Hph Hi Hsl.
  - destruct rc; [discriminate|]. destruct rr; try discriminate.
    injection H as <-. update_sums Hi (Running rest).
    worker_case m Hph Hi Hsl.
  - destruct ec; [discriminate|]. destruct er; try discriminate.
    injection H as <-. update_sums Hi (Running rest).
    worker_case m Hph Hi Hsl.
  - destruct th as [cap|].
    + destruct sl as [|n]; [discriminate|]. injection H as <-.
      update_sums Hi (Finishing (R:=R)).
      worker_case m Hph Hi Hsl.
    + injection H as <-. update_sums Hi (Finishing (R:=R)).
      worker_case m Hph Hi Hsl.
  - destruct wg as [|n]; [discriminate|]. injection H as <-.
    update_sums Hi (Exited (R:=R)).
    worker_case m Hph Hi Hsl.
Qed.

Ltac collector_case m Hph :=
  unfold phaseInv in Hph; destruct m; simpl in Hph;
  [exfalso; injection Hph; intros; subst; discriminate|..];
  finish_inv'.

Lemma messagesStep_Inv s s' : Inv s -> messagesStep r s = Some s' -> Inv s'.
Proof.
  intros [Hwg Hsl Hco Hre Her Hdi Hph] H. open_state s.
  unfold messagesStep in H. simpl in *.
  destruct mr as [| |x|]; try discriminate.
  - destruct mc; [|discriminate]. destruct mwg as [|n]; [discriminate|].
    injection H as <-. collector_case m Hph.
  - injection H as <-. collector_case m Hph.
Qed.

Lemma resultsStep_Inv s s' : Inv s -> resultsStep s = Some s' -> Inv s'.
Proof.
  intros [Hwg Hsl Hco Hre Her Hdi Hph] H. open_state s.
  unfold resultsStep in H. simpl in *.
  destruct rr as [| |x|]; try discriminate.
  - destruct rc; [|discriminate]. destruct mwg as [|n]; [discriminate|].
    injection H as <-. collector_case m Hph.
  - injection H as <-. collector_case m Hph.
Qed.

Lemma errorsStep_Inv s s' : Inv s -> errorsStep s = Some s' -> Inv s'.
Proof.
  intros [Hwg Hsl Hco Hre Her Hdi Hph] H. open_state s.
  unfold errorsStep in H. simpl in *.
  destruct er as [| |x|]; try discriminate.
  - destruct ec; [|discriminate]. destruct mwg as [|n]; [discriminate|].
    injection H as <-. collector_case m Hph.
  - injection H as <-. collector_case m Hph.
Qed.

Lemma step_Inv s s' : Inv s -> step r worker s s' -> Inv s'.
Proof.
  intros HI [[|i| | |] H]; simpl in H.
  - eapply mainStep_Inv; eauto.
  - eapply workerStep_Inv; eauto.
  - eapply messagesStep_Inv; eauto.
  - eapply resultsStep_Inv; eauto.
  - eapply errorsStep_Inv; eauto.
Qed.

Lemma reachable_Inv s : reachable r worker items s -> Inv s.
Proof.
  unfold reachable. intros H.
  eapply (rtc_ind_r (fun s => Inv s)); [apply Inv_initial| |exact H].
  intros s1 s2 _ Hstep IH. eapply step_Inv; eauto.
Qed.

(** Progress *)
Lemma makeThrottle_pos capacity : makeThrottle r = Some capacity -> 0 < capacity.
Proof.
  unfold makeThrottle.
  destruct (Z.ltb_spec 0 (MaxConcurrency (config r))); [|discriminate].
  intros [= <-]. lia.
Qed.

Lemma sum_list_with_lookup {A} (f : A -> nat) (l : list A) (i : nat) (x : A) :
  l !! i = Some x -> f x <= sum_list_with f l.
Proof. intros H. apply sum_list_with_in. by eapply list_elem_of_lookup_2. Qed.

Lemma worker_progress s i w :
  Inv s -> workers s !! i = Some w -> isActive w = 1 ->
  closedFlags s = (false, false, false) ->
  unfinished (messagesRecv s) = 1 -> unfinished (resultsRecv s) = 1 ->
  unfinished (errorsRecv s) = 1 ->
  exists s', step r worker s s'.
Proof.
  intros [Hwg Hsl Hco Hre Her Hdi Hph] Hi Hw Hc Hm Hr He.
  pose proof (sum_list_with_lookup isActive _ _ _ Hi) as Hact.
  pose proof (sum_list_with_lookup holdsSlot _ _ _ Hi) as Hhold.
  open_state s. unfold closedFlags in Hc. simpl in *.
  injection Hc as -> -> ->.
  destruct w as [[|[m0|x|e] rest]| | |]; simpl in *; try discriminate.
  - eexists. exists (WorkerThread i). simpl. unfold workerStep. simpl.
    rewrite Hi. reflexivity.
  - destruct mr as [| |y|]; try discriminate.
    + eexists. exists (WorkerThread i). simpl. unfold workerStep. simpl.
      rewrite Hi. reflexivity.
    + eexists. exists MessagesThread. reflexivity.
  - destruct rr as [| |y|]; try discriminate.
    + eexists. exists (WorkerThread i). simpl. unfold workerStep. simpl.
      rewrite Hi. reflexivity.
    + eexists. exists ResultsThread. reflexivity.
  - destruct er as [| |y|]; try discriminate.
    + eexists. exists (WorkerThread i). simpl. unfold workerStep. simpl.
      rewrite Hi. reflexivity.
    + eexists. exists ErrorsThread. reflexivity.
  - destruct th as [cap|].
    + destruct (Hsl cap eq_refl) as [Hs _].
      destruct sl as [|n]; [lia|].
      eexists. exists (WorkerThread i). simpl. unfold workerStep. simpl.
      rewrite Hi. reflexivity.
    + eexists. exists (WorkerThread i). simpl. unfold workerStep. simpl.
      rewrite Hi. reflexivity.
  - destruct wg as [|n]; [lia|].
    eexists. exists (WorkerThread i). simpl. unfold workerStep. simpl.
    rewrite Hi. reflexivity.
Qed.

Lemma Inv_progress s :
  Inv s -> (exists result, main s = Returned result) \/ exists s', step r worker s s'.
Proof.
  intros HI. pose proof HI as [Hwg Hsl Hco Hre Her Hdi Hph].
  unfold phaseInv in Hph.
  destruct (main s) as [its|its|item rest|item rest| | | | | |res] eqn:Hm;
    try (right; eexists; exists MainThread; simpl; unfold mainStep;
         rewrite Hm; reflexivity).
  - right. destruct its; eexists; exists MainThread; simpl; unfold mainStep;
      rewrite Hm; reflexivity.
  - right. destruct its; eexists; exists MainThread; simpl; unfold mainStep;
      rewrite Hm; reflexivity.
  - right. destruct Hph as (Hth & Hc & Hmr & Hrr & Her').
    destruct (throttle s) as [cap|] eqn:Hcap.
    + destruct (Nat.ltb_spec (slots s) cap) as [Hlt|Hge].
      * eexists; exists MainThread; simpl; unfold mainStep.
        rewrite Hm, Hcap. apply Nat.ltb_lt in Hlt. rewrite Hlt. reflexivity.
      * destruct (Hsl cap eq_refl) as [Hs _]. simpl in Hs.
        symmetry in Hth. apply makeThrottle_pos in Hth.
        destruct (sum_list_with_pos holdsSlot (workers s)) as (i & w & Hi & Hw);
          [lia|].
        eapply (worker_progress s i w); eauto.
        destruct w; simpl in *; (reflexivity || lia).
    + eexists; exists MainThread; simpl; unfold mainStep.
      rewrite Hm, Hcap. reflexivity.
  - right. destruct Hph as (Hth & Hc & Hmr & Hrr & Her').
    destruct (Nat.eqb_spec (workersWg s) 0) as [Hz|Hnz].
    + eexists; exists MainThread; simpl; unfold mainStep.
      rewrite Hm, Hz. reflexivity.
    + simpl in Hwg.
      destruct (sum_list_with_pos isActive (workers s)) as (i & w & Hi & Hw);
        [lia|].
      eapply (worker_progress s i w); eauto.
      destruct w; simpl in *; (reflexivity || lia).
  - right. destruct Hph as (Hth & Hz & Hc). unfold closedFlags in Hc.
    injection Hc as Hmc Hrc Hec.
    destruct (Nat.eqb_spec (messagesWG s) 0) as [Hz'|Hnz].
    + eexists; exists MainThread; simpl; unfold mainStep.
      rewrite Hm, Hz'. reflexivity.
    + destruct (messagesWG s) as [|n] eqn:Hn; [done|].
      destruct (messagesRecv s) as [| |x|] eqn:Hmr;
        try (eexists; exists MessagesThread; simpl; unfold messagesStep;
             rewrite Hmr, ?Hmc, ?Hn; reflexivity);
      (destruct (resultsRecv s) as [| |x'|] eqn:Hrr;
        try (eexists; exists ResultsThread; simpl; unfold resultsStep;
             rewrite Hrr, ?Hrc, ?Hn; reflexivity));
      (destruct (errorsRecv s) as [| |x''|] eqn:Her';
        try (eexists; exists ErrorsThread; simpl; unfold errorsStep;
             rewrite Her', ?Hec, ?Hn; reflexivity));
      simpl in Hco; lia.
  - left. eauto.
Qed.

(** Termination *)
Lemma step_decreases s s' :
  step r worker s s' -> stepsLeft worker s' < stepsLeft worker s.
Proof.
  intros [t H]. open_state s. unfold stepsLeft.
  destruct t as [|i| | |]; simpl in H.
  - unfold mainStep in H. simpl in H.
    destruct m as [its|its|item rest|item rest| | | | | |res];
      simpl in *.
    + destruct its; injection H as <-; simpl; unfold itemSteps; lia.
    + destruct its; injection H as <-; simpl; lia.
    + destruct th as [cap|].
      * destruct (sl <? cap); [|discriminate]. injection H as <-. simpl. lia.
      * injection H as <-. simpl. lia.
    + injection H as <-. simpl. rewrite sum_list_with_app. simpl.
      unfold itemSteps. lia.
    + destruct (wg =? 0); [|discriminate]. injection H as <-. simpl. lia.
    + injection H as <-. simpl. lia.
    + injection H as <-. simpl. lia.
    + injection H as <-. simpl. lia.
    + destruct (mwg =? 0); [|discriminate]. injection H as <-. simpl. lia.
    + discriminate.
  - unfold workerStep in H. simpl in H.
    destruct (ws !! i) as [[[|[m0|x|e] rest]| | |]|] eqn:Hi; try discriminate.
    + injection H as <-.
      pose proof (sum_list_with_insert goroutineSteps _ _ _ (Releasing (R:=R)) Hi).
      simpl in *. lia.
    + destruct mc; [discriminate|]. destruct mr; try discriminate.
      injection H as <-.
      pose proof (sum_list_with_insert goroutineSteps _ _ _ (Running rest) Hi).
      simpl in *. lia.
    + destruct rc; [discriminate|]. destruct rr; try discriminate.
      injection H as <-.
      pose proof (sum_list_with_insert goroutineSteps _ _ _ (Running rest) Hi).
      simpl in *. lia.
    + destruct ec; [discriminate|]. destruct er; try discriminate.
      injection H as <-.
      pose proof (sum_list_with_insert goroutineSteps _ _ _ (Running rest) Hi).
      simpl in *. lia.
    + pose proof (sum_list_with_insert goroutineSteps _ _ _ (Finishing (R:=R)) Hi).
      destruct th as [cap|].
      * destruct sl as [|n]; [discriminate|]. injection H as <-.
        simpl in *. lia.
      * injection H as <-. simpl in *. lia.
    + pose proof (sum_list_with_insert goroutineSteps _ _ _ (Exited (R:=R)) Hi).
      destruct wg as [|n]; [discriminate|]. injection H as <-.
      simpl in *. lia.
  - unfold messagesStep in H. simpl in H.
    destruct mr as [| |x|]; try discriminate.
    + destruct mc; [|discriminate]. destruct mwg; [discriminate|].
      injection H as <-. simpl. lia.
    + injection H as <-. simpl. lia.
  - unfold resultsStep in H. simpl in H.
    destruct rr as [| |x|]; try discriminate.
    + destruct rc; [|discriminate]. destruct mwg; [discriminate|].
      injection H as <-. simpl. lia.
    + injection H as <-. simpl. lia.
  - unfold errorsStep in H. simpl in H.
    destruct er as [| |x|]; try discriminate.
    + destruct ec; [|discriminate]. destruct mwg; [discriminate|].
      injection H as <-. simpl. lia.
    + injection H as <-. simpl. lia.
Qed.
End RunnerFacts.

Section RunnerTheorems.
Import concurrent runs.
Context {T R : Type}.

Lemma sum_list_with_le {A} (f g : A -> nat) (l : list A) :
  (forall x, f x <= g x) -> sum_list_with f l <= sum_list_with g l.
Proof.
  intros H. induction l as [|a l IH]; simpl; [lia|]. specialize (H a). lia.
Qed.

Lemma outcomesOf_split (script : list (Send R)) :
  outcomesOf script = resultsOf script + errorsOf script.
Proof.
  unfold outcomesOf, resultsOf, errorsOf.
  induction script as [|a l IH]; [reflexivity|].
  cbn [sum_list_with]. rewrite IH. unfold isOutcome. lia.
Qed.

Lemma outcomes_sent (worker : WorkerFunc T R) (items : list T) :
  (forall item, item ∈ items -> outcomesOf (worker item) = 1) ->
  resultsSent worker items + errorsSent worker items = length items.
Proof.
  unfold resultsSent, errorsSent.
  induction items as [|item items IH]; intros H; simpl; [done|].
  assert (Hi : outcomesOf (worker item) = 1) by (apply H; left).
  rewrite outcomesOf_split in Hi.
  rewrite <- IH by (intros; apply H; by right). lia.
Qed.

Lemma runSchedule_reachable (r : Runner) (worker : WorkerFunc T R) schedule :
  forall s s', runSchedule r worker schedule s = Some s' ->
               rtc (step r worker) s s'.
Proof.
  induction schedule as [|t rest IH]; intros s s' H; simpl in H.
  - injection H as <-. done.
  - destruct (stepOf r worker t s) as [s1|] eqn:Hs; [|discriminate].
    eapply rtc_l; [exists t; exact Hs|]. by apply IH.
Qed.

(** C1.  Completeness.  When every worker sends exactly one outcome
    (one value on [results] or one on [errors]) for its item, every run
    of [Run] over a non-empty item list that has returned holds a
    [RunResult] with [len(Results) + len(Errors) = len(items)]; and
    [Run] does return: a state of the run that has not returned can
    take a step, and every step lowers [stepsLeft]. *)
Theorem Run_completeness (r : Runner) (worker : WorkerFunc T R)
    (items : list T) :
  items <> [] ->
  (forall item, item ∈ items -> outcomesOf (worker item) = 1) ->
  (forall s result,
      reachable r worker items s -> main s = Returned result ->
      length (Results result) + length (Errors result) = length items) /\
  (forall s, reachable r worker items s ->
      (exists result, main s = Returned result) \/
      exists s', step r worker s s') /\
  (forall s s', step r worker s s' ->
      stepsLeft worker s' < stepsLeft worker s).
Proof.
  intros _ Hone. split; [|split].
  - intros s result Hs Hm.
    apply reachable_Inv in Hs as [Hwg _ Hco Hre Her _ Hph].
    unfold phaseInv in Hph. rewrite Hm in *. simpl in *.
    destruct Hph as (_ & Hz & Hz' & -> & ->).
    assert (Hact : sum_list_with isActive (workers s) = 0) by lia.
    rewrite (sum_list_with_zero isActive pendingResults) in Hre;
      [|by intros []|exact Hact].
    rewrite (sum_list_with_zero isActive pendingErrors) in Her;
      [|by intros []|exact Hact].
    pose proof (outcomes_sent worker items Hone).
    destruct (resultsRecv s), (errorsRecv s); simpl in *; lia.
  - intros s Hs. apply (Inv_progress r worker items). by apply reachable_Inv.
  - apply step_decreases.
Qed.

(** C2.  Concurrency bound.  With [MaxConcurrency = C > 0], in every
    state of every run at most [C] invocations of the worker function
    are executing; every goroutine of the item loop holds one slot of
    the throttle from before it is started until its deferred release,
    whatever its worker sent, and the slots in use never exceed [C]. *)
Theorem Run_concurrency_bound (r : Runner) (worker : WorkerFunc T R)
    (items : list T) (C : Z) :
  MaxConcurrency (config r) = C -> (0 < C)%Z ->
  forall s, reachable r worker items s ->
    (Z.of_nat (executing s) <= C)%Z /\
    (workers s <> [] ->
     throttle s = Some (Z.to_nat C) /\
     slots s = sum_list_with holdsSlot (workers s) + inSpawn (main s) /\
     slots s <= Z.to_nat C).
Proof.
  intros HC Hpos s Hs.
  apply reachable_Inv in Hs as [_ Hsl _ _ _ _ Hph].
  assert (Hmk : makeThrottle r = Some (Z.to_nat C)).
  { unfold makeThrottle. rewrite HC.
    by destruct (Z.ltb_spec 0 C); [|lia]. }
  assert (Hth : workers s <> [] -> throttle s = Some (Z.to_nat C)).
  { intros Hne. rewrite <- Hmk. unfold phaseInv in Hph.
    destruct (main s); try (by destruct Hph); [|by apply Hph].
    rewrite Hph in Hne. done. }
  assert (Hex : executing s <= sum_list_with holdsSlot (workers s)).
  { apply sum_list_with_le. by intros []; simpl; lia. }
  destruct (workers s) as [|w ws] eqn:Hws.
  - split; [|done]. unfold executing. rewrite Hws. simpl. lia.
  - specialize (Hth ltac:(done)). destruct (Hsl _ Hth) as [H1 H2].
    split; [lia|]. auto.
Qed.

(** C8.  Empty input.  [Run] over the empty item list starts no
    goroutine (no worker, no collector) and returns, in one step, a
    [RunResult] with empty [Results] and empty [Errors]. *)
Theorem Run_empty (r : Runner) (worker : WorkerFunc T R) :
  (forall s, reachable r worker [] s ->
     workers s = [] /\
     messagesRecv s = NotStarted /\ resultsRecv s = NotStarted /\
     errorsRecv s = NotStarted /\
     (forall result, main s = Returned result ->
        Results result = [] /\ Errors result = [])) /\
  (exists s, step r worker (initial []) s /\
             main s = Returned (mkRunResult [] [])).
Proof.
  split.
  - intros s Hs.
    assert (H : s = initial [] \/
                s = set_main (Returned (mkRunResult [] [])) (initial [])).
    { eapply (rtc_ind_r (fun s => s = initial [] \/
                s = set_main (Returned (mkRunResult [] [])) (initial [])));
        [by left| |exact Hs].
      intros s1 s2 _ [t Ht] [->| ->]; destruct t; try discriminate.
      injection Ht as <-. by right. }
    destruct H as [-> | ->]; simpl; do 4 (split; [reflexivity|]);
      intros result Hr; [discriminate|by injection Hr as <-].
  - eexists. split; [by exists MainThread|]. reflexivity.
Qed.

(** C7 (amended).  A negative [MaxConcurrency] is not rejected:
    [NewRunner] keeps it, [Run] makes no throttle for it and takes
    exactly the steps it takes for [MaxConcurrency = 0], and a run that
    has returned has started one goroutine per item. *)
Theorem negative_MaxConcurrency_is_unlimited (cfg : RunnerConfig) :
  (MaxConcurrency cfg < 0)%Z ->
  MaxConcurrency (config (NewRunner cfg)) = MaxConcurrency cfg /\
  makeThrottle (NewRunner cfg) = None /\
  (forall (worker : WorkerFunc T R) t s,
      stepOf (NewRunner cfg) worker t s
      = stepOf (NewRunner (mkRunnerConfig 0 (LogPrefix cfg))) worker t s) /\
  (forall (worker : WorkerFunc T R) items s result,
      reachable (NewRunner cfg) worker items s ->
      main s = Returned result ->
      length (workers s) = length items).
Proof.
  intros Hneg.
  assert (Hmax : MaxConcurrency (config (NewRunner cfg)) = MaxConcurrency cfg).
  { unfold NewRunner. simpl. by destruct (String.eqb _ _). }
  assert (Hmk : makeThrottle (NewRunner cfg) = None).
  { unfold makeThrottle. rewrite Hmax.
    by destruct (Z.ltb_spec 0 (MaxConcurrency cfg)); [lia|]. }
  assert (Hmk0 : makeThrottle (NewRunner (mkRunnerConfig 0 (LogPrefix cfg)))
                 = None).
  { unfold makeThrottle, NewRunner. simpl. by destruct (String.eqb _ _). }
  split; [exact Hmax|]. split; [exact Hmk|]. split.
  - intros worker t s. destruct t; simpl; try reflexivity.
    + unfold mainStep. destruct (main s) as [[|]| | | | | | | | |]; try reflexivity.
      by rewrite Hmk, Hmk0.
    + unfold messagesStep, logInfo, NewRunner. simpl.
      by destruct (String.eqb _ _).
  - intros worker items s result Hs Hm.
    apply reachable_Inv in Hs as [_ _ _ _ _ Hdi _].
    rewrite Hm in Hdi. simpl in Hdi. lia.
Qed.
End RunnerTheorems.

Section Examples.
Import xml data parser service samples.

(** [Parse_word_count_additive] on a title with a heading and one nested element. *)
Lemma Parse_word_count_additive_witness :
  Parse (lib := lib) theParser
    "<DIV1 N='1'><HEAD>Title one</HEAD><DIV2 N='A'>foo bar</DIV2></DIV1>"
  = Some (inl (mkParseResult
      [mkCfrStructure 0 "" 7 40 "" 1 "1" None (Some "Title one") None 0 None "1";
       mkCfrStructure 0 "" 7 40 "" 2 "A" None None (Some "foo bar") 2 None "1/A"]
      2)) /\
  (2 = sumWordCount
      [mkCfrStructure 0 "" 7 40 "" 1 "1" None (Some "Title one") None 0 None "1";
       mkCfrStructure 0 "" 7 40 "" 2 "A" None None (Some "foo bar") 2 None "1/A"])%Z.
Proof.
  split; [reflexivity|].
  apply (proj1 (proj2 (Parse_word_count_additive (lib := lib) theParser
    "<DIV1 N='1'><HEAD>Title one</HEAD><DIV2 N='A'>foo bar</DIV2></DIV1>"))
    (mkParseResult _ 2)).
  reflexivity.
Defined.



(** [Parse_malformed_fails] on a document cut off inside two open elements. *)
Lemma Parse_malformed_fails_witness :
  malformed (NewDecoder (GoLib := lib) "<DIV1 N='1'><DIV2 N='A'>foo bar") /\
  Parse (lib := lib) theParser "<DIV1 N='1'><DIV2 N='A'>foo bar"
  = Some (inr (Errorf "error parsing XML: %w" (SyntaxError "unexpected EOF"))).
Proof.
  assert (Hm : malformed (NewDecoder (GoLib := lib)
                            "<DIV1 N='1'><DIV2 N='A'>foo bar")).
  { exists "unexpected EOF". reflexivity. }
  split; [exact Hm|].
  destruct (Parse_malformed_fails (lib := lib) theParser _ Hm) as [msg H].
  rewrite H. vm_compute in H. injection H as <-. reflexivity.
Defined.

(** [linkParents_sets_parent] on the two records of a nested document. *)
Lemma linkParents_sets_parent_witness :
  linkParents
    [mkCfrStructure 0 "" 7 40 "" 1 "1" None (Some "Title one") None 0 None "1";
     mkCfrStructure 0 "" 7 40 "" 2 "A" None None (Some "foo bar") 2 None "1/A"]
  = [mkCfrStructure 0 "" 7 40 "" 1 "1" None (Some "Title one") None 0 None "1";
     mkCfrStructure 0 "" 7 40 "" 2 "A" None None (Some "foo bar") 2 (Some 0) "1/A"]
  /\
  exists parent,
    [mkCfrStructure 0 "" 7 40 "" 1 "1" None (Some "Title one") None 0 None "1";
     mkCfrStructure 0 "" 7 40 "" 2 "A" None None (Some "foo bar") 2 None "1/A"]
      !! 0 = Some parent /\
    Path parent = getParentPath "1/A".
Proof.
  split; [reflexivity|].
  refine (proj2 (proj2 (proj2 (linkParents_sets_parent
    [mkCfrStructure 0 "" 7 40 "" 1 "1" None (Some "Title one") None 0 None "1";
     mkCfrStructure 0 "" 7 40 "" 2 "A" None None (Some "foo bar") 2 None "1/A"]
    _) 1
    (mkCfrStructure 0 "" 7 40 "" 2 "A" None None (Some "foo bar") 2 (Some 0) "1/A")
    eq_refl)) 0 eq_refl).
  repeat constructor.
Defined.

(** The linkage as the specification words it fails when the
    truncated path is empty: the record with path "/A" stays without a
    parent although a record with the empty path is in the list. *)
Lemma linkage_misses_parent_with_empty_path :
  Parse (lib := lib) theParser "<DIV1><DIV2 N='/A'>foo</DIV2></DIV1>"
  = Some (inl (mkParseResult
      [mkCfrStructure 0 "" 7 40 "" 1 "" None None None 0 None "";
       mkCfrStructure 0 "" 7 40 "" 2 "/A" None None (Some "foo") 1 None "/A"]
      1)) /\
  ~ linkageAsSpecified
      [mkCfrStructure 0 "" 7 40 "" 1 "" None None None 0 None "";
       mkCfrStructure 0 "" 7 40 "" 2 "/A" None None (Some "foo") 1 None "/A"].
Proof.
  split; [reflexivity|]. intros H.
  destruct (H 1 (mkCfrStructure 0 "" 7 40 "" 2 "/A" None None (Some "foo") 1
                                None "/A") eq_refl) as [_ Hback].
  apply Hback; [|reflexivity].
  exists "". split.
  - exists "A". split; reflexivity.
  - eexists. split; [left|reflexivity].
Qed.
End Examples.

Section RunnerExamples.
Import concurrent runs.

(** [Run_completeness] on a run of two items under one slot. *)
Lemma Run_completeness_witness :
  [1; 2] <> [] /\
  (forall item, item ∈ [1; 2] -> outcomesOf (parity item) = 1) /\
  main <$> runSchedule oneSlot parity fullSchedule (initial [1; 2])
  = Some (Returned (mkRunResult [2] ["odd item"])) /\
  length [2] + length ["odd item"] = 2.
Proof.
  assert (Hne : [1; 2] <> []) by discriminate.
  assert (Hone : forall item, item ∈ [1; 2] -> outcomesOf (parity item) = 1).
  { intros item Hi.
    repeat (apply elem_of_cons in Hi as [->|Hi]; [reflexivity|]).
    by apply elem_of_nil in Hi. }
  assert (Hrun : exists s,
            runSchedule oneSlot parity fullSchedule (initial [1; 2]) = Some s /\
            main s = Returned (mkRunResult [2] ["odd item"])).
  { vm_compute. eexists. split; reflexivity. }
  split; [exact Hne|]. split; [exact Hone|]. split; [vm_compute; reflexivity|].
  destruct Hrun as (s & Hs & Hm).
  apply (proj1 (Run_completeness oneSlot parity [1; 2] Hne Hone)
               s (mkRunResult [2] ["odd item"])
               (runSchedule_reachable oneSlot parity fullSchedule
                                      (initial [1; 2]) s Hs) Hm).
Defined.

(** [Run_concurrency_bound] on the state in which the second item
    waits for the only slot. *)
Lemma Run_concurrency_bound_witness :
  MaxConcurrency (config oneSlot) = 1%Z /\ (0 < 1)%Z /\
  exists s,
    runSchedule oneSlot parity earlySchedule (initial [1; 2]) = Some s /\
    executing s = 1 /\ mainStep oneSlot parity s = None /\
    (Z.of_nat (executing s) <= 1)%Z.
Proof.
  split; [reflexivity|]. split; [lia|].
  assert (Hrun : exists s,
            runSchedule oneSlot parity earlySchedule (initial [1; 2]) = Some s /\
            executing s = 1 /\ mainStep oneSlot parity s = None).
  { vm_compute. eexists. repeat split; reflexivity. }
  destruct Hrun as (s & Hs & He & Hb). exists s.
  split; [exact Hs|]. split; [exact He|]. split; [exact Hb|].
  apply (Run_concurrency_bound oneSlot parity [1; 2] 1
           eq_refl ltac:(lia) s
           (runSchedule_reachable oneSlot parity earlySchedule
                                  (initial [1; 2]) s Hs)).
Defined.

(** [Run_empty] on the state [Run] returns in. *)
Lemma Run_empty_witness :
  reachable oneSlot parity []
    (set_main (Returned (mkRunResult [] [])) (initial [])) /\
  Results (mkRunResult (R := nat) [] []) = [] /\
  Errors (mkRunResult (R := nat) [] []) = [].
Proof.
  assert (Hs : reachable oneSlot parity []
                 (set_main (Returned (mkRunResult [] [])) (initial []))).
  { apply rtc_once. by exists MainThread. }
  split; [exact Hs|].
  apply (proj1 (Run_empty oneSlot parity) _ Hs). reflexivity.
Defined.

(** [negative_MaxConcurrency_is_unlimited] at [MaxConcurrency = -1]. *)
Lemma negative_MaxConcurrency_is_unlimited_witness :
  (MaxConcurrency (mkRunnerConfig (-1) "") < 0)%Z /\
  makeThrottle (NewRunner (mkRunnerConfig (-1) "")) = None.
Proof.
  assert (Hneg : (MaxConcurrency (mkRunnerConfig (-1) "") < 0)%Z)
    by (simpl; lia).
  split; [exact Hneg|].
  apply (negative_MaxConcurrency_is_unlimited (T:=nat) (R:=nat)
           (mkRunnerConfig (-1) "") Hneg).
Defined.

(** With [MaxConcurrency = -1] a worker is dispatched all the same. *)
Lemma negative_MaxConcurrency_dispatches :
  ~ (forall s, reachable negativeRunner parity [4] s -> workers s = []).
Proof.
  intros H.
  assert (Hs : exists s, runSchedule negativeRunner parity
                 [MainThread; MainThread; MainThread; MainThread]
                 (initial [4]) = Some s /\ workers s <> []).
  { vm_compute. eexists. split; [reflexivity|]. discriminate. }
  destruct Hs as (s & Hs & Hne). apply Hne, H.
  exact (runSchedule_reachable negativeRunner parity
           [MainThread; MainThread; MainThread; MainThread]
           (initial [4]) s Hs).
Qed.
End RunnerExamples.

(** * Proofs about the further code *)

Section ParserMore.
Context {lib : GoLib}.
Import xml data parser preorder.

Lemma parseLoop_clean p fuel : forall d structures total r,
  parseLoop fuel p d structures total = Some r ->
  finalError d = Some io_EOF ->
  exists result, r = inl result.
Proof.
  induction fuel as [|fuel IH]; intros d structures total r H Hf;
    [discriminate|].
  simpl in H. destruct (Decoder_Token d) as [[tok|e] d'] eqn:Ht.
  - pose proof (finalError_Token_ok _ _ _ Ht) as Hf'.
    destruct tok; try (eapply IH; [exact H|congruence]).
    destruct (isDivElement _); [|eapply IH; [exact H|congruence]].
    destruct (parseDivElement fuel p d' _ _ _ _ _) as [[d2 [ds w]]|] eqn:H2;
      [|discriminate].
    apply (proj1 (parseDiv_reads p fuel)), finalError_reads in H2.
    eapply IH; [exact H|congruence].
  - apply finalError_Token_err in Ht as [Hf' _].
    rewrite Hf' in Hf. injection Hf as ->. injection H as <-. eauto.
Qed.

(** X1.  [Parse] returns a result exactly when reading the decoder
    through ends in [io.EOF], and an error exactly when the text is
    malformed; it never does both and always returns. *)
Theorem Parse_succeeds_iff_clean_end (p : CfrParser) (text : string) :
  ((exists result, Parse p text = Some (inl result)) <->
   finalError (NewDecoder text) = Some io_EOF) /\
  ((exists e, Parse p text = Some (inr e)) <-> malformed (NewDecoder text)).
Proof.
  destruct (Parse_returns p text) as [r Hr].
  destruct (finalError_some (NewDecoder text)) as [[|msg] Hf].
  - destruct (parseLoop_clean _ _ _ _ _ _ Hr Hf) as [result ->].
    split; split; intros H; try done; eauto.
    + destruct H as [e He]. rewrite Hr in He. discriminate.
    + destruct H as [msg Hm]. rewrite Hf in Hm. discriminate.
  - assert (Hm : malformed (NewDecoder text)) by (exists msg; exact Hf).
    destruct (parseLoop_malformed _ _ _ _ _ _ Hr Hm) as [msg' ->].
    split; split; intros H; try done; eauto.
    + destruct H as [result He]. rewrite Hr in He. discriminate.
    + rewrite Hf in H. discriminate.
Qed.

(** A property of the records [newStructure] builds for a recognised
    tag holds of every record of a parse. *)
Lemma parseDiv_Forall (Q : CfrStructure -> Prop) p :
  (forall attrs name pp h tc,
      Q (newStructure p attrs (divLevelOf name) None
                      (buildPath pp (identifier attrs)) h tc)) ->
  forall fuel,
    (forall d name attr pp d' l w,
        parseDivElement fuel p d name attr (divLevelOf (Local name)) None pp
          = Some (d', (l, w)) -> Forall Q l) /\
    (forall d sl path body d' body',
        parseDivLoop fuel p d sl path body = Some (d', body') ->
        Forall Q (childStructures body) ->
        Forall Q (childStructures body')).
Proof.
  intros Hnew.
  induction fuel as [|fuel [IHe IHl]];
    (split; [intros d name attr pp d1 l w H
            |intros d sl path body d1 body1 H HQ]);
    try discriminate.
  - simpl in H.
    destruct (parseDivLoop fuel p d _ _ _) as [[d2 b2]|] eqn:H2;
      [|discriminate].
    rewrite buildStructures_eq in H. injection H as _ <- _.
    constructor; [apply Hnew|].
    eapply IHl; [exact H2|constructor].
  - simpl in H. destruct (Decoder_Token d) as [[tok|e] d'] eqn:Ht.
    + destruct tok; try (eapply IHl; eauto; fail).
      * destruct (String.eqb (Local name) "HEAD").
        { destruct (readHead fuel d' "") as [[d2 ht]|]; [|discriminate].
          eapply IHl; eauto. }
        destruct (isDivElement _).
        { destruct (parseDivElement fuel p d' _ _ _ _ _)
            as [[d2 [cd w]]|] eqn:H2; [|discriminate].
          eapply IHl; [exact H|]. simpl.
          apply Forall_app. split; [exact HQ|]. eapply IHe; eauto. }
        destruct (extractTextContent fuel d' _ _) as [[d2 tc2]|];
          [|discriminate].
        eapply IHl; eauto.
      * destruct (String.eqb _ _).
        { injection H as _ <-. exact HQ. }
        eapply IHl; eauto.
    + injection H as _ <-. exact HQ.
Qed.

Lemma parseLoop_Forall (Q : CfrStructure -> Prop) p :
  (forall attrs name pp h tc,
      Q (newStructure p attrs (divLevelOf name) None
                      (buildPath pp (identifier attrs)) h tc)) ->
  forall fuel d structures total result,
    parseLoop fuel p d structures total = Some (inl result) ->
    Forall Q structures -> Forall Q (Structures result).
Proof.
  intros Hnew.
  induction fuel as [|fuel IH]; intros d structures total result H HQ;
    [discriminate|].
  simpl in H. destruct (Decoder_Token d) as [[tok|e] d'] eqn:Ht.
  - destruct tok; try (eapply IH; eauto; fail).
    destruct (isDivElement _); [|eapply IH; eauto].
    destruct (parseDivElement fuel p d' _ _ _ _ _)
      as [[d2 [ds w2]]|] eqn:H2; [|discriminate].
    eapply IH; [exact H|]. apply Forall_app. split; [exact HQ|].
    eapply (proj1 (parseDiv_Forall Q p Hnew fuel)); eauto.
  - destruct e; [|discriminate]. injection H as <-. exact HQ.
Qed.

Lemma divLevelOf_range (name : string) : (0 <= divLevelOf name < 256)%Z.
Proof.
  unfold divLevelOf. destruct (String.get 3 name); [|lia].
  apply Z.mod_pos_bound. lia.
Qed.

(** X2.  Every record of a parse carries the parser's title id and
    title number, has [InternalId] 0, an empty [Id] and a nil
    [ParentId], a [DivLevel] between 0 and 255, and a [Path] that is
    a parent path extended by the record's own identifier. *)
Theorem Parse_records_provenance (p : CfrParser) (text : string) result :
  Parse p text = Some (inl result) ->
  forall structure, structure ∈ Structures result ->
    TitleId structure = titleId p /\
    TitleNumber structure = titleNumber p /\
    InternalId structure = 0%Z /\ Id structure = "" /\
    ParentId structure = None /\
    (0 <= DivLevel structure < 256)%Z /\
    exists parentPath,
      Path structure = buildPath parentPath (Identifier structure).
Proof.
  intros H structure Hin.
  eapply (parseLoop_Forall
            (fun s => TitleId s = titleId p /\ TitleNumber s = titleNumber p /\
                      InternalId s = 0%Z /\ Id s = "" /\ ParentId s = None /\
                      (0 <= DivLevel s < 256)%Z /\
                      exists pp, Path s = buildPath pp (Identifier s)))
    in H; [|..|constructor].
  - rewrite Forall_forall in H. by apply H.
  - intros attrs name pp h tc. simpl.
    repeat (split; [reflexivity|]). split; [apply divLevelOf_range|].
    by exists pp.
Qed.

(** X3.  In every record of a parse [WordCount] is not negative; a
    record without [TextContent] has [WordCount] 0, and a record
    with [TextContent] has a non-empty text whose number of fields
    ([strings.Fields]) is the [WordCount]. *)
Theorem Parse_text_and_word_count (p : CfrParser) (text : string) result :
  Parse p text = Some (inl result) ->
  forall structure, structure ∈ Structures result ->
    (0 <= WordCount structure)%Z /\
    (TextContent structure = None -> WordCount structure = 0%Z) /\
    (forall body, TextContent structure = Some body ->
       body <> "" /\
       WordCount structure = Z.of_nat (length (Fields body))).
Proof.
  intros H structure Hin.
  eapply (parseLoop_Forall
            (fun s => (0 <= WordCount s)%Z /\
                      (TextContent s = None -> WordCount s = 0%Z) /\
                      (forall body, TextContent s = Some body ->
                         body <> "" /\
                         WordCount s = Z.of_nat (length (Fields body)))))
    in H; [|..|constructor].
  - rewrite Forall_forall in H. by apply H.
  - intros attrs name pp h tc. simpl. unfold countWords.
    destruct (String.eqb_spec (TrimSpace tc) "") as [He|Hne].
    + split; [lia|]. split; [done|]. intros body Hb. discriminate.
    + split; [lia|]. split; [intros Hb; discriminate|].
      intros body Hb. by injection Hb as <-.
Qed.

Lemma under_nil chain : under chain [].
Proof. intros i a s H. by rewrite lookup_nil in H. Qed.

Lemma under_app chain (l : list annotated) root rest :
  under chain l ->
  under (chain ++ [Identifier root]) rest ->
  under chain (l ++ (chain, root) :: rest).
Proof.
  intros Hl Hr i a s Hi. unfold annotated in *.
  destruct (decide (i < length l)) as [Hlt|Hge].
  - rewrite lookup_app_l in Hi by done.
    destruct (Hl _ _ _ Hi) as [->|(j & a' & s' & Hj & Hl' & ->)];
      [by left|right].
    exists j, a', s'. split; [done|]. split; [|done].
    rewrite lookup_app_l; [done|by eapply lookup_lt_Some].
  - rewrite lookup_app_r in Hi by lia.
    destruct (i - length l) as [|k] eqn:Hk; simpl in Hi.
    + injection Hi as <- <-. by left.
    + right.
      destruct (Hr _ _ _ Hi) as [->|(j & a' & s' & Hj & Hl' & ->)].
      * exists (length l), chain, root. split; [lia|]. split; [|done].
        rewrite lookup_app_r by lia. by rewrite Nat.sub_diag.
      * exists (length l + S j), a', s'. split; [lia|]. split; [|done].
        rewrite lookup_app_r by lia.
        replace (length l + S j - length l) with (S j) by lia. done.
Qed.

Lemma parseDivA_under p : forall fuel,
  (forall d name attr lvl pp anc d' l w,
      parseDivElementA fuel p d name attr lvl None pp anc
        = Some (d', (l, w)) ->
      exists root rest,
        l = (anc, root) :: rest /\ under (anc ++ [Identifier root]) rest) /\
  (forall d sl path chain body d' body',
      parseDivLoopA fuel p d sl path chain body = Some (d', body') ->
      under chain (childStructuresA body) ->
      under chain (childStructuresA body')).
Proof.
  induction fuel as [|fuel [IHe IHl]];
    (split; [intros d name attr lvl pp anc d1 l w H
            |intros d sl path chain body d1 body1 H HQ]);
    try discriminate.
  - simpl in H.
    destruct (parseDivLoopA fuel p d _ _ _ _) as [[d2 b2]|] eqn:H2;
      [|discriminate].
    rewrite buildStructuresA_eq in H. injection H as _ <- _.
    eexists _, _. split; [reflexivity|]. simpl.
    eapply IHl; [exact H2|apply under_nil].
  - simpl in H. destruct (Decoder_Token d) as [[tok|e] d'] eqn:Ht.
    + destruct tok; try (eapply IHl; eauto; fail).
      * destruct (String.eqb (Local name) "HEAD").
        { destruct (readHead fuel d' "") as [[d2 ht]|]; [|discriminate].
          eapply IHl; eauto. }
        destruct (isDivElement _).
        { destruct (parseDivElementA fuel p d' _ _ _ _ _ _)
            as [[d2 [cd w]]|] eqn:H2; [|discriminate].
          eapply IHl; [exact H|]. simpl.
          apply IHe in H2 as (root & rest & -> & Hrest).
          by apply under_app. }
        destruct (extractTextContent fuel d' _ _) as [[d2 tc2]|];
          [|discriminate].
        eapply IHl; eauto.
      * destruct (String.eqb _ _).
        { injection H as _ <-. exact HQ. }
        eapply IHl; eauto.
    + injection H as _ <-. exact HQ.
Qed.

Lemma parseLoopA_under p : forall fuel d structures total l w,
  parseLoopA fuel p d structures total = Some (inl (l, w)) ->
  under [] structures -> under [] l.
Proof.
  induction fuel as [|fuel IH]; intros d structures total l w H HQ;
    [discriminate|].
  simpl in H. destruct (Decoder_Token d) as [[tok|e] d'] eqn:Ht.
  - destruct tok; try (eapply IH; eauto; fail).
    destruct (isDivElement _); [|eapply IH; eauto].
    destruct (parseDivElementA fuel p d' _ _ _ _ _ _)
      as [[d2 [ds w2]]|] eqn:H2; [|discriminate].
    eapply IH; [exact H|].
    apply (proj1 (parseDivA_under p fuel)) in H2
      as (root & rest & -> & Hrest).
    by apply under_app.
  - destruct e; [|discriminate]. injection H as <- _. exact HQ.
Qed.

Lemma ParseA_of_Parse p text result :
  Parse p text = Some (inl result) ->
  exists nodes,
    ParseA p text = Some (inl (nodes, TotalWords result)) /\
    Structures result = map snd nodes.
Proof.
  rewrite ParseA_erase. destruct (ParseA p text) as [[[nodes w]|e]|];
    simpl; intros H; try discriminate.
  injection H as <-. by exists nodes.
Qed.

Lemma ParseA_parent p text nodes total :
  ParseA p text = Some (inl (nodes, total)) ->
  forall i a s, nodes !! i = Some (a, s) ->
    Path s = pathOf (a ++ [Identifier s]) /\
    (a = [] \/
     exists j a' s', j < i /\ nodes !! j = Some (a', s') /\
       a = a' ++ [Identifier s'] /\ Path s' = pathOf a).
Proof.
  intros H i a s Hi.
  pose proof (ParseA_wellFormed _ _ _ _ H) as Hwf.
  rewrite Forall_forall in Hwf.
  destruct (Hwf (a, s)) as [Hp _]; [by eapply list_elem_of_lookup_2|].
  split; [exact Hp|].
  apply parseLoopA_under in H; [|apply under_nil].
  destruct (H _ _ _ Hi) as [->|(j & a' & s' & Hj & Hl & ->)]; [by left|].
  right. exists j, a', s'. repeat (split; [done|]).
  destruct (Hwf (a', s')) as [Hp' _]; [by eapply list_elem_of_lookup_2|].
  exact Hp'.
Qed.

(** X4.  The records of a parse are in document order: a record is
    either top-level (its [Path] is its identifier) or it comes
    after the record of the element it is nested in, whose [Path]
    its own extends. *)
Theorem Parse_parent_precedes_child (p : CfrParser) (text : string) result :
  Parse p text = Some (inl result) ->
  forall i structure,
    Structures result !! i = Some structure ->
    Path structure = Identifier structure \/
    exists j parent,
      j < i /\ Structures result !! j = Some parent /\
      Path structure = buildPath (Path parent) (Identifier structure).
Proof.
  intros H i s Hi.
  apply ParseA_of_Parse in H as (nodes & H & Heq).
  unfold annotated in *. rewrite Heq, list_lookup_fmap in Hi.
  destruct (nodes !! i) as [[a s0]|] eqn:Hn; [|done].
  simpl in Hi. injection Hi as ->.
  destruct (ParseA_parent _ _ _ _ H _ _ _ Hn)
    as [Hp [->|(j & a' & s' & Hj & Hl & -> & Hp')]].
  - left. rewrite Hp. unfold pathOf. simpl.
    by destruct (String.eqb (Identifier s) "") eqn:He;
      [apply String.eqb_eq in He|].
  - right. exists j, s'. split; [done|]. split.
    + rewrite Heq, list_lookup_fmap. unfold annotated in *. by rewrite Hl.
    + by rewrite Hp, Hp', buildPath_pathOf.
Qed.
End ParserMore.

Section Provenance.
Import xml data parser provenance.
Context {lib : GoLib}.

Lemma Token_suffix d x d' :
  Decoder_Token d = (x, d') -> pending d' `suffix_of` pending d.
Proof.
  unfold Decoder_Token. intros H.
  destruct (err d); [by injection H as _ <-|].
  destruct (pending d) as [|t rest] eqn:Hp.
  - injection H as _ <-. simpl. done.
  - assert (Hs : rest `suffix_of` t :: rest) by (by apply suffix_cons_r).
    destruct t; try (injection H as _ <-; exact Hs).
    destruct (closeError _ _); injection H as _ <-; exact Hs.
Qed.

Lemma reads_suffix d d' : reads d d' -> pending d' `suffix_of` pending d.
Proof.
  induction 1 as [|d1 d2 d3 [x Hx] _ IH]; [done|].
  etrans; [exact IH|]. by eapply Token_suffix.
Qed.

Lemma hierarchyTags_suffix (l1 l2 : list Token) :
  l1 `suffix_of` l2 ->
  length (hierarchyTags l1) <= length (hierarchyTags l2).
Proof.
  intros [k ->]. unfold hierarchyTags. rewrite List.filter_app, length_app. lia.
Qed.

Lemma suffix_elem (l1 l2 : list Token) t :
  l1 `suffix_of` l2 -> t ∈ l1 -> t ∈ l2.
Proof. intros [k ->] H. apply elem_of_app. by right. Qed.

Lemma parseDiv_fromTag p (T : list Token) : forall fuel,
  (forall d name attr pp d' l w,
      parseDivElement fuel p d name attr (divLevelOf (Local name)) None pp
        = Some (d', (l, w)) ->
      pending d `suffix_of` T -> StartElement name attr ∈ T ->
      isDivElement (Local name) = true ->
      Forall (fromTag T) l /\
      length l + length (hierarchyTags (pending d'))
      <= 1 + length (hierarchyTags (pending d))) /\
  (forall d sl path body d' body',
      parseDivLoop fuel p d sl path body = Some (d', body') ->
      pending d `suffix_of` T ->
      (Forall (fromTag T) (childStructures body) ->
       Forall (fromTag T) (childStructures body')) /\
      length (childStructures body') + length (hierarchyTags (pending d'))
      <= length (childStructures body) + length (hierarchyTags (pending d))).
Proof.
  induction fuel as [|fuel [IHe IHl]];
    (split; [intros d name attr pp d1 l w H HT Hin Hdiv
            |intros d sl path body d1 body1 H HT]);
    try discriminate.
  - simpl in H.
    destruct (parseDivLoop fuel p d _ _ _) as [[d2 b2]|] eqn:H2;
      [|discriminate].
    rewrite buildStructures_eq in H. injection H as <- <- _.
    destruct (IHl _ _ _ _ _ _ H2 HT) as [Hf Hc]. simpl in Hc. split.
    + constructor; [|apply Hf; constructor].
      exists name, attr. simpl. done.
    + simpl. lia.
  - simpl in H. destruct (Decoder_Token d) as [[tok|e] d'] eqn:Ht.
    + pose proof (Token_ok_head _ _ _ Ht) as Hhead.
      assert (HT' : pending d' `suffix_of` T).
      { etrans; [|exact HT]. rewrite Hhead. by apply suffix_cons_r. }
      assert (Hrest : forall b,
        parseDivLoop fuel p d' sl path b = Some (d1, body1) ->
        childStructures b = childStructures body ->
        (Forall (fromTag T) (childStructures body) ->
         Forall (fromTag T) (childStructures body1)) /\
        length (childStructures body1) + length (hierarchyTags (pending d1))
        <= length (childStructures body) + length (hierarchyTags (pending d'))).
      { intros b Hb Hcs. destruct (IHl _ _ _ _ _ _ Hb HT') as [Hf Hc].
        rewrite Hcs in Hf, Hc. done. }
      assert (Hle : length (hierarchyTags (pending d'))
                    <= length (hierarchyTags (pending d))).
      { apply hierarchyTags_suffix. rewrite Hhead. by apply suffix_cons_r. }
      destruct tok.
      * destruct (String.eqb (Local name) "HEAD") eqn:Hhd.
        { destruct (readHead fuel d' "") as [[d2 ht]|] eqn:Hr; [|discriminate].
          apply readHead_reads, reads_suffix in Hr.
          destruct (IHl _ _ _ _ _ _ H) as [Hf Hc]; [by etrans|].
          simpl in Hf, Hc. split; [done|].
          apply hierarchyTags_suffix in Hr. lia. }
        destruct (isDivElement (Local name)) eqn:Hdiv.
        { destruct (parseDivElement fuel p d' _ _ _ _ _)
            as [[d2 [cd w]]|] eqn:H2; [|discriminate].
          destruct (IHe _ _ _ _ _ _ _ H2 HT') as [Hf2 Hc2]; [|done|].
          { eapply suffix_elem; [exact HT|]. rewrite Hhead. left. }
          pose proof (proj1 (parseDiv_reads p fuel) _ _ _ _ _ _ _ _ H2) as Hr.
          apply reads_suffix in Hr.
          destruct (IHl _ _ _ _ _ _ H) as [Hf Hc]; [by etrans|].
          simpl in Hf, Hc. rewrite length_app in Hc. split.
          - intros Hb. apply Hf. apply Forall_app. done.
          - assert (length (hierarchyTags (pending d))
                    = S (length (hierarchyTags (pending d')))).
            { rewrite Hhead. unfold hierarchyTags. simpl. by rewrite Hdiv. }
            lia. }
        destruct (extractTextContent fuel d' _ _) as [[d2 tc2]|] eqn:Hx;
          [|discriminate].
        apply extractTextContent_reads, reads_suffix in Hx.
        destruct (IHl _ _ _ _ _ _ H) as [Hf Hc]; [by etrans|].
        simpl in Hf, Hc. split; [done|].
        apply hierarchyTags_suffix in Hx. lia.
      * destruct (String.eqb _ _).
        { injection H as <- <-. split; [done|lia]. }
        destruct (Hrest body H eq_refl) as [Hf Hc].
        split; [done|lia].
      * destruct (Hrest _ H eq_refl) as [Hf Hc].
        split; [done|lia].
      * destruct (Hrest body H eq_refl) as [Hf Hc].
        split; [done|lia].
      * destruct (Hrest body H eq_refl) as [Hf Hc].
        split; [done|lia].
      * destruct (Hrest body H eq_refl) as [Hf Hc].
        split; [done|lia].
    + injection H as <- <-. apply Token_suffix in Ht.
      apply hierarchyTags_suffix in Ht. split; [done|lia].
Qed.

Lemma parseLoop_fromTag p (T : list Token) : forall fuel d structures total result,
  parseLoop fuel p d structures total = Some (inl result) ->
  pending d `suffix_of` T ->
  (Forall (fromTag T) structures -> Forall (fromTag T) (Structures result)) /\
  length (Structures result)
  <= length structures + length (hierarchyTags (pending d)).
Proof.
  induction fuel as [|fuel IH]; intros d structures total result H HT;
    [discriminate|].
  simpl in H. destruct (Decoder_Token d) as [[tok|e] d'] eqn:Ht.
  - pose proof (Token_ok_head _ _ _ Ht) as Hhead.
    assert (HT' : pending d' `suffix_of` T).
    { etrans; [|exact HT]. rewrite Hhead. by apply suffix_cons_r. }
    assert (Hle : length (hierarchyTags (pending d'))
                  <= length (hierarchyTags (pending d))).
    { apply hierarchyTags_suffix. rewrite Hhead. by apply suffix_cons_r. }
    destruct tok;
      try (destruct (IH _ _ _ _ H HT') as [Hf Hc]; split; [done|lia]).
    destruct (isDivElement (Local name)) eqn:Hdiv.
    + destruct (parseDivElement fuel p d' _ _ _ _ _)
        as [[d2 [ds w2]]|] eqn:H2; [|discriminate].
      destruct (proj1 (parseDiv_fromTag p T fuel) _ _ _ _ _ _ _ H2 HT')
        as [Hf2 Hc2]; [|done|].
      { eapply suffix_elem; [exact HT|]. rewrite Hhead. left. }
      pose proof (proj1 (parseDiv_reads p fuel) _ _ _ _ _ _ _ _ H2) as Hr.
      apply reads_suffix in Hr.
      destruct (IH _ _ _ _ H) as [Hf Hc]; [by etrans|].
      rewrite length_app in Hc. split.
      * intros Hs. apply Hf. apply Forall_app. done.
      * assert (length (hierarchyTags (pending d))
                = S (length (hierarchyTags (pending d')))).
        { rewrite Hhead. unfold hierarchyTags. simpl. by rewrite Hdiv. }
        lia.
    + destruct (IH _ _ _ _ H HT') as [Hf Hc]. split; [done|lia].
  - destruct e; [|discriminate]. injection H as <-. simpl. split; [done|lia].
Qed.

(** X30.  Every record of a parse was made from a start tag of a
    hierarchy element of the document: its [DivLevel] is read off
    that tag and its [DivType], [Identifier] and [NodeId] off the
    tag's attributes; and there are at most as many records as the
    document has such tags. *)
Theorem Parse_records_come_from_tags (p : CfrParser) (text : string) result :
  Parse p text = Some (inl result) ->
  Forall (fromTag (pending (NewDecoder text))) (Structures result) /\
  length (Structures result)
  <= length (hierarchyTags (pending (NewDecoder text))).
Proof.
  intros H.
  destruct (parseLoop_fromTag p (pending (NewDecoder text)) _ _ _ _ _ H)
    as [Hf Hc]; [done|].
  split; [apply Hf; constructor|]. simpl in Hc. lia.
Qed.
End Provenance.

Section ServiceMore.
Import data service.

(** X7.  [getParentPath] cuts a path at its last "/": a path with a
    separator is the result, a "/" and a last segment without
    separator; a path without separator gives the empty string. *)
Theorem getParentPath_splits (path : string) :
  (hasSeparator path = true ->
   exists segment,
     path = (getParentPath path +:+ "/") +:+ segment /\
     hasSeparator segment = false) /\
  (hasSeparator path = false -> getParentPath path = "").
Proof.
  split; [|apply getParentPath_no_separator].
  intros H. destruct (hasSeparator_truncated _ H) as [parent Hp].
  rewrite (getParentPath_truncated _ _ Hp). exact Hp.
Qed.

Lemma pathMap_prefix (store : list CfrStructure) (n : nat) (q : string)
    (r : ref) :
  fold_left
    (fun (pathMap : gmap string ref) (r : ref) =>
       match store !! r with
       | Some structure => <[Path structure := r]> pathMap
       | None => pathMap
       end) (seq 0 n) ∅ !! q = Some r ->
  r < n /\
  forall k s, k < n -> store !! k = Some s -> Path s = q -> k <= r.
Proof.
  revert r. induction n as [|n IH]; intros r.
  - simpl. by rewrite lookup_empty.
  - rewrite seq_S, fold_left_app. cbn [fold_left]. simpl.
    destruct (store !! n) as [s0|] eqn:Hs0.
    + destruct (decide (Path s0 = q)) as [Heq|Hne].
      * subst. rewrite lookup_insert_eq. intros [= <-].
        split; [lia|]. intros; lia.
      * rewrite lookup_insert_ne by done. intros H.
        destruct (IH _ H) as [Hr Hk]. split; [lia|].
        intros k s Hlt Hs Hq. destruct (decide (k = n)) as [->|Hkn].
        { congruence. }
        apply (Hk k s); [lia|done..].
    + intros H. destruct (IH _ H) as [Hr Hk]. split; [lia|].
      intros k s Hlt Hs Hq. destruct (decide (k = n)) as [->|Hkn].
      { congruence. }
      apply (Hk k s); [lia|done..].
Qed.

Lemma buildPathMap_last (store : list CfrStructure) (q : string) (r : ref) :
  buildPathMap store !! q = Some r ->
  forall k s, store !! k = Some s -> Path s = q -> k <= r.
Proof.
  intros H k s Hs Hq. apply pathMap_prefix in H as [_ H].
  apply (H k s); [|done..]. by eapply lookup_lt_Some.
Qed.

Lemma setParentId_same (s : CfrStructure) : setParentId s (ParentId s) = s.
Proof. by destruct s. Qed.

Lemma buildPathMap_ext (l1 l2 : list CfrStructure) :
  Path <$> l1 = Path <$> l2 -> buildPathMap l1 = buildPathMap l2.
Proof.
  intros H. unfold buildPathMap.
  assert (Hlen : length l1 = length l2).
  { by rewrite <- (length_fmap Path l1), H, length_fmap. }
  rewrite Hlen. generalize (seq 0 (length l2)) (∅ : gmap string ref).
  intros rs. induction rs as [|r rs IH]; intros m; [done|]. simpl.
  assert (Hr : Path <$> l1 !! r = Path <$> l2 !! r).
  { by rewrite <- !list_lookup_fmap, H. }
  destruct (l1 !! r) as [s1|], (l2 !! r) as [s2|]; simpl in Hr;
    try discriminate; [|apply IH].
  injection Hr as ->. apply IH.
Qed.

Lemma linked_Path pathMap s : Path (linked pathMap s) = Path s.
Proof.
  unfold linked. destruct (String.eqb _ _); [done|].
  by destruct (pathMap !! _).
Qed.

Lemma linked_idem pathMap s :
  linked pathMap (linked pathMap s) = linked pathMap s.
Proof.
  unfold linked at 1. rewrite linked_Path. unfold linked.
  destruct (String.eqb _ _); [done|].
  by destruct (pathMap !! _).
Qed.

Lemma linkParents_fmap (structures : list CfrStructure) :
  linkParents structures = linked (buildPathMap structures) <$> structures.
Proof.
  apply list_eq. intros i.
  by rewrite linkParents_lookup, list_lookup_fmap.
Qed.

(** X8.  The linkage pass of [processTitle] keeps the length of the
    list and every field of every record but [ParentId]; a
    [ParentId] it sets refers to a record of the list; running the
    pass a second time changes nothing. *)
Theorem linkParents_only_sets_ParentId (structures : list CfrStructure) :
  length (linkParents structures) = length structures /\
  (forall i structure,
      structures !! i = Some structure ->
      exists parent,
        linkParents structures !! i = Some (setParentId structure parent) /\
        (parent = ParentId structure \/
         exists k, parent = Some k /\ k < length structures)) /\
  linkParents (linkParents structures) = linkParents structures.
Proof.
  rewrite !linkParents_fmap. split; [apply length_fmap|]. split.
  - intros i s Hs. rewrite list_lookup_fmap, Hs. simpl. unfold linked.
    destruct (String.eqb _ _).
    { exists (ParentId s). rewrite setParentId_same. auto. }
    destruct (buildPathMap structures !! _) as [k|] eqn:Hk.
    + exists (Some k). split; [done|]. right. exists k. split; [done|].
      apply buildPathMap_Some in Hk as (s' & Hs' & _).
      by eapply lookup_lt_Some.
    + exists (ParentId s). rewrite setParentId_same. auto.
  - rewrite (buildPathMap_ext _ structures).
    + rewrite <- list_fmap_compose. apply list_fmap_ext.
      intros _ s _. apply linked_idem.
    + rewrite <- list_fmap_compose. apply list_fmap_ext.
      intros _ s _. apply linked_Path.
Qed.

Lemma linked_last (structures : list CfrStructure)
    (k : ref) (structure other : CfrStructure) :
  getParentPath (Path structure) <> "" ->
  structures !! k = Some other ->
  Path other = getParentPath (Path structure) ->
  exists last parent,
    linked (buildPathMap structures) structure
      = setParentId structure (Some last) /\
    structures !! last = Some parent /\
    Path parent = getParentPath (Path structure) /\
    k <= last.
Proof.
  intros Hne Hk Hp. unfold linked.
  destruct (String.eqb_spec (getParentPath (Path structure)) "");
    [done|].
  destruct (buildPathMap structures !! getParentPath (Path structure))
    as [last|] eqn:Hm.
  - destruct (buildPathMap_Some _ _ _ Hm) as (parent & Hl & Hq).
    exists last, parent. repeat (split; [done|]).
    by eapply buildPathMap_last.
  - assert (is_Some (buildPathMap structures
                       !! getParentPath (Path structure))) as [? ?].
    { apply buildPathMap_is_Some. exists other. split; [|done].
      by eapply list_elem_of_lookup_2. }
    congruence.
Qed.

(** X9.  When several records have the path a record's path is cut
    to, the record is linked to the last of them: the later entry
    replaced the earlier ones in [pathMap]. *)
Theorem linkParents_links_to_last (structures : list CfrStructure)
    (i k : ref) (structure other : CfrStructure) :
  structures !! i = Some structure ->
  getParentPath (Path structure) <> "" ->
  structures !! k = Some other ->
  Path other = getParentPath (Path structure) ->
  exists last parent,
    linkParents structures !! i
      = Some (setParentId structure (Some last)) /\
    structures !! last = Some parent /\
    Path parent = getParentPath (Path structure) /\
    k <= last.
Proof.
  intros Hs Hne Hk Hp.
  destruct (linked_last structures k structure other Hne Hk Hp)
    as (last & parent & Hlink & Hl & Hq & Hle).
  exists last, parent. split; [|done].
  by rewrite linkParents_lookup, Hs, <- Hlink.
Qed.
End ServiceMore.

Section ParseThenLink.
Context {lib : GoLib}.
Import xml data parser service preorder.

(** X10.  The linkage pass run on the records of a parse: a record
    whose identifier has no "/" either has no path prefix and stays
    without parent, or is linked to a record that has the path of
    the element it is nested in. *)
Theorem Parse_then_linkParents (p : CfrParser) (text : string) result :
  Parse p text = Some (inl result) ->
  forall i structure,
    Structures result !! i = Some structure ->
    hasSeparator (Identifier structure) = false ->
    (Path structure = Identifier structure /\
     linkParents (Structures result) !! i = Some structure) \/
    (exists j parent last other,
       j < i /\ Structures result !! j = Some parent /\
       Path parent <> "" /\
       Path structure = (Path parent +:+ "/") +:+ Identifier structure /\
       linkParents (Structures result) !! i
         = Some (setParentId structure (Some last)) /\
       j <= last /\
       Structures result !! last = Some other /\
       Path other = Path parent).
Proof.
  intros H i s Hi Hsep.
  apply ParseA_of_Parse in H as (nodes & H & Heq).
  assert (Hunlinked : Path s = Identifier s ->
            linkParents (Structures result) !! i = Some s).
  { intros Hp. rewrite linkParents_lookup, Hi. simpl. unfold linked.
    by rewrite Hp, getParentPath_no_separator. }
  pose proof Hi as Hn. unfold annotated in *.
  rewrite Heq, list_lookup_fmap in Hn.
  destruct (nodes !! i) as [[a s0]|] eqn:Hni; [|done].
  simpl in Hn. injection Hn as ->.
  destruct (ParseA_parent _ _ _ _ H _ _ _ Hni)
    as [Hp [->|(j & a' & parent & Hj & Hl & -> & Hp')]].
  - left. split; [|apply Hunlinked];
      rewrite Hp; unfold pathOf; simpl;
      by destruct (String.eqb (Identifier s) "") eqn:He;
        [apply String.eqb_eq in He|].
  - rewrite <- buildPath_pathOf, <- Hp' in Hp. unfold buildPath in Hp.
    assert (Hlj : Structures result !! j = Some parent).
    { rewrite Heq, list_lookup_fmap. unfold annotated in *.
      by rewrite Hl. }
    destruct (String.eqb_spec (Path parent) "") as [He|Hne].
    + left. rewrite He in Hp. auto.
    + right.
      assert (Hg : getParentPath (Path s) = Path parent).
      { apply getParentPath_truncated. by exists (Identifier s). }
      destruct (linked_last (Structures result) j s parent)
        as (last & other & Hlink & Hlast & Hq & Hle);
        [by rewrite Hg|done|done|].
      exists j, parent, last, other. rewrite Hg in *.
      repeat (split; [done|]). split; [|done].
      by rewrite linkParents_lookup, Hi, <- Hlink.
Qed.
End ParseThenLink.

Section DeliveryFacts.
Import concurrent delivery.
Context {T R : Type}.
Variable r : Runner.
Variable worker : WorkerFunc T R.
Variable items : list T.

Ltac open_state s :=
  destruct s as [m th sl wg mwg ws mr rr er mc rc ec lg rl el].

Lemma bind_insert_cons {A B} (f : A -> list B) (l : list A) (i : nat)
    (x y : A) (b : B) :
  l !! i = Some x -> f x = b :: f y ->
  l ≫= f ≡ₚ b :: (<[i := y]> l ≫= f).
Proof.
  revert i. induction l as [|a l IH]; intros i Hi Hf; [done|].
  destruct i as [|i]; simpl in Hi.
  - injection Hi as ->.
    change (<[0 := y]> (x :: l)) with (y :: l).
    by rewrite !bind_cons, Hf.
  - change (<[S i := y]> (a :: l)) with (a :: <[i := y]> l).
    rewrite !bind_cons, (IH i Hi Hf). by rewrite Permutation_middle.
Qed.

Lemma bind_insert_same {A B} (f : A -> list B) (l : list A) (i : nat)
    (x y : A) :
  l !! i = Some x -> f x = f y -> <[i := y]> l ≫= f = l ≫= f.
Proof.
  revert i. induction l as [|a l IH]; intros i Hi Hf; [done|].
  destruct i as [|i]; simpl in Hi.
  - injection Hi as ->.
    change (<[0 := y]> (x :: l)) with (y :: l).
    by rewrite !bind_cons, Hf.
  - change (<[S i := y]> (a :: l)) with (a :: <[i := y]> l).
    by rewrite !bind_cons, (IH i Hi Hf).
Qed.

Lemma bind_inactive {B} (f : list (Send R) -> list B)
    (ws : list (Goroutine (R:=R))) :
  f [] = [] -> sum_list_with isActive ws = 0 ->
  ws ≫= (fun g => f (scriptOf g)) = [].
Proof.
  intros Hf. induction ws as [|g ws IH]; [done|].
  rewrite bind_cons. cbn [sum_list_with]. intros H.
  destruct g; simpl in H; try lia. simpl scriptOf. rewrite Hf, IH; [done|lia].
Qed.

Lemma fmap_bind_list {A B C} (f : B -> C) (g : A -> list B) (l : list A) :
  f <$> (l ≫= g) = l ≫= (fun x => f <$> g x).
Proof.
  induction l as [|a l IH]; [done|].
  by rewrite !bind_cons, fmap_app, IH.
Qed.

Lemma inactive_Exited (ws : list (Goroutine (R:=R))) :
  sum_list_with isActive ws = 0 -> Forall (fun g => g = Exited) ws.
Proof.
  induction ws as [|g ws IH]; simpl; intros H; constructor.
  - destruct g; simpl in *; try lia. done.
  - apply IH. destruct g; simpl in *; lia.
Qed.

(** Every step keeps what is on its way on each channel. *)
Lemma step_inFlight s s' :
  Inv r worker items s -> step r worker s s' ->
  messagesInFlight r worker s' ≡ₚ messagesInFlight r worker s /\
  resultsInFlight worker s' ≡ₚ resultsInFlight worker s /\
  errorsInFlight worker s' ≡ₚ errorsInFlight worker s.
Proof.
  intros [_ _ _ _ _ _ Hph] [t H]. open_state s.
  unfold messagesInFlight, resultsInFlight, errorsInFlight, inFlight.
  destruct t as [|i| | |]; simpl in H.
  - unfold mainStep in H. simpl in H. unfold phaseInv in Hph. simpl in Hph.
    destruct m as [its|its|item rest|item rest| | | | | |res]; simpl in *.
    + injection Hph as -> -> -> -> -> -> -> -> -> -> -> -> -> -> ->.
      destruct items; injection H as <-; simpl; done.
    + destruct its; injection H as <-; simpl; done.
    + destruct th as [cap|].
      * destruct (sl <? cap); [|discriminate]. injection H as <-. done.
      * injection H as <-. done.
    + injection H as <-. simpl. rewrite !bind_app. simpl.
      rewrite !app_nil_r, <- !app_assoc. done.
    + destruct (wg =? 0); [|discriminate]. injection H as <-. done.
    + injection H as <-. done.
    + injection H as <-. done.
    + injection H as <-. done.
    + destruct (mwg =? 0); [|discriminate]. injection H as <-. done.
    + discriminate.
  - unfold workerStep in H. simpl in H.
    destruct (ws !! i) as [[[|[m0|x|e] rest]| | |]|] eqn:Hi; try discriminate.
    + injection H as <-. simpl.
      rewrite !(bind_insert_same _ _ _ _ _ Hi) by done. done.
    + destruct mc; [discriminate|]. destruct mr; try discriminate.
      injection H as <-. simpl.
      rewrite (bind_insert_same (fun g => resultsIn (scriptOf g)) _ _ _ _ Hi)
        by done.
      rewrite (bind_insert_same (fun g => errorsIn (scriptOf g)) _ _ _ _ Hi)
        by done.
      split; [|done].
      rewrite (bind_insert_cons (fun g => linesOf r (scriptOf g)) _ _ _
                                (Running rest) (logInfo r m0) Hi) by done.
      simpl. done.
    + destruct rc; [discriminate|]. destruct rr; try discriminate.
      injection H as <-. simpl.
      rewrite (bind_insert_same (fun g => linesOf r (scriptOf g)) _ _ _ _ Hi)
        by done.
      rewrite (bind_insert_same (fun g => errorsIn (scriptOf g)) _ _ _ _ Hi)
        by done.
      split; [done|]. split; [|done].
      rewrite (bind_insert_cons (fun g => resultsIn (scriptOf g)) _ _ _
                                (Running rest) x Hi) by done.
      simpl. done.
    + destruct ec; [discriminate|]. destruct er; try discriminate.
      injection H as <-. simpl.
      rewrite (bind_insert_same (fun g => linesOf r (scriptOf g)) _ _ _ _ Hi)
        by done.
      rewrite (bind_insert_same (fun g => resultsIn (scriptOf g)) _ _ _ _ Hi)
        by done.
      split; [done|]. split; [done|].
      rewrite (bind_insert_cons (fun g => errorsIn (scriptOf g)) _ _ _
                                (Running rest) e Hi) by done.
      simpl. done.
    + destruct th as [cap|].
      * destruct sl as [|n]; [discriminate|]. injection H as <-. simpl.
        rewrite !(bind_insert_same _ _ _ _ _ Hi) by done. done.
      * injection H as <-. simpl.
        rewrite !(bind_insert_same _ _ _ _ _ Hi) by done. done.
    + destruct wg as [|n]; [discriminate|]. injection H as <-. simpl.
      rewrite !(bind_insert_same _ _ _ _ _ Hi) by done. done.
  - unfold messagesStep in H. simpl in H.
    destruct mr as [| |x|]; try discriminate.
    + destruct mc; [|discriminate]. destruct mwg; [discriminate|].
      injection H as <-. done.
    + injection H as <-. simpl. rewrite <- !app_assoc. done.
  - unfold resultsStep in H. simpl in H.
    destruct rr as [| |x|]; try discriminate.
    + destruct rc; [|discriminate]. destruct mwg; [discriminate|].
      injection H as <-. done.
    + injection H as <-. simpl. rewrite <- !app_assoc. done.
  - unfold errorsStep in H. simpl in H.
    destruct er as [| |x|]; try discriminate.
    + destruct ec; [|discriminate]. destruct mwg; [discriminate|].
      injection H as <-. done.
    + injection H as <-. simpl. rewrite <- !app_assoc. done.
Qed.

Lemma reachable_inFlight s :
  reachable r worker items s ->
  messagesInFlight r worker s ≡ₚ logInfo r <$> allMessages worker items /\
  resultsInFlight worker s ≡ₚ allResults worker items /\
  errorsInFlight worker s ≡ₚ allErrors worker items.
Proof.
  unfold reachable. intros H.
  eapply (rtc_ind_r (fun s =>
    messagesInFlight r worker s ≡ₚ logInfo r <$> allMessages worker items /\
    resultsInFlight worker s ≡ₚ allResults worker items /\
    errorsInFlight worker s ≡ₚ allErrors worker items)); [| |exact H].
  - unfold messagesInFlight, resultsInFlight, errorsInFlight, inFlight,
      allMessages, allResults, allErrors, linesOf. simpl.
    split; [|done]. by rewrite fmap_bind_list.
  - intros s1 s2 Hs1 Hstep (IH1 & IH2 & IH3).
    destruct (step_inFlight s1 s2) as (H1 & H2 & H3);
      [by apply reachable_Inv|done|].
    by rewrite H1, H2, H3.
Qed.

Lemma returned_inFlight s result :
  Inv r worker items s -> main s = Returned result ->
  messagesInFlight r worker s = logged s /\
  resultsInFlight worker s = Results result /\
  errorsInFlight worker s = Errors result.
Proof.
  intros [Hwg _ Hco _ _ _ Hph] Hm. unfold phaseInv in Hph.
  rewrite Hm in *. simpl in *. destruct Hph as (_ & Hz & Hz' & -> & ->).
  assert (Hact : sum_list_with isActive (workers s) = 0) by lia.
  unfold messagesInFlight, resultsInFlight, errorsInFlight, inFlight.
  rewrite Hm. simpl.
  rewrite (bind_inactive (linesOf r)), (bind_inactive resultsIn),
    (bind_inactive errorsIn) by done.
  destruct (messagesRecv s), (resultsRecv s), (errorsRecv s);
    simpl in *; try lia; by rewrite !app_nil_r.
Qed.

(** X16.  A run of [Run] that has returned has lost and invented
    nothing: [Results] is, up to order, the values the workers sent
    on [results], [Errors] those sent on [errors], and the log is,
    up to order, the messages sent, each as "prefix: message". *)
Theorem Run_delivers_every_value (s : State T R) (result : RunResult R) :
  reachable r worker items s -> main s = Returned result ->
  Results result ≡ₚ allResults worker items /\
  Errors result ≡ₚ allErrors worker items /\
  logged s ≡ₚ
    (fun m => (LogPrefix (config r) +:+ ": ") +:+ m)
      <$> allMessages worker items.
Proof.
  intros Hs Hm.
  destruct (returned_inFlight s result) as (H1 & H2 & H3);
    [by apply reachable_Inv|done|].
  destruct (reachable_inFlight s Hs) as (P1 & P2 & P3).
  by rewrite <- H1, <- H2, <- H3.
Qed.

(** X18.  [Run] closes a channel only when every item has its
    goroutine and every goroutine has exited: no worker can send on
    a closed channel. *)
Theorem Run_closes_channels_after_workers (s : State T R) :
  reachable r worker items s ->
  messagesClosed s || resultsClosed s || errorsClosed s = true ->
  length (workers s) = length items /\
  Forall (fun g => g = Exited) (workers s) /\
  workersWg s = 0.
Proof.
  intros Hs Hc. apply reachable_Inv in Hs as [Hwg _ _ _ _ Hdi Hph].
  unfold phaseInv, closedFlags in Hph.
  destruct (main s) as [its|its|item rest|item rest| | | | | |res] eqn:Hm;
    simpl in *;
    try (destruct Hph as (_ & [= Hmc Hrc Hec] & _);
         rewrite Hmc, Hrc, Hec in Hc; discriminate);
    try (subst s; discriminate).
  all: try (destruct Hph as (_ & Hz & _);
            split; [lia|]; split; [apply inactive_Exited; lia|done]).
Qed.
End DeliveryFacts.

Section OrderFacts.
Import concurrent delivery order.
Context {T R : Type}.
Variable r : Runner.
Variable worker : WorkerFunc T R.
Variable items : list T.

Ltac open_state s :=
  destruct s as [m th sl wg mwg ws mr rr er mc rc ec lg rl el].

Lemma sentInOrder_send {A} (pick : list (Send R) -> list A)
    received (ws : list (Goroutine (R:=R))) i g g' x :
  ws !! i = Some g -> pick (scriptOf g) = x :: pick (scriptOf g') ->
  (forall k g0 item, ws !! k = Some g0 -> items !! k = Some item ->
     exists sent, pick (worker item) = sent ++ pick (scriptOf g0) /\
                  sent `sublist_of` received) ->
  forall k g0 item, <[i := g']> ws !! k = Some g0 -> items !! k = Some item ->
     exists sent, pick (worker item) = sent ++ pick (scriptOf g0) /\
                  sent `sublist_of` (received ++ [x]).
Proof.
  intros Hi Hp H k g0 item Hk Hit.
  destruct (decide (k = i)) as [->|Hne].
  - rewrite list_lookup_insert_eq in Hk by (by eapply lookup_lt_Some).
    injection Hk as <-.
    destruct (H _ _ _ Hi Hit) as (sent & Heq & Hsub).
    exists (sent ++ [x]). rewrite Heq, Hp, <- app_assoc. split; [done|].
    by apply sublist_app.
  - rewrite list_lookup_insert_ne in Hk by done.
    destruct (H _ _ _ Hk Hit) as (sent & Heq & Hsub).
    exists sent. split; [done|]. by apply sublist_inserts_r.
Qed.

Lemma Ordered_initial : Ordered r worker items (initial items).
Proof.
  constructor; [done|..]; intros i g item Hi; simpl in Hi;
    by rewrite lookup_nil in Hi.
Qed.

Lemma step_Ordered s s' :
  Inv r worker items s -> Ordered r worker items s ->
  step r worker s s' -> Ordered r worker items s'.
Proof.
  intros [_ _ _ _ _ Hdi Hph] [Hit Hom Hor Hoe] [t H]. open_state s.
  unfold sentInOrder in *. simpl in *.
  destruct t as [|i| | |]; simpl in H.
  - unfold mainStep in H. simpl in H. unfold phaseInv in Hph. simpl in Hph.
    destruct m as [its|its|item rest|item rest| | | | | |res]; simpl in *.
    + injection Hph as -> -> -> -> -> -> -> -> -> -> -> -> -> -> ->.
      destruct items; injection H as <-; constructor; unfold sentInOrder; simpl; try done;
        intros i g item Hi; by rewrite lookup_nil in Hi.
    + destruct its; injection H as <-; constructor; unfold sentInOrder; simpl; done.
    + destruct th as [cap|].
      * destruct (sl <? cap); [|discriminate]. injection H as <-.
        constructor; unfold sentInOrder; simpl; done.
      * injection H as <-. constructor; unfold sentInOrder; simpl; done.
    + injection H as <-.
      assert (Hitem : items !! length ws = Some item).
      { rewrite <- (Nat.add_0_r (length ws)), <- lookup_drop, Hit. done. }
      assert (Hnew : forall {A} (pick : list (Send R) -> list A) received,
        (forall i g item0, ws !! i = Some g -> items !! i = Some item0 ->
           exists sent, pick (worker item0) = sent ++ pick (scriptOf g) /\
                        sent `sublist_of` received) ->
        forall i g item0, (ws ++ [Running (worker item)]) !! i = Some g ->
           items !! i = Some item0 ->
           exists sent, pick (worker item0) = sent ++ pick (scriptOf g) /\
                        sent `sublist_of` received).
      { intros A pick received Hold i g item0 Hi Hi0.
        destruct (decide (i < length ws)) as [Hlt|Hge].
        - rewrite lookup_app_l in Hi by done. eauto.
        - rewrite lookup_app_r in Hi by lia.
          destruct (i - length ws) as [|n] eqn:Hn; [|done].
          injection Hi as <-. assert (i = length ws) as -> by lia.
          rewrite Hitem in Hi0. injection Hi0 as <-.
          exists []. split; [done|]. apply sublist_nil_l. }
      constructor; unfold sentInOrder; simpl.
      * rewrite length_app. simpl. by rewrite <- drop_drop, Hit.
      * by apply (Hnew _ (linesOf r)).
      * by apply (Hnew _ resultsIn).
      * by apply (Hnew _ errorsIn).
    + destruct (wg =? 0); [|discriminate]. injection H as <-.
      constructor; unfold sentInOrder; simpl; done.
    + injection H as <-. constructor; unfold sentInOrder; simpl; done.
    + injection H as <-. constructor; unfold sentInOrder; simpl; done.
    + injection H as <-. constructor; unfold sentInOrder; simpl; done.
    + destruct (mwg =? 0); [|discriminate]. injection H as <-.
      constructor; unfold sentInOrder; simpl; done.
    + discriminate.
  - unfold workerStep in H. simpl in H.
    assert (Hsame : forall g',
      ws !! i = Some g' -> forall g,
      linesOf r (scriptOf g) = linesOf r (scriptOf g') ->
      resultsIn (scriptOf g) = resultsIn (scriptOf g') ->
      errorsIn (scriptOf g) = errorsIn (scriptOf g') ->
      Ordered r worker items
        (mkState m th sl wg mwg (<[i := g]> ws) mr rr er mc rc ec lg rl el) /\
      forall sl' wg',
      Ordered r worker items
        (mkState m th sl' wg' mwg (<[i := g]> ws) mr rr er mc rc ec lg rl el)).
    { intros g' Hi g H1 H2 H3.
      assert (Hall : forall sl' wg', Ordered r worker items
        (mkState m th sl' wg' mwg (<[i := g]> ws) mr rr er mc rc ec lg rl el)).
      { intros sl' wg'. constructor; unfold sentInOrder; simpl.
        - by rewrite length_insert.
        - intros k g0 item Hk Hk0.
          destruct (decide (k = i)) as [->|Hne].
          + rewrite list_lookup_insert_eq in Hk by (by eapply lookup_lt_Some).
            injection Hk as <-. rewrite H1. eauto.
          + rewrite list_lookup_insert_ne in Hk by done. eauto.
        - intros k g0 item Hk Hk0.
          destruct (decide (k = i)) as [->|Hne].
          + rewrite list_lookup_insert_eq in Hk by (by eapply lookup_lt_Some).
            injection Hk as <-. rewrite H2. eauto.
          + rewrite list_lookup_insert_ne in Hk by done. eauto.
        - intros k g0 item Hk Hk0.
          destruct (decide (k = i)) as [->|Hne].
          + rewrite list_lookup_insert_eq in Hk by (by eapply lookup_lt_Some).
            injection Hk as <-. rewrite H3. eauto.
          + rewrite list_lookup_insert_ne in Hk by done. eauto. }
      split; [apply Hall|exact Hall]. }
    assert (Hkeep : forall {A} (pick : list (Send R) -> list A) received g g',
      ws !! i = Some g' -> pick (scriptOf g) = pick (scriptOf g') ->
      (forall k g0 item, ws !! k = Some g0 -> items !! k = Some item ->
         exists sent, pick (worker item) = sent ++ pick (scriptOf g0) /\
                      sent `sublist_of` received) ->
      forall k g0 item, <[i := g]> ws !! k = Some g0 ->
         items !! k = Some item ->
         exists sent, pick (worker item) = sent ++ pick (scriptOf g0) /\
                      sent `sublist_of` received).
    { intros A pick received g g' Hi Hp Hold k g0 item Hk Hk0.
      destruct (decide (k = i)) as [->|Hne].
      - rewrite list_lookup_insert_eq in Hk by (by eapply lookup_lt_Some).
        injection Hk as <-. rewrite Hp. eauto.
      - rewrite list_lookup_insert_ne in Hk by done. eauto. }
    destruct (ws !! i) as [[[|[m0|x|e] rest]| | |]|] eqn:Hi; try discriminate.
    + injection H as <-. by apply (Hsame _ eq_refl Releasing).
    + destruct mc; [discriminate|]. destruct mr; try discriminate.
      injection H as <-. constructor; unfold sentInOrder; simpl.
      * by rewrite length_insert.
      * eapply (sentInOrder_send (linesOf r)); [exact Hi|done|].
        intros k g0 item Hk Hk0. destruct (Hom _ _ _ Hk Hk0) as (sent & ? & ?).
        exists sent. by rewrite app_nil_r in *.
      * eapply (Hkeep _ resultsIn); [reflexivity|done|done].
      * eapply (Hkeep _ errorsIn); [reflexivity|done|done].
    + destruct rc; [discriminate|]. destruct rr; try discriminate.
      injection H as <-. constructor; unfold sentInOrder; simpl.
      * by rewrite length_insert.
      * eapply (Hkeep _ (linesOf r)); [reflexivity|done|done].
      * eapply (sentInOrder_send resultsIn); [exact Hi|done|].
        intros k g0 item Hk Hk0. destruct (Hor _ _ _ Hk Hk0) as (sent & ? & ?).
        exists sent. by rewrite app_nil_r in *.
      * eapply (Hkeep _ errorsIn); [reflexivity|done|done].
    + destruct ec; [discriminate|]. destruct er; try discriminate.
      injection H as <-. constructor; unfold sentInOrder; simpl.
      * by rewrite length_insert.
      * eapply (Hkeep _ (linesOf r)); [reflexivity|done|done].
      * eapply (Hkeep _ resultsIn); [reflexivity|done|done].
      * eapply (sentInOrder_send errorsIn); [exact Hi|done|].
        intros k g0 item Hk Hk0. destruct (Hoe _ _ _ Hk Hk0) as (sent & ? & ?).
        exists sent. by rewrite app_nil_r in *.
    + destruct th as [cap|].
      * destruct sl as [|n]; [discriminate|]. injection H as <-.
        by apply (Hsame _ eq_refl Finishing).
      * injection H as <-. by apply (Hsame _ eq_refl Finishing).
    + destruct wg as [|n]; [discriminate|]. injection H as <-.
      by apply (Hsame _ eq_refl Exited).
  - unfold messagesStep in H. simpl in H.
    destruct mr as [| |x|]; try discriminate.
    + destruct mc; [|discriminate]. destruct mwg; [discriminate|].
      injection H as <-. constructor; unfold sentInOrder; simpl; done.
    + injection H as <-. constructor; unfold sentInOrder; simpl; try done.
      intros k g0 item Hk Hk0. destruct (Hom _ _ _ Hk Hk0) as (sent & ? & ?).
      exists sent. by rewrite app_nil_r.
  - unfold resultsStep in H. simpl in H.
    destruct rr as [| |x|]; try discriminate.
    + destruct rc; [|discriminate]. destruct mwg; [discriminate|].
      injection H as <-. constructor; unfold sentInOrder; simpl; done.
    + injection H as <-. constructor; unfold sentInOrder; simpl; try done.
      intros k g0 item Hk Hk0. destruct (Hor _ _ _ Hk Hk0) as (sent & ? & ?).
      exists sent. by rewrite app_nil_r.
  - unfold errorsStep in H. simpl in H.
    destruct er as [| |x|]; try discriminate.
    + destruct ec; [|discriminate]. destruct mwg; [discriminate|].
      injection H as <-. constructor; unfold sentInOrder; simpl; done.
    + injection H as <-. constructor; unfold sentInOrder; simpl; try done.
      intros k g0 item Hk Hk0. destruct (Hoe _ _ _ Hk Hk0) as (sent & ? & ?).
      exists sent. by rewrite app_nil_r.
Qed.

Lemma reachable_Ordered s :
  reachable r worker items s -> Ordered r worker items s.
Proof.
  unfold reachable. intros H.
  eapply (rtc_ind_r (fun s => Ordered r worker items s));
    [apply Ordered_initial| |exact H].
  intros s1 s2 Hs1 Hstep IH.
  eapply step_Ordered; [by apply reachable_Inv|done..].
Qed.

(** X17.  What one worker sends on a channel arrives in the order
    sent: the results of an item are a subsequence of [Results], its
    errors of [Errors], its messages of the log. *)
Theorem Run_keeps_each_workers_order (s : State T R) (result : RunResult R)
    (i : nat) (item : T) :
  reachable r worker items s -> main s = Returned result ->
  items !! i = Some item ->
  resultsIn (worker item) `sublist_of` Results result /\
  errorsIn (worker item) `sublist_of` Errors result /\
  ((fun m => (LogPrefix (config r) +:+ ": ") +:+ m)
     <$> messagesIn (worker item)) `sublist_of` logged s.
Proof.
  intros Hs Hm Hi.
  pose proof (reachable_Ordered s Hs) as [_ Hom Hor Hoe].
  pose proof (reachable_Inv _ _ _ _ Hs) as [Hwg _ Hco _ _ Hdi Hph].
  unfold phaseInv in Hph. rewrite Hm in *. simpl in *.
  destruct Hph as (_ & Hz & Hz' & -> & ->).
  assert (Hact : sum_list_with isActive (workers s) = 0) by lia.
  apply inactive_Exited in Hact.
  destruct (lookup_lt_is_Some_2 (workers s) i) as [g Hg].
  { apply lookup_lt_Some in Hi. lia. }
  assert (g = Exited) as ->.
  { rewrite Forall_forall in Hact. apply Hact.
    by eapply list_elem_of_lookup_2. }
  destruct (Hom _ _ _ Hg Hi) as (s1 & E1 & S1).
  destruct (Hor _ _ _ Hg Hi) as (s2 & E2 & S2).
  destruct (Hoe _ _ _ Hg Hi) as (s3 & E3 & S3).
  simpl in *. unfold linesOf in E1. rewrite app_nil_r in E1, E2, E3.
  subst s1 s2 s3.
  destruct (messagesRecv s), (resultsRecv s), (errorsRecv s);
    simpl in *; try lia; by rewrite !app_nil_r in *.
Qed.
End OrderFacts.

Section FullConcurrency.
Import concurrent delivery.
Context {T R : Type}.
Variable r : Runner.
Variable worker : WorkerFunc T R.

Lemma dispatch_some (pre rest : list T) :
  forall sl wg ws,
    (forall capacity, makeThrottle r = Some capacity ->
                      sl + length pre <= capacity) ->
    rtc (step r worker)
      (mkState (Dispatch (pre ++ rest)) (makeThrottle r) sl wg 3 ws
               Receiving Receiving Receiving false false false [] [] [])
      (mkState (Dispatch rest) (makeThrottle r)
               (if makeThrottle r is Some _ then sl + length pre else sl)
               (wg + length pre) 3
               (ws ++ ((fun item => Running (worker item)) <$> pre))
               Receiving Receiving Receiving false false false [] [] []).
Proof.
  induction pre as [|item pre IH]; intros sl wg ws Hcap.
  - simpl. rewrite !Nat.add_0_r, app_nil_r.
    destruct (makeThrottle r); apply rtc_refl.
  - eapply rtc_l.
    { exists MainThread. simpl. unfold mainStep. simpl. reflexivity. }
    destruct (makeThrottle r) as [cap|] eqn:Hth.
    + specialize (Hcap cap eq_refl) as Hc. simpl in Hc.
      eapply rtc_l.
      { exists MainThread. simpl. unfold mainStep. simpl.
        destruct (Nat.ltb_spec sl cap); [reflexivity|lia]. }
      eapply rtc_l; [by exists MainThread|]. simpl.
      unfold set_workers, set_main, set_slots. simpl.
      specialize (IH (S sl) (S wg) (ws ++ [Running (worker item)])).
      rewrite <- app_assoc in IH. simpl in IH.
      replace (sl + S (length pre)) with (S sl + length pre) by lia.
      replace (wg + S (length pre)) with (S wg + length pre) by lia.
      apply IH. intros c [= <-]. lia.
    + eapply rtc_l; [by exists MainThread|].
      eapply rtc_l; [by exists MainThread|]. simpl.
      unfold set_workers, set_main. simpl.
      specialize (IH sl (S wg) (ws ++ [Running (worker item)])).
      rewrite <- app_assoc in IH. simpl in IH.
      replace (wg + S (length pre)) with (S wg + length pre) by lia.
      apply IH. done.
Qed.

(** X19.  The throttle is the only bound: for every k up to the
    number of items, and up to [MaxConcurrency] when that is
    positive, some run reaches a state in which k invocations of the
    worker are executing; with [MaxConcurrency] 0 or negative all
    items can run at once. *)
Theorem Run_reaches_full_concurrency (items : list T) (k : nat) :
  k <= length items ->
  ((0 < MaxConcurrency (config r))%Z ->
   (Z.of_nat k <= MaxConcurrency (config r))%Z) ->
  exists s, reachable r worker items s /\ executing s = k /\
            length (workers s) = k.
Proof.
  intros Hk Hmax. destruct k as [|k].
  { exists (initial items). split; [apply rtc_refl|done]. }
  destruct items as [|item items]; [simpl in Hk; lia|].
  pose proof (take_drop (S k) (item :: items)) as Hsplit.
  eexists. split.
  - eapply rtc_l; [by exists MainThread|]. simpl.
    rewrite <- Hsplit.
    apply (dispatch_some (take (S k) (item :: items)) _ 0 0 []).
    intros cap Hcap. rewrite length_take. unfold makeThrottle in Hcap.
    destruct (Z.ltb_spec 0 (MaxConcurrency (config r))); [|done].
    injection Hcap as <-. lia.
  - assert (Hl : length (take (S k) (item :: items)) = S k)
      by (rewrite length_take; lia).
    unfold executing. cbn [workers app].
    rewrite length_fmap, Hl. split; [|done]. rewrite <- Hl at 2.
    generalize (take (S k) (item :: items)). intros l.
    induction l as [|a l IH]; [done|].
    rewrite fmap_cons. cbn [sum_list_with isRunning length]. by rewrite IH.
Qed.

End FullConcurrency.

Section CallbackFacts.
Import concurrent delivery callbacks.
Context {T R : Type}.
Variable r : Runner.
Variable worker : WorkerFunc T R.
Variable cb : Callbacks.
Variable items : list T.

Ltac open_state s :=
  destruct s as [m th sl wg mwg ws mr rr er mc rc ec lg rl el].

Lemma mainStep_forget (s : State T R) :
  mainStep r worker (forget s) = forget <$> mainStep r worker s.
Proof.
  open_state s. unfold mainStep, forget. simpl.
  destruct m as [[|]|[|]| | | | | | | |]; simpl; try reflexivity.
  - destruct th as [cap|]; [|reflexivity].
    by destruct (sl <? cap).
  - by destruct (wg =? 0).
  - by destruct (mwg =? 0).
Qed.

Lemma workerStep_forget (i : nat) (s : State T R) :
  workerStep i (forget s) = forget <$> workerStep i s.
Proof.
  open_state s. unfold workerStep, forget. simpl.
  destruct (ws !! i) as [[[|[m0|x|e] rest]| | |]|]; simpl; try reflexivity.
  - destruct mc; [reflexivity|]. by destruct mr.
  - destruct rc; [reflexivity|]. by destruct rr.
  - destruct ec; [reflexivity|]. by destruct er.
  - destruct th; [|reflexivity]. by destruct sl.
  - by destruct wg.
Qed.

Lemma called_snoc (given : bool) (c : Call R) (calls : list (Call R)) :
  messagesCalled (call given c calls)
  = messagesCalled calls
    ++ (if given then messagesCalled [c] else []) /\
  resultsCalled (call given c calls)
  = resultsCalled calls ++ (if given then resultsCalled [c] else []) /\
  errorsCalled (call given c calls)
  = errorsCalled calls ++ (if given then errorsCalled [c] else []).
Proof.
  unfold call, messagesCalled, resultsCalled, errorsCalled.
  destruct given; rewrite ?omap_app, ?app_nil_r; done.
Qed.

(** Every step of [RunWithCallbacks] is a step of [Run]. *)
Lemma stepCb_follows st st' s :
  Inv r worker items s ->
  stepCb r worker cb st st' -> follows r cb st s ->
  exists s', step r worker s s' /\ follows r cb st' s'.
Proof.
  intros [_ _ _ _ _ _ Hph] [t H] (Hf & Hr & He & Hm).
  destruct st as [s0 calls]. simpl in *. subst s0.
  destruct t as [|i| | |]; simpl in H.
  - unfold mainStepCb in H. simpl in H. rewrite mainStep_forget in H.
    destruct (mainStep r worker s) as [s1|] eqn:Hs; [|discriminate].
    simpl in H. injection H as <-. exists s1.
    split; [by exists MainThread|].
    split; [done|]. simpl.
    open_state s. unfold mainStep in Hs. unfold phaseInv in Hph.
    simpl in *.
    destruct m as [[|]|[|]| | | | | | | |]; simpl in *;
      try (injection Hs as <-; done); try discriminate.
    + injection Hph; intros; subst. injection Hs as <-. done.
    + destruct th as [cap|].
      * destruct (sl <? cap); [|discriminate]. injection Hs as <-. done.
      * injection Hs as <-. done.
    + destruct (wg =? 0); [|discriminate]. injection Hs as <-. done.
    + destruct (mwg =? 0); [|discriminate]. injection Hs as <-. done.
  - unfold workerStepCb in H. simpl in H. rewrite workerStep_forget in H.
    destruct (workerStep i s) as [s1|] eqn:Hs; [|discriminate].
    simpl in H. injection H as <-. exists s1.
    split; [by exists (WorkerThread i)|].
    split; [done|]. simpl.
    open_state s. unfold workerStep in Hs. simpl in *.
    destruct (ws !! i) as [[[|[m0|x|e] rest]| | |]|]; try discriminate.
    + injection Hs as <-. done.
    + destruct mc; [discriminate|]. destruct mr; try discriminate.
      injection Hs as <-. done.
    + destruct rc; [discriminate|]. destruct rr; try discriminate.
      injection Hs as <-. done.
    + destruct ec; [discriminate|]. destruct er; try discriminate.
      injection Hs as <-. done.
    + destruct th as [cap|].
      * destruct sl; [discriminate|]. injection Hs as <-. done.
      * injection Hs as <-. done.
    + destruct wg; [discriminate|]. injection Hs as <-. done.
  - unfold messagesStepCb in H. open_state s. simpl in *.
    destruct mr as [| |x|]; try discriminate.
    + destruct mc; [|discriminate]. destruct mwg as [|n]; [discriminate|].
      injection H as <-. eexists. split; [by exists MessagesThread|].
      split; [reflexivity|]. done.
    + injection H as <-. eexists. split; [by exists MessagesThread|].
      split; [reflexivity|]. simpl.
      destruct (called_snoc (onMessage cb) (OnMessage x) calls)
        as (-> & -> & ->).
      rewrite fmap_app, Hm, Hr, He.
      destruct (onMessage cb); simpl; by rewrite !app_nil_r.
  - unfold resultsStepCb in H. open_state s. simpl in *.
    destruct rr as [| |x|]; try discriminate.
    + destruct rc; [|discriminate]. destruct mwg as [|n]; [discriminate|].
      injection H as <-. eexists. split; [by exists ResultsThread|].
      split; [reflexivity|]. done.
    + injection H as <-. eexists. split; [by exists ResultsThread|].
      split; [reflexivity|]. simpl.
      destruct (called_snoc (onResult cb) (OnResult x) calls)
        as (-> & -> & ->).
      rewrite fmap_app, Hm, Hr, He.
      destruct (onResult cb); simpl; by rewrite !app_nil_r.
  - unfold errorsStepCb in H. open_state s. simpl in *.
    destruct er as [| |x|]; try discriminate.
    + destruct ec; [|discriminate]. destruct mwg as [|n]; [discriminate|].
      injection H as <-. eexists. split; [by exists ErrorsThread|].
      split; [reflexivity|]. done.
    + injection H as <-. eexists. split; [by exists ErrorsThread|].
      split; [reflexivity|]. simpl.
      destruct (called_snoc (onError cb) (OnError x) calls)
        as (-> & -> & ->).
      rewrite fmap_app, Hm, Hr, He.
      destruct (onError cb); simpl; by rewrite !app_nil_r.
Qed.

(** Every step of [Run] is a step of [RunWithCallbacks]. *)
Lemma step_followed st s s' :
  step r worker s s' -> follows r cb st s ->
  exists st', stepCb r worker cb st st'.
Proof.
  intros [t H] (Hf & _). destruct st as [s0 calls]. simpl in Hf. subst s0.
  destruct t as [|i| | |]; simpl in H.
  - eexists. exists MainThread. simpl. unfold mainStepCb. simpl.
    by rewrite mainStep_forget, H.
  - eexists. exists (WorkerThread i). simpl. unfold workerStepCb. simpl.
    by rewrite workerStep_forget, H.
  - open_state s. unfold messagesStep in H. simpl in H.
    destruct mr as [| |x|]; try discriminate.
    + destruct mc; [|discriminate]. destruct mwg as [|n]; [discriminate|].
      eexists. by exists MessagesThread.
    + eexists. by exists MessagesThread.
  - open_state s. unfold resultsStep in H. simpl in H.
    destruct rr as [| |x|]; try discriminate.
    + destruct rc; [|discriminate]. destruct mwg as [|n]; [discriminate|].
      eexists. by exists ResultsThread.
    + eexists. by exists ResultsThread.
  - open_state s. unfold errorsStep in H. simpl in H.
    destruct er as [| |x|]; try discriminate.
    + destruct ec; [|discriminate]. destruct mwg as [|n]; [discriminate|].
      eexists. by exists ErrorsThread.
    + eexists. by exists ErrorsThread.
Qed.

Lemma reachableCb_follows st :
  reachableCb r worker cb items st ->
  exists s, reachable r worker items s /\ follows r cb st s.
Proof.
  unfold reachableCb. intros H.
  eapply (rtc_ind_r (fun st =>
            exists s, reachable r worker items s /\ follows r cb st s));
    [| |exact H].
  - exists (initial items). split; [apply rtc_refl|].
    repeat split; simpl; by destruct (_ cb).
  - intros st1 st2 _ Hstep (s & Hs & Hf).
    destruct (stepCb_follows st1 st2 s) as (s' & Hs' & Hf');
      [by apply reachable_Inv|done..|].
    exists s'. split; [|done]. eapply rtc_r; eauto.
Qed.

Lemma logInfo_inj (m1 m2 : string) : logInfo r m1 = logInfo r m2 -> m1 = m2.
Proof.
  unfold logInfo. generalize (LogPrefix (config r) +:+ ": "). intros p.
  induction p as [|c p IH]; simpl; [done|]. intros [= H]. by apply IH.
Qed.

Lemma fmap_logInfo_Permutation (l1 l2 : list string) :
  logInfo r <$> l1 ≡ₚ logInfo r <$> l2 -> l1 ≡ₚ l2.
Proof.
  intros H. apply Permutation_map_inv in H as (l3 & Heq & Hp).
  assert (l1 = l3) as ->; [|by symmetry].
  clear Hp. revert l3 Heq.
  induction l1 as [|a l1 IH]; intros [|b l3] Heq; try done.
  injection Heq as Ha Hl. apply logInfo_inj in Ha as ->.
  f_equal. by apply IH.
Qed.

(** X29.  [RunWithCallbacks] with any of its callbacks nil: when it
    has returned, each callback that was given has been called with
    the values sent on its channel, each once (up to order), a nil
    callback has not been called, and every message has been logged,
    with or without [onMessage]; and it does return: a state that
    has not returned can take a step, and every step lowers
    [stepsLeft]. *)
Theorem RunWithCallbacks_calls_each_value_once :
  (forall st, reachableCb r worker cb items st ->
     returned st ->
     resultsCalled (snd st)
       ≡ₚ (if onResult cb then allResults worker items else []) /\
     errorsCalled (snd st)
       ≡ₚ (if onError cb then allErrors worker items else []) /\
     messagesCalled (snd st)
       ≡ₚ (if onMessage cb then allMessages worker items else []) /\
     logged (fst st) ≡ₚ logInfo r <$> allMessages worker items) /\
  (forall st, reachableCb r worker cb items st ->
     returned st \/ exists st', stepCb r worker cb st st') /\
  (forall st st', stepCb r worker cb st st' ->
     stepsLeft worker (fst st') < stepsLeft worker (fst st)).
Proof.
  split; [|split].
  - intros st Hst [result Hm].
    destruct (reachableCb_follows st Hst) as (s & Hs & Hf & Hr & He & Hl).
    assert (Hret : exists res, main s = Returned res).
    { rewrite Hf in Hm. simpl in Hm. destruct (main s); try discriminate.
      eauto. }
    destruct Hret as [res Hres].
    destruct (returned_inFlight r worker items s res) as (H1 & H2 & H3);
      [by apply reachable_Inv|done|].
    destruct (reachable_inFlight r worker items s Hs) as (P1 & P2 & P3).
    rewrite H1 in P1. rewrite H2 in P2. rewrite H3 in P3.
    pose proof (reachable_Inv _ _ _ _ Hs) as [_ _ _ _ _ _ Hph].
    unfold phaseInv in Hph. rewrite Hres in Hph.
    destruct Hph as (_ & _ & _ & Hrl & Hel).
    rewrite Hr, He, Hf. simpl.
    split; [destruct (onResult cb); [by rewrite <- Hrl|done]|].
    split; [destruct (onError cb); [by rewrite <- Hel|done]|].
    split; [|done].
    destruct (onMessage cb).
    + apply fmap_logInfo_Permutation. by rewrite Hl.
    + by destruct (messagesCalled (snd st)).
  - intros st Hst.
    destruct (reachableCb_follows st Hst) as (s & Hs & Hf).
    destruct (Inv_progress r worker items s) as [[res Hres]|[s' Hstep]];
      [by apply reachable_Inv| |].
    + left. exists (mkRunResult [] []). destruct Hf as [-> _]. simpl.
      by rewrite Hres.
    + right. by eapply step_followed.
  - intros [s calls] [s' calls'] [t H].
    destruct t as [|i| | |]; simpl in *.
    + unfold mainStepCb in H. simpl in H.
      destruct (mainStep r worker s) as [s1|] eqn:Hs; [|discriminate].
      injection H as <- _. apply (step_decreases r worker).
      by exists MainThread.
    + unfold workerStepCb in H. simpl in H.
      destruct (workerStep i s) as [s1|] eqn:Hs; [|discriminate].
      injection H as <- _. apply (step_decreases r worker).
      by exists (WorkerThread i).
    + unfold messagesStepCb in H. open_state s. simpl in H.
      unfold stepsLeft.
      destruct mr as [| |x|]; try discriminate.
      * destruct mc; [|discriminate]. destruct mwg; [discriminate|].
        injection H as <- _. simpl. lia.
      * injection H as <- _. simpl. lia.
    + unfold resultsStepCb in H. open_state s. simpl in H.
      unfold stepsLeft.
      destruct rr as [| |x|]; try discriminate.
      * destruct rc; [|discriminate]. destruct mwg; [discriminate|].
        injection H as <- _. simpl. lia.
      * injection H as <- _. simpl. lia.
    + unfold errorsStepCb in H. open_state s. simpl in H.
      unfold stepsLeft.
      destruct er as [| |x|]; try discriminate.
      * destruct ec; [|discriminate]. destruct mwg; [discriminate|].
        injection H as <- _. simpl. lia.
      * injection H as <- _. simpl. lia.
Qed.
End CallbackFacts.

Section FmtFacts.
Import fmt.

Lemma Sprintf_d_inj (a b : Z) : Sprintf_d a = Sprintf_d b -> a = b.
Proof.
  unfold Sprintf_d. intros H. apply DecimalZ.to_int_inj.
  assert (Hn : forall z, Z.to_int z <> Decimal.Pos Decimal.Nil /\
                         Z.to_int z <> Decimal.Neg Decimal.Nil).
  { intros [|p|p]; simpl; split; try discriminate;
      intros [= Hp]; by apply Unsigned.to_uint_nonnil in Hp. }
  destruct (Hn a) as [Ha1 Ha2]. destruct (Hn b) as [Hb1 Hb2].
  pose proof (NilZero.isi _ Ha1 Ha2) as Ea.
  pose proof (NilZero.isi _ Hb1 Hb2) as Eb.
  rewrite H in Ea. rewrite Ea in Eb. by injection Eb.
Qed.
End FmtFacts.

Section TitleFilter.
Import fmt cfrStructureService.

Lemma buildFilterMap_fold (l : list string) (m : gmap string bool) (k : string) :
  default false (fold_left (fun (filterMap : gmap string bool) t =>
                              <[t := true]> filterMap) l m !! k)
  = bool_decide (k ∈ l) || default false (m !! k).
Proof.
  revert m. induction l as [|t l IH]; intros m; simpl; [done|].
  rewrite IH. destruct (decide (t = k)) as [->|Hne].
  - rewrite lookup_insert_eq. simpl.
    rewrite (bool_decide_eq_true_2 (k ∈ k :: l)) by left.
    by rewrite orb_true_r.
  - rewrite lookup_insert_ne by done.
    destruct (decide (k ∈ l)) as [Hin|Hnin].
    + rewrite !bool_decide_eq_true_2; [done|by right|done].
    + rewrite !bool_decide_eq_false_2; [done| |done].
      intros [?|?]%elem_of_cons; congruence.
Qed.

Lemma filterLookup_spec (titlesFilter : list string) (k : string) :
  filterLookup (buildFilterMap titlesFilter) k = bool_decide (k ∈ titlesFilter).
Proof.
  unfold filterLookup, buildFilterMap. rewrite buildFilterMap_fold.
  rewrite lookup_empty. simpl. apply orb_false_r.
Qed.

Lemma fold_append_filter {A} (keep : A -> bool) (l acc : list A) :
  fold_left (fun out x => if keep x then out ++ [x] else out) l acc
  = acc ++ List.filter keep l.
Proof.
  revert acc. induction l as [|x l IH]; intros acc; simpl.
  - by rewrite app_nil_r.
  - rewrite IH. destruct (keep x); [|done]. by rewrite <- app_assoc.
Qed.

(** X13.  The title filter of [ProcessAllTitles]: an empty filter
    keeps every title; a filter that is not empty keeps, in their
    order, the titles whose number in decimal is one of its entries;
    the filter made of the numeral of n keeps the titles numbered n. *)
Theorem filterTitles_selects (titlesFilter : list string)
    (titles : list Title) :
  (titlesFilter = [] -> filterTitles titlesFilter titles = titles) /\
  (titlesFilter <> [] ->
   filterTitles titlesFilter titles
   = List.filter
       (fun title => bool_decide (Sprintf_d (Name title) ∈ titlesFilter))
       titles) /\
  (forall n, titlesFilter = [Sprintf_d n] ->
   filterTitles titlesFilter titles
   = List.filter (fun title => Z.eqb (Name title) n) titles).
Proof.
  assert (Hne : titlesFilter <> [] ->
    filterTitles titlesFilter titles
    = List.filter
        (fun title => bool_decide (Sprintf_d (Name title) ∈ titlesFilter))
        titles).
  { intros Hne. unfold filterTitles.
    destruct titlesFilter as [|t l]; [done|]. cbn [length Nat.ltb Nat.leb].
    rewrite fold_append_filter. simpl.
    induction titles as [|x xs IH]; [done|]. simpl.
    by rewrite filterLookup_spec, IH. }
  split; [by intros ->|]. split; [exact Hne|].
  intros n ->. rewrite Hne by done. clear Hne.
  induction titles as [|x xs IH]; [done|]. simpl. rewrite IH.
  destruct (Z.eqb_spec (Name x) n) as [->|Hn].
  - by rewrite bool_decide_eq_true_2 by left.
  - rewrite bool_decide_eq_false_2; [done|].
    intros [H|H]%elem_of_cons; [|by apply elem_of_nil in H].
    by apply Sprintf_d_inj in H.
Qed.
End TitleFilter.

Section ProcessTitle.
Import xml data parser service concurrent fmt cfrStructureService.
Context {lib : GoLib}.

Lemma processTitle_returns (dao : Dao) (title : Title) :
  exists calls err, processTitle dao title = Some (calls, err).
Proof.
  unfold processTitle.
  destruct (GetContent dao (Name title)) as [content|e]; [|eauto].
  destruct (Parse_returns
              (NewCfrParser (InternalId title) (Name title)) content)
    as [[result|e] ->]; [|eauto].
  destruct (DeleteByTitleId dao (InternalId title)); [eauto|].
  destruct (0 <? length (Structures result)); [|eauto].
  destruct (BatchInsert dao _); eauto.
Qed.

(** X11.  For a title whose stored content is malformed,
    [processTitle] returns the parser's error wrapped in "failed to
    parse XML" and has made no call but [GetContent]: nothing is
    deleted or inserted. *)
Theorem processTitle_rejects_malformed_before_deleting
    (dao : Dao) (title : Title) (xmlContent : string) :
  GetContent dao (Name title) = inl xmlContent ->
  malformed (NewDecoder xmlContent) ->
  exists msg,
    processTitle dao title
    = Some ([CallGetContent (Name title)],
            Some (Errorf "failed to parse XML: %w"
                    (parserError (parser.Errorf "error parsing XML: %w"
                                                (SyntaxError msg))))).
Proof.
  intros Hc Hm. unfold processTitle. rewrite Hc.
  destruct (Parse_returns
              (NewCfrParser (InternalId title) (Name title)) xmlContent)
    as [r Hr].
  rewrite Hr.
  destruct (parseLoop_malformed _ _ _ _ _ _ Hr Hm) as [msg ->].
  by exists msg.
Qed.

(** X12.  When [processTitle] calls [BatchInsert], it has called
    [GetContent] and [DeleteByTitleId] before and nothing else; the
    list inserted is not empty, each of its records carries the
    title's [InternalId] and [Name] and has [InternalId] 0, and a
    [ParentId] in it points at the [InternalId], which is 0, of a
    record of the list whose path is the record's parent path. *)
Theorem processTitle_inserts_linked_records (dao : Dao) (title : Title)
    calls err structures :
  processTitle dao title = Some (calls, err) ->
  CallBatchInsert structures ∈ calls ->
  calls = [CallGetContent (Name title);
           CallDeleteByTitleId (InternalId title);
           CallBatchInsert structures] /\
  structures <> [] /\
  (forall structure, structure ∈ structures ->
     TitleId structure = InternalId title /\
     TitleNumber structure = Name title /\
     data.InternalId structure = 0%Z) /\
  (forall structure k, structure ∈ structures ->
     ParentId structure = Some k ->
     exists parent,
       structures !! k = Some parent /\
       data.InternalId parent = 0%Z /\
       Path parent = getParentPath (Path structure)).
Proof.
  unfold processTitle.
  destruct (GetContent dao (Name title)) as [content|e].
  2: { intros [= <- _] Hin. apply list_elem_of_singleton in Hin.
       discriminate. }
  destruct (Parse (NewCfrParser (InternalId title) (Name title)) content)
    as [[result|e]|] eqn:HP; [| |discriminate].
  2: { intros [= <- _] Hin. apply list_elem_of_singleton in Hin.
       discriminate. }
  assert (Hprov : Forall (fun s =>
            TitleId s = InternalId title /\ TitleNumber s = Name title /\
            data.InternalId s = 0%Z /\ ParentId s = None)
            (Structures result)).
  { eapply (parseLoop_Forall _ _ _ _ _ _ _ _ HP). constructor.
    Unshelve. intros attrs name pp h tc. simpl. auto. }
  assert (Hcalls : forall c1 c2 : Call,
            CallBatchInsert structures ∈ [c1; c2] ->
            CallBatchInsert structures = c1 \/ CallBatchInsert structures = c2).
  { intros c1 c2 [?|[?|H]%elem_of_cons]%elem_of_cons; auto.
    by apply elem_of_nil in H. }
  destruct (DeleteByTitleId dao (InternalId title)).
  { intros [= <- _] Hin. apply Hcalls in Hin as [?|?]; discriminate. }
  destruct (Nat.ltb_spec 0 (length (Structures result))) as [Hlen|Hlen].
  2: { intros [= <- _] Hin. apply Hcalls in Hin as [?|?]; discriminate. }
  intros H Hin.
  assert (Hs : structures = linkParents (Structures result)).
  { destruct (BatchInsert dao _); injection H as <- _;
      apply elem_of_cons in Hin as [?|Hin]; try discriminate;
      apply Hcalls in Hin as [?|Hin]; try discriminate;
      by injection Hin. }
  assert (Hc : calls = [CallGetContent (Name title);
                        CallDeleteByTitleId (InternalId title);
                        CallBatchInsert structures]).
  { rewrite Hs. by destruct (BatchInsert dao _); injection H as <- _. }
  split; [exact Hc|]. clear H Hin Hc Hcalls. subst structures.
  rewrite Forall_forall in Hprov.
  assert (Hlinked : forall s', s' ∈ linkParents (Structures result) ->
            exists s, s ∈ Structures result /\
              s' = linked (buildPathMap (Structures result)) s).
  { intros s' [i Hi]%list_elem_of_lookup.
    rewrite linkParents_lookup in Hi.
    destruct (Structures result !! i) as [s|] eqn:Hs; [|done].
    injection Hi as <-. exists s. split; [|done].
    by eapply list_elem_of_lookup_2. }
  assert (Hkeep : forall pm s,
            TitleId (linked pm s) = TitleId s /\
            TitleNumber (linked pm s) = TitleNumber s /\
            data.InternalId (linked pm s) = data.InternalId s /\
            Path (linked pm s) = Path s).
  { intros pm s. unfold linked. destruct (String.eqb _ _); [done|].
    by destruct (pm !! _). }
  split; [|split].
  - intros Hnil. apply (f_equal length) in Hnil.
    rewrite linkParents_fmap, length_fmap in Hnil. simpl in Hnil. lia.
  - intros s' (s & Hs & ->)%Hlinked.
    destruct (Hkeep (buildPathMap (Structures result)) s) as (-> & -> & -> & _).
    destruct (Hprov s Hs) as (? & ? & ? & _). done.
  - intros s' k (s & Hs & ->)%Hlinked Hk.
    destruct (Hprov s Hs) as (_ & _ & _ & Hnone).
    destruct (Hkeep (buildPathMap (Structures result)) s) as (_ & _ & _ & ->).
    unfold linked in Hk. destruct (String.eqb _ _); [congruence|].
    destruct (buildPathMap (Structures result) !! _) as [k'|] eqn:Hm;
      [|congruence].
    simpl in Hk. injection Hk as ->.
    destruct (buildPathMap_Some _ _ _ Hm) as (parent & Hp & Hq).
    exists (linked (buildPathMap (Structures result)) parent).
    rewrite linkParents_lookup, Hp. split; [done|].
    destruct (Hkeep (buildPathMap (Structures result)) parent)
      as (_ & _ & -> & ->).
    split; [|done]. apply (Hprov parent). by eapply list_elem_of_lookup_2.
Qed.
End ProcessTitle.

Section ProcessAllTitles.
Import xml data parser service concurrent delivery order fmt cfrStructureService.
Context {lib : GoLib}.
Variable ErrorString : error -> string.

Local Abbreviation worker := (worker ErrorString).

Lemma bind_if_singleton {A B} (b : A -> bool) (f : A -> B) (l : list A) :
  l ≫= (fun x => if b x then [f x] else []) = f <$> List.filter b l.
Proof.
  induction l as [|x l IH]; [done|]. rewrite bind_cons, IH. simpl.
  by destruct (b x).
Qed.

Lemma bind_option_singleton {A B} (f : A -> option B) (l : list A) :
  l ≫= (fun x => match f x with Some y => [y] | None => [] end) = omap f l.
Proof.
  induction l as [|x l IH]; [done|]. rewrite bind_cons, IH. simpl.
  by destruct (f x).
Qed.

(** X14.  In every run of the runner of [ProcessAllTitles] that has
    returned, [Results] holds "Title n" once for each title
    [processTitle] returned nil for, [Errors] holds the wrapped
    error once for each other title, and the two lengths add up to
    the number of titles. *)
Theorem ProcessAllTitles_reports_each_title
    (items : list (Title * Dao)) s result :
  reachable runner worker items s ->
  main s = Returned result ->
  Results result ≡ₚ
    (fun item => "Title " +:+ Sprintf_d (Name (fst item)))
      <$> List.filter succeeds items /\
  Errors result ≡ₚ
    omap (fun item =>
            (fun err =>
               ErrorString
                 (Errorf (("title " +:+ Sprintf_d (Name (fst item))) +:+ ": %w")
                         err)) <$> failure item) items /\
  length (Results result) + length (Errors result) = length items.
Proof.
  intros Hs Hm.
  destruct (returned_inFlight runner worker items s result)
    as (_ & H2 & H3); [by apply reachable_Inv|done|].
  destruct (reachable_inFlight runner worker items s Hs) as (_ & P2 & P3).
  rewrite H2 in P2. rewrite H3 in P3.
  assert (E2 : allResults worker items
    = (fun item => "Title " +:+ Sprintf_d (Name (fst item)))
        <$> List.filter succeeds items).
  { rewrite <- bind_if_singleton. unfold allResults.
    apply list_bind_ext; [|done]. intros [title dao].
    unfold cfrStructureService.worker, succeeds. simpl.
    destruct (processTitle_returns dao title) as (calls & [e|] & ->); done. }
  assert (E3 : allErrors worker items
    = omap (fun item =>
        (fun err =>
           ErrorString
             (Errorf (("title " +:+ Sprintf_d (Name (fst item))) +:+ ": %w")
                     err)) <$> failure item) items).
  { rewrite <- bind_option_singleton. unfold allErrors.
    apply list_bind_ext; [|done]. intros [title dao].
    unfold cfrStructureService.worker, failure. simpl.
    destruct (processTitle_returns dao title) as (calls & [e|] & ->); done. }
  rewrite E2 in P2. rewrite E3 in P3.
  split; [exact P2|]. split; [exact P3|].
  rewrite P2, P3, length_fmap. clear.
  induction items as [|[title dao] l IH]; [done|].
  simpl. unfold succeeds, failure in *. simpl.
  destruct (processTitle_returns dao title) as (calls & [e|] & ->);
    simpl; rewrite <- IH, ?Nat.add_succ_r; reflexivity.
Qed.

(** X15.  In every such run the log has, for each title, the line
    "CFR Structure Parser: Processing: Title n" and after it the
    line of its outcome, "Success: Title n" or "Failed: Title n - "
    with the error. *)
Theorem ProcessAllTitles_logs_each_title_in_order
    (items : list (Title * Dao)) s result i title dao :
  reachable runner worker items s ->
  main s = Returned result ->
  items !! i = Some (title, dao) ->
  exists outcome,
    ["CFR Structure Parser: Processing: Title " +:+ Sprintf_d (Name title);
     "CFR Structure Parser: " +:+ outcome] `sublist_of` logged s /\
    (if succeeds (title, dao)
     then outcome = "Success: Title " +:+ Sprintf_d (Name title)
     else exists err,
       failure (title, dao) = Some err /\
       outcome = (("Failed: Title " +:+ Sprintf_d (Name title)) +:+ " - ")
                 +:+ ErrorString err).
Proof.
  intros Hs Hm Hi.
  pose proof (reachable_Ordered _ _ _ s Hs) as [_ Hom _ _].
  pose proof (reachable_Inv _ _ _ _ Hs) as [Hwg _ Hco _ _ Hdi Hph].
  unfold phaseInv in Hph. rewrite Hm in *. simpl in *.
  destruct Hph as (_ & Hz & Hz' & _ & _).
  assert (Hact : sum_list_with isActive (workers s) = 0) by lia.
  apply inactive_Exited in Hact.
  destruct (lookup_lt_is_Some_2 (workers s) i) as [g Hg].
  { apply lookup_lt_Some in Hi. lia. }
  assert (g = Exited) as ->.
  { rewrite Forall_forall in Hact. apply Hact.
    by eapply list_elem_of_lookup_2. }
  destruct (Hom _ _ _ Hg Hi) as (sent & E & S).
  simpl in E. unfold linesOf in E. rewrite app_nil_r in E. subst sent.
  assert (Hheld : heldBy (messagesRecv s) = []).
  { destruct (messagesRecv s), (resultsRecv s), (errorsRecv s);
      simpl in *; try lia; done. }
  rewrite Hheld in S. simpl in S. rewrite app_nil_r in S.
  unfold cfrStructureService.worker, succeeds, failure in *. simpl in *.
  destruct (processTitle_returns dao title) as (calls & [e|] & Hp);
    rewrite Hp in *; simpl in S.
  - eexists. split; [exact S|]. eauto.
  - eexists. split; [exact S|]. done.
Qed.
End ProcessAllTitles.

Section SubAgencies.
Import concurrent delivery computedValueService.

Lemma sameButParent_refl heap : sameButParent heap heap.
Proof. split; [done|]. intros q a Hq. eauto. Qed.

Lemma sameButParent_trans h1 h2 h3 :
  sameButParent h1 h2 -> sameButParent h2 h3 -> sameButParent h1 h3.
Proof.
  intros [L1 H1] [L2 H2]. split; [lia|]. intros q a Hq.
  destruct (H1 q a Hq) as (a' & Hq' & ? & ? & ?).
  destruct (H2 q a' Hq') as (a'' & Hq'' & ? & ? & ?).
  exists a''. split; [done|]. split; [congruence|]. split; congruence.
Qed.

Lemma sameButParent_childrenOf h h' a :
  sameButParent h h' -> childrenOf h' a = childrenOf h a.
Proof.
  intros [L H]. unfold childrenOf.
  destruct (h !! a) as [x|] eqn:Hx.
  - destruct (H a x Hx) as (x' & -> & _ & _ & ?). done.
  - apply lookup_ge_None in Hx.
    rewrite (lookup_ge_None_2 h' a); [done|lia].
Qed.

Lemma visitChild_fold (agency : ptr) (kids : list ptr) :
  forall heap subs,
    (forall c, c ∈ kids -> c < length heap) ->
    exists heap',
      fold_left (visitChild agency) kids (Some (heap, subs))
      = Some (heap', subs ++ kids) /\
      sameButParent heap heap' /\
      (forall c, c ∈ kids ->
         exists x, heap' !! c = Some x /\ Parent x = Some agency) /\
      (forall q, q ∉ kids -> heap' !! q = heap !! q).
Proof.
  induction kids as [|c kids IH]; intros heap subs Hv.
  - exists heap. simpl. rewrite app_nil_r. split; [done|].
    split; [apply sameButParent_refl|]. split; [|done].
    intros c Hc. by apply elem_of_nil in Hc.
  - cbn [fold_left]. destruct (lookup_lt_is_Some_2 heap c) as [x Hx].
    { apply Hv. left. }
    replace (visitChild agency (Some (heap, subs)) c)
      with (Some (<[c := setParent x agency]> heap, subs ++ [c]))
      by (unfold visitChild; by rewrite Hx).
    destruct (IH (<[c := setParent x agency]> heap) (subs ++ [c]))
      as (heap' & Hf & Hs & Hp & Hu).
    { intros c' Hc'. rewrite length_insert. apply Hv. by right. }
    exists heap'. rewrite Hf, <- app_assoc. split; [done|].
    assert (Hstep : sameButParent heap (<[c := setParent x agency]> heap)).
    { split; [apply length_insert|]. intros q a Hq.
      destruct (decide (q = c)) as [->|Hne].
      - rewrite list_lookup_insert_eq by (by eapply lookup_lt_Some).
        exists (setParent x agency). rewrite Hx in Hq. injection Hq as <-.
        done.
      - rewrite list_lookup_insert_ne by done. eauto. }
    split; [by eapply sameButParent_trans|]. split.
    + intros c' Hc'. destruct (decide (c' ∈ kids)) as [Hin|Hnin].
      * by apply Hp.
      * apply elem_of_cons in Hc' as [->|?]; [|done].
        rewrite (Hu c Hnin).
        rewrite list_lookup_insert_eq by (by eapply lookup_lt_Some).
        by exists (setParent x agency).
    + intros q Hq. rewrite Hu.
      * rewrite list_lookup_insert_ne; [done|].
        intros ->. apply Hq. left.
      * intros Hin. apply Hq. by right.
Qed.

Lemma visitAgency_fold (agencies : list ptr) :
  forall heap subs,
    noNil heap agencies ->
    exists heap',
      fold_left visitAgency agencies (Some (heap, subs))
      = Some (heap', subs ++ (agencies ≫= childrenOf heap)) /\
      sameButParent heap heap' /\
      (forall c, c ∈ (agencies ≫= childrenOf heap) ->
         exists x agency,
           heap' !! c = Some x /\ Parent x = Some agency /\
           agency ∈ agencies /\ c ∈ childrenOf heap agency) /\
      (forall q, q ∉ (agencies ≫= childrenOf heap) ->
         heap' !! q = heap !! q).
Proof.
  induction agencies as [|a agencies IH]; intros heap subs Hv.
  - exists heap. simpl. rewrite app_nil_r. split; [done|].
    split; [apply sameButParent_refl|]. split; [|done].
    intros c Hc. by apply elem_of_nil in Hc.
  - rewrite bind_cons. cbn [fold_left].
    destruct (Hv a) as [Ha Hkids]; [left|].
    destruct (lookup_lt_is_Some_2 heap a Ha) as [x Hx].
    assert (Hc : childrenOf heap a = Children x)
      by (unfold childrenOf; by rewrite Hx).
    rewrite Hc in *.
    destruct (visitChild_fold a (Children x) heap subs Hkids)
      as (heap1 & Hf1 & Hs1 & Hp1 & Hu1).
    replace (visitAgency (Some (heap, subs)) a)
      with (Some (heap1, subs ++ Children x))
      by (unfold visitAgency; by rewrite Hx, Hf1).
    assert (Hsame : forall b, childrenOf heap1 b = childrenOf heap b)
      by (intros b; by apply sameButParent_childrenOf).
    destruct (IH heap1 (subs ++ Children x)) as (heap' & Hf & Hs & Hp & Hu).
    { intros b Hb. destruct (Hv b) as [Hb1 Hb2]; [by right|].
      destruct Hs1 as [-> _]. split; [done|]. intros c. rewrite Hsame.
      apply Hb2. }
    assert (Hkeq : agencies ≫= childrenOf heap1 = agencies ≫= childrenOf heap).
    { apply list_bind_ext; [|done]. intros b. apply Hsame. }
    rewrite Hkeq in *.
    exists heap'. rewrite Hf, <- app_assoc. split; [done|].
    split; [by eapply sameButParent_trans|]. split.
    + intros c Hin.
      destruct (decide (c ∈ agencies ≫= childrenOf heap)) as [Hr|Hnr].
      * destruct (Hp c Hr) as (y & b & Hy & Hpar & Hb & Hcb).
        exists y, b. rewrite Hsame in Hcb. split; [done|]. split; [done|].
        split; [by right|done].
      * apply elem_of_app in Hin as [Hin|?]; [|done].
        destruct (Hp1 c Hin) as (y & Hy & Hpar).
        exists y, a. rewrite (Hu c Hnr). split; [done|]. split; [done|].
        split; [left|]. by rewrite Hc.
    + intros q Hq. rewrite Hu, Hu1; [done| |].
      * intros Hin. apply Hq. apply elem_of_app. by left.
      * intros Hin. apply Hq. apply elem_of_app. by right.
Qed.

(** X22.  Without nil pointers [extractSubAgencies] does not panic;
    it returns the children of the agencies, agency by agency in
    order; it writes [Parent] fields only, and only of the agencies
    it returns; afterwards each returned agency has as [Parent] an
    agency of the list that lists it as a child. *)
Theorem extractSubAgencies_sets_parents (heap : Heap) (agencies : list ptr) :
  noNil heap agencies ->
  exists heap',
    extractSubAgencies heap agencies
    = Some (heap', agencies ≫= childrenOf heap) /\
    sameButParent heap heap' /\
    (forall child, child ∈ (agencies ≫= childrenOf heap) ->
       exists subAgency agency,
         heap' !! child = Some subAgency /\
         Parent subAgency = Some agency /\
         agency ∈ agencies /\ child ∈ childrenOf heap agency) /\
    (forall q, q ∉ (agencies ≫= childrenOf heap) -> heap' !! q = heap !! q).
Proof.
  intros Hv. destruct (visitAgency_fold agencies heap [] Hv)
    as (heap' & Hf & Hrest).
  exists heap'. split; [exact Hf|exact Hrest].
Qed.
End SubAgencies.

Section AgencyRuns.
Import concurrent delivery cfrStructureService computedValueService.

Lemma report_results kind subject answers :
  resultsIn (report kind subject answers)
  = if succeeds answers then [subject] else [].
Proof.
  unfold report, succeeds.
  by destruct (CountWordsAndSections answers), (Marshal answers),
    (Insert answers).
Qed.

Lemma report_outcomes kind subject answers :
  length (resultsIn (report kind subject answers))
  + length (errorsIn (report kind subject answers)) = 1.
Proof.
  unfold report.
  by destruct (CountWordsAndSections answers), (Marshal answers),
    (Insert answers).
Qed.

Lemma report_errors kind subject answers e :
  e ∈ errorsIn (report kind subject answers) ->
  exists err, e = (((kind +:+ " ") +:+ subject) +:+ ": ") +:+ err.
Proof.
  unfold report.
  destruct (CountWordsAndSections answers) as [e1|];
    [|destruct (Marshal answers) as [e2|];
      [|destruct (Insert answers) as [e3|]]];
    simpl; intros H; try (by apply elem_of_nil in H);
    apply list_elem_of_singleton in H; eauto.
Qed.

Lemma bind_length_one {A B C} (f : A -> list B) (g : A -> list C)
    (l : list A) :
  (forall x, x ∈ l -> length (f x) + length (g x) = 1) ->
  length (l ≫= f) + length (l ≫= g) = length l.
Proof.
  induction l as [|x l IH]; intros H; [done|].
  rewrite !bind_cons, !length_app. simpl.
  specialize (H x ltac:(left)) as Hx.
  rewrite <- IH by (intros; apply H; by right). lia.
Qed.

(** X23.  [getFilteredAgencies] returns every agency for an empty
    filter, and otherwise, in their order, the agencies whose slug
    is an entry of the filter. *)
Theorem getFilteredAgencies_selects (agenciesFilter : list string)
    (agencies : list Agency) :
  (agenciesFilter = [] ->
   getFilteredAgencies agenciesFilter agencies = agencies) /\
  (agenciesFilter <> [] ->
   getFilteredAgencies agenciesFilter agencies
   = List.filter (fun agency => bool_decide (Slug agency ∈ agenciesFilter))
                 agencies).
Proof.
  split; [by intros ->|]. intros Hne. unfold getFilteredAgencies.
  destruct agenciesFilter as [|t l]; [done|]. cbn [length Nat.eqb].
  rewrite fold_append_filter. simpl.
  induction agencies as [|x xs IH]; [done|]. simpl.
  by rewrite filterLookup_spec, IH.
Qed.

(** X24.  In every run of the runner of [ProcessAgencyMetrics] that
    has returned, [Results] holds the slug of each agency for which
    the three calls answered nil, every entry of [Errors] is "agency
    slug: error" for an agency for which one did not, and the two
    lengths add up to the number of agencies. *)
Theorem ProcessAgencyMetrics_reports_each_agency
    (items : list (Agency * Answers)) s result :
  reachable agencyRunner processAgencyMetric items s ->
  main s = Returned result ->
  Results result ≡ₚ
    (fun item => Slug (fst item))
      <$> List.filter (fun item => succeeds (snd item)) items /\
  length (Results result) + length (Errors result) = length items /\
  (forall e, e ∈ Errors result ->
     exists item err, item ∈ items /\ succeeds (snd item) = false /\
       e = (("agency " +:+ Slug (fst item)) +:+ ": ") +:+ err).
Proof.
  intros Hs Hm.
  destruct (returned_inFlight agencyRunner processAgencyMetric items s result)
    as (_ & H2 & H3); [by apply reachable_Inv|done|].
  destruct (reachable_inFlight agencyRunner processAgencyMetric items s Hs)
    as (_ & P2 & P3).
  rewrite H2 in P2. rewrite H3 in P3.
  assert (E2 : allResults processAgencyMetric items
    = (fun item => Slug (fst item))
        <$> List.filter (fun item => succeeds (snd item)) items).
  { rewrite <- bind_if_singleton. unfold allResults.
    apply list_bind_ext; [|done]. intros [agency answers].
    unfold processAgencyMetric. cbn [resultsIn omap list_omap resultOf fst snd].
    apply report_results. }
  split; [by rewrite P2, E2|]. split.
  - rewrite P2, P3. unfold allResults, allErrors.
    apply bind_length_one. intros [agency answers] _.
    unfold processAgencyMetric. cbn [fst snd].
    apply (report_outcomes "agency").
  - intros e He. rewrite P3 in He. unfold allErrors in He.
    apply list_elem_of_bind in He as ([agency answers] & He & Hin).
    unfold processAgencyMetric in He. cbn [fst snd] in He.
    change (errorsIn (Message ("Processing: " +:+ Slug agency)
                        :: report "agency" (Slug agency) answers))
      with (errorsIn (report "agency" (Slug agency) answers)) in He.
    pose proof (report_outcomes "agency" (Slug agency) answers) as Hone.
    rewrite report_results in Hone.
    destruct (report_errors _ _ _ _ He) as [err ->].
    exists (agency, answers), err. split; [done|]. split; [|done].
    simpl. destruct (succeeds answers); [|done].
    destruct (errorsIn _); [by apply elem_of_nil in He|simpl in Hone; lia].
Qed.

(** X25.  On the sub-agencies [extractSubAgencies] returns,
    [processSubAgencyMetric] never takes the branch "has no parent":
    it announces the sub-agency under the slug of an agency that
    lists it and reports one outcome, so a run that has returned
    holds one result or error per sub-agency. *)
Theorem ProcessSubAgencyMetrics_finds_every_parent
    (heap : Heap) (agencies : list ptr)
    (items : list (ptr * Answers)) :
  noNil heap agencies ->
  (forall item, item ∈ items -> fst item ∈ (agencies ≫= childrenOf heap)) ->
  exists heap',
    extractSubAgencies heap agencies
    = Some (heap', agencies ≫= childrenOf heap) /\
    (forall item, item ∈ items ->
       exists subAgency agency parent,
         heap !! fst item = Some subAgency /\
         agency ∈ agencies /\ fst item ∈ childrenOf heap agency /\
         heap !! agency = Some parent /\
         processSubAgencyMetric heap' item
         = Message (((("Processing: " +:+ Name subAgency)
                        +:+ " (sub-agency of ") +:+ Slug parent) +:+ ")")
           :: report "sub-agency" (Name subAgency) (snd item)) /\
    (forall s result,
       reachable subAgencyRunner (processSubAgencyMetric heap') items s ->
       main s = Returned result ->
       length (Results result) + length (Errors result) = length items).
Proof.
  intros Hv Hitems.
  destruct (visitAgency_fold agencies heap [] Hv)
    as (heap' & Hf & [Hlen Hs] & Hp & Hu).
  exists heap'. split; [exact Hf|].
  assert (Hw : forall item, item ∈ items ->
       exists subAgency agency parent,
         heap !! fst item = Some subAgency /\
         agency ∈ agencies /\ fst item ∈ childrenOf heap agency /\
         heap !! agency = Some parent /\
         processSubAgencyMetric heap' item
         = Message (((("Processing: " +:+ Name subAgency)
                        +:+ " (sub-agency of ") +:+ Slug parent) +:+ ")")
           :: report "sub-agency" (Name subAgency) (snd item)).
  { intros [c answers] Hin. specialize (Hitems _ Hin). simpl in Hitems.
    destruct (Hp c Hitems) as (x & a & Hx & Hpar & Ha & Hca).
    destruct (Hv a Ha) as [Halt Hkids].
    destruct (lookup_lt_is_Some_2 heap a Halt) as [pa Hpa].
    destruct (Hs a pa Hpa) as (pa' & Hpa' & _ & Hslug & _).
    destruct (lookup_lt_is_Some_2 heap c (Hkids c Hca)) as [x0 Hx0].
    destruct (Hs c x0 Hx0) as (x' & Hx' & Hname & _ & _).
    assert (x' = x) as -> by congruence.
    exists x0, a, pa. repeat (split; [done|]).
    unfold processSubAgencyMetric. simpl.
    by rewrite Hx, Hpar, Hpa', Hname, Hslug. }
  split; [exact Hw|].
  intros s result Hreach Hm.
  destruct (returned_inFlight subAgencyRunner (processSubAgencyMetric heap')
              items s result) as (_ & H2 & H3);
    [by apply reachable_Inv|done|].
  destruct (reachable_inFlight subAgencyRunner (processSubAgencyMetric heap')
              items s Hreach) as (_ & P2 & P3).
  rewrite H2 in P2. rewrite H3 in P3. rewrite P2, P3.
  unfold allResults, allErrors. apply bind_length_one.
  intros item Hin. destruct (Hw item Hin) as (x & a & pa & _ & _ & _ & _ & ->).
  apply (report_outcomes "sub-agency").
Qed.
End AgencyRuns.

Section BubbleSort.
Import changeTracking.

Local Abbreviation key := (fun x => abs (WordCountChange x)).

Lemma two_at (a : list TitleChange) j x y :
  a !! j = Some x -> a !! S j = Some y ->
  a = take j a ++ x :: y :: drop (S (S j)) a.
Proof.
  intros Hx Hy.
  rewrite <- (take_drop_middle a j x Hx) at 1. f_equal. f_equal.
  rewrite <- (take_drop_middle a (S j) y Hy) at 1.
  rewrite drop_app_length'; [done|].
  rewrite length_take. apply lookup_lt_Some in Hy. lia.
Qed.

Lemma swapStep_spec (a : list TitleChange) j x y :
  a !! j = Some x -> a !! S j = Some y ->
  swapStep a j
  = take j a ++ (if (key x <? key y)%Z then [y; x] else [x; y])
    ++ drop (S (S j)) a.
Proof.
  intros Hx Hy. unfold swapStep. rewrite Hx, Hy.
  pose proof (two_at a j x y Hx Hy) as Ha.
  assert (Hlen : length (take j a) = j).
  { rewrite length_take. apply lookup_lt_Some in Hx. lia. }
  destruct (key x <? key y)%Z; [|exact Ha].
  rewrite Ha at 1.
  rewrite (insert_app_r_alt _ _ (S j)) by lia.
  rewrite Hlen. replace (S j - j) with 1 by lia. simpl.
  rewrite (insert_app_r_alt _ _ j) by lia.
  rewrite Hlen, Nat.sub_diag. done.
Qed.

Lemma inner_spec (k : nat) (a : list TitleChange) :
  k < length a ->
  let a' := fold_left swapStep (seq 0 k) a in
  length a' = length a /\
  take (S k) a' ≡ₚ take (S k) a /\
  drop (S k) a' = drop (S k) a /\
  exists m, a' !! k = Some m /\
            Forall (fun x => (key m <= key x)%Z) (take (S k) a').
Proof.
  induction k as [|k IH]; intros Hk; cbv zeta.
  - simpl. split; [done|]. split; [done|]. split; [done|].
    destruct a as [|m a]; [simpl in Hk; lia|].
    exists m. split; [done|]. simpl. rewrite take_0.
    constructor; [lia|constructor].
  - rewrite seq_S, fold_left_app. cbn [fold_left]. simpl.
    destruct IH as (Hlen & Hperm & Hdrop & m & Hm & Hmin); [lia|].
    set (a' := fold_left swapStep (seq 0 k) a) in *.
    destruct (lookup_lt_is_Some_2 a' (S k)) as [y Hy]; [lia|].
    assert (Hya : a !! S k = Some y).
    { rewrite <- (Nat.add_0_r (S k)), <- lookup_drop, <- Hdrop, lookup_drop.
      by rewrite Nat.add_0_r. }
    rewrite (swapStep_spec a' k m y Hm Hy).
    pose proof (two_at a' k m y Hm Hy) as Ha'.
    assert (Hlk : length (take k a') = k) by (rewrite length_take; lia).
    set (pair := if (key m <? key y)%Z then [y; m] else [m; y]).
    assert (Hpl : length pair = 2) by (unfold pair; by destruct (_ <? _)%Z).
    assert (Hpp : pair ≡ₚ [m; y]).
    { unfold pair. destruct (_ <? _)%Z; [apply Permutation_swap|done]. }
    assert (Htk : take (S (S k)) (take k a' ++ pair ++ drop (S (S k)) a')
                  = take k a' ++ pair).
    { rewrite app_assoc. rewrite take_app_length'; [done|].
      rewrite length_app. lia. }
    assert (Htk' : take (S (S k)) a' = take k a' ++ [m; y]).
    { rewrite Ha' at 1.
      change (m :: y :: drop (S (S k)) a')
        with ([m; y] ++ drop (S (S k)) a').
      rewrite app_assoc. rewrite take_app_length'; [done|].
      rewrite length_app. simpl. lia. }
    split; [|split; [|split]].
    + rewrite !length_app, Hlk, Hpl, length_drop. lia.
    + rewrite Htk, Hpp, <- Htk'.
      rewrite (take_S_r a' (S k) y Hy), (take_S_r a (S k) y Hya).
      by rewrite Hperm.
    + rewrite app_assoc. rewrite drop_app_length'.
      2: { rewrite length_app. lia. }
      replace (S (S k)) with (S k + 1) by lia.
      rewrite <- !drop_drop. by rewrite Hdrop.
    + assert (Hprefix : Forall (fun x => (key m <= key x)%Z) (take k a')).
      { rewrite (take_S_r a' k m Hm) in Hmin.
        by apply Forall_app in Hmin as [? _]. }
      rewrite Htk. unfold pair.
      rewrite app_assoc, lookup_app_l.
      2: { rewrite length_app. unfold pair in Hpl. lia. }
      rewrite lookup_app_r by lia. rewrite Hlk.
      replace (S k - k) with 1 by lia.
      destruct (Z.ltb_spec (key m) (key y)) as [Hlt|Hge]; simpl.
      * exists m. split; [done|]. apply Forall_app. split; [done|].
        constructor; [lia|]. constructor; [lia|constructor].
      * exists y. split; [done|]. apply Forall_app. split.
        { eapply Forall_impl; [exact Hprefix|]. simpl. intros. lia. }
        constructor; [lia|]. constructor; [lia|constructor].
Qed.

Lemma innerLoop_spec (b : list TitleChange) (i : nat) :
  S i < length b ->
  let k := length b - i - 1 in
  length (innerLoop b i) = length b /\
  take (S k) (innerLoop b i) ≡ₚ take (S k) b /\
  drop (S k) (innerLoop b i) = drop (S k) b /\
  exists m, innerLoop b i !! k = Some m /\
            Forall (fun x => (key m <= key x)%Z) (take (S k) (innerLoop b i)).
Proof. intros Hi. apply inner_spec. lia. Qed.

Lemma outer_inv (a : list TitleChange) (i : nat) :
  i <= length a - 1 ->
  let b := fold_left innerLoop (seq 0 i) a in
  length b = length a /\
  b ≡ₚ a /\
  StronglySorted byChange (drop (length a - i) b) /\
  Forall (fun x => Forall (fun y => (key y <= key x)%Z)
                          (drop (length a - i) b))
         (take (length a - i) b).
Proof.
  induction i as [|i IH]; intros Hi; cbv zeta.
  - simpl. rewrite Nat.sub_0_r, drop_all. split; [done|]. split; [done|].
    split; [constructor|]. apply Forall_forall. intros; constructor.
  - rewrite seq_S, fold_left_app. cbn [fold_left]. simpl.
    destruct IH as (Hlen & Hperm & Hsorted & Hge); [lia|].
    set (b := fold_left innerLoop (seq 0 i) a) in *.
    destruct (innerLoop_spec b i) as (Hl' & Hp' & Hd' & m & Hm & Hmin);
      [lia|].
    set (b' := innerLoop b i) in *.
    rewrite Hlen in *.
    replace (length a - i - 1) with (length a - S i) in * by lia.
    replace (S (length a - S i)) with (length a - i) in * by lia.
    assert (Hdrop : drop (length a - S i) b' = m :: drop (length a - i) b).
    { rewrite (drop_S b' m (length a - S i) Hm).
      replace (S (length a - S i)) with (length a - i) by lia.
      by rewrite Hd'. }
    assert (Hmin' : m ∈ take (length a - i) b).
    { rewrite <- Hp'. apply list_elem_of_lookup. exists (length a - S i).
      rewrite lookup_take_lt by lia. done. }
    rewrite Forall_forall in Hge.
    split; [lia|]. split; [|split].
    + rewrite <- Hperm, <- (take_drop (length a - i) b'),
        <- (take_drop (length a - i) b).
      by rewrite Hp', Hd'.
    + rewrite Hdrop. constructor; [done|].
      specialize (Hge m Hmin'). eapply Forall_impl; [exact Hge|].
      intros y Hy. exact Hy.
    + rewrite Hdrop. apply Forall_forall. intros x Hx.
      assert (Hx' : x ∈ take (length a - i) b').
      { apply list_elem_of_lookup in Hx as [j Hj].
        apply list_elem_of_lookup. exists j.
        destruct (decide (j < length a - S i)) as [Hlt|Hnlt].
        - rewrite lookup_take_lt in Hj by done.
          rewrite lookup_take_lt by lia. done.
        - rewrite lookup_take_ge in Hj by lia. done. }
      constructor.
      * rewrite Forall_forall in Hmin. by apply Hmin.
      * apply Hge. by rewrite <- Hp'.
Qed.

Lemma swapStep_stable (v : Z) (a : list TitleChange) (j : nat) :
  filter (fun c => key c = v) (swapStep a j)
  = filter (fun c => key c = v) a.
Proof.
  destruct (a !! j) as [x|] eqn:Hx; [|by unfold swapStep; rewrite Hx].
  destruct (a !! S j) as [y|] eqn:Hy; [|by unfold swapStep; rewrite Hx, Hy].
  rewrite (swapStep_spec a j x y Hx Hy).
  rewrite (two_at a j x y Hx Hy) at 3.
  destruct (Z.ltb_spec (key x) (key y)) as [Hlt|Hge]; [|done].
  change (x :: y :: drop (S (S j)) a) with ([x; y] ++ drop (S (S j)) a).
  rewrite !filter_app. f_equal. f_equal.
  rewrite !filter_cons, !filter_nil.
  repeat case_decide; try done; lia.
Qed.

Lemma bubbleSort_stable (v : Z) (changes : list TitleChange) :
  filter (fun c => key c = v) (bubbleSort changes)
  = filter (fun c => key c = v) changes.
Proof.
  unfold bubbleSort.
  generalize (seq 0 (length changes - 1)). intros passes. revert changes.
  induction passes as [|i passes IH]; intros changes; [done|].
  cbn [fold_left]. rewrite IH. unfold innerLoop.
  generalize (seq 0 (length changes - i - 1)). intros steps.
  revert changes.
  induction steps as [|j steps IHs]; intros changes; [done|].
  cbn [fold_left]. by rewrite IHs, swapStep_stable.
Qed.

Lemma bubbleSort_sorted (changes : list TitleChange) :
  bubbleSort changes ≡ₚ changes /\
  StronglySorted byChange (bubbleSort changes).
Proof.
  unfold bubbleSort.
  destruct (outer_inv changes (length changes - 1)) as (Hlen & Hp & Hs & Hge);
    [done|].
  split; [exact Hp|].
  set (b := fold_left innerLoop (seq 0 (length changes - 1)) changes) in *.
  destruct changes as [|c l].
  { apply Permutation_nil_r in Hp. rewrite Hp. constructor. }
  simpl in Hlen, Hs, Hge. rewrite Nat.sub_0_r in Hs, Hge.
  replace (S (length l) - length l) with 1 in * by lia.
  destruct b as [|x rest]; [simpl in Hlen; lia|].
  simpl in Hs, Hge. rewrite drop_0 in Hs, Hge. rewrite take_0 in Hge.
  constructor; [done|]. apply Forall_inv in Hge. exact Hge.
Qed.

Lemma abs_spec (n : Z) :
  (- 2 ^ 63 <= n < 2 ^ 63)%Z ->
  (n = - 2 ^ 63 /\ abs n = - 2 ^ 63)%Z \/
  ((- 2 ^ 63 < n)%Z /\ abs n = Z.abs n).
Proof.
  intros Hn. unfold abs, wrap.
  destruct (Z.ltb_spec n 0) as [Hneg|Hpos]; [|right; lia].
  destruct (decide (n = - 2 ^ 63)%Z) as [->|Hne]; [left; done|].
  right. split; [lia|].
  rewrite Z.mod_small by lia. lia.
Qed.

Lemma StronglySorted_weaken {A} (P : A -> Prop) (R R' : A -> A -> Prop)
    (l : list A) :
  (forall x y, P x -> P y -> R x y -> R' x y) ->
  Forall P l -> StronglySorted R l -> StronglySorted R' l.
Proof.
  intros HR HP Hs. induction Hs as [|x l Hs IH Hx]; [constructor|].
  apply Forall_cons in HP as [Px Pl]. constructor; [by apply IH|].
  rewrite Forall_forall in Hx, Pl. apply Forall_forall.
  intros y Hy. apply HR; auto.
Qed.

(** X20.  [GetTopChangingTitles] panics exactly for a negative
    limit; otherwise it returns the first [limit] entries (all of
    them when there are fewer) of a rearrangement of the changes
    sorted by decreasing [abs(WordCountChange)], in which changes
    with the same [abs(WordCountChange)] keep their order; the order
    is decreasing absolute value when no change is the least 64-bit
    integer. *)
Theorem GetTopChangingTitles_returns_largest
    (changes : list TitleChange) (limit : Z) :
  match GetTopChangingTitles changes limit with
  | None => (limit < 0)%Z
  | Some top =>
      (0 <= limit)%Z /\
      exists sortedChanges,
        sortedChanges ≡ₚ changes /\
        StronglySorted byChange sortedChanges /\
        top = take (Z.to_nat limit) sortedChanges /\
        length top = Nat.min (Z.to_nat limit) (length changes) /\
        (forall v,
           filter (fun c => abs (WordCountChange c) = v) sortedChanges
           = filter (fun c => abs (WordCountChange c) = v) changes) /\
        (Forall (fun c => (- 2 ^ 63 < WordCountChange c < 2 ^ 63)%Z) changes ->
         StronglySorted
           (fun x y => (Z.abs (WordCountChange y)
                        <= Z.abs (WordCountChange x))%Z)
           sortedChanges)
  end.
Proof.
  destruct (bubbleSort_sorted changes) as [Hp Hs].
  assert (Hlen : length (bubbleSort changes) = length changes)
    by (by rewrite Hp).
  unfold GetTopChangingTitles.
  destruct (Z.ltb_spec (Z.of_nat (length (bubbleSort changes))) limit)
    as [Hlt|Hge].
  - destruct (Z.ltb_spec (Z.of_nat (length (bubbleSort changes))) 0);
      [lia|].
    split; [lia|]. exists (bubbleSort changes).
    split; [done|]. split; [done|].
    rewrite Nat2Z.id, !take_ge by lia. split; [done|]. split; [lia|].
    split; [intros v; apply bubbleSort_stable|].
    intros Hr. eapply StronglySorted_weaken; [|by rewrite Hp|exact Hs].
    intros x y Hx Hy. unfold byChange. simpl in *.
    destruct (abs_spec (WordCountChange x)) as [[? _]|[_ ->]]; [lia..|].
    destruct (abs_spec (WordCountChange y)) as [[? _]|[_ ->]]; [lia..|].
    done.
  - destruct (Z.ltb_spec limit 0) as [Hneg|Hpos]; [done|].
    split; [done|]. exists (bubbleSort changes).
    split; [done|]. split; [done|]. split; [done|].
    split; [by rewrite length_take, Hlen|].
    split; [intros v; apply bubbleSort_stable|].
    intros Hr. eapply StronglySorted_weaken; [|by rewrite Hp|exact Hs].
    intros x y Hx Hy. unfold byChange. simpl in *.
    destruct (abs_spec (WordCountChange x)) as [[? _]|[_ ->]]; [lia..|].
    destruct (abs_spec (WordCountChange y)) as [[? _]|[_ ->]]; [lia..|].
    done.
Qed.
End BubbleSort.

Section DivTypeFacts.
Import xml data parser divTypes.

(** X6.  [GetDivTypeForLevel] names exactly the levels 1 to 9, with
    a different name for each; for a tag DIVc the level [Parse]
    records has a name exactly when c is one of the digits 1 to 9. *)
Theorem GetDivTypeForLevel_names_levels_1_to_9 :
  (forall level, GetDivTypeForLevel level <> "" <-> (1 <= level <= 9)%Z) /\
  (forall a b, (1 <= a <= 9)%Z ->
     GetDivTypeForLevel a = GetDivTypeForLevel b -> a = b) /\
  (forall c,
     GetDivTypeForLevel (divLevelOf ("DIV" +:+ String c EmptyString)) <> ""
     <-> 49 <= nat_of_ascii c <= 57).
Proof.
  assert (H1 : forall level,
    GetDivTypeForLevel level <> "" <-> (1 <= level <= 9)%Z).
  { intros level. split.
    - intros H. destruct level as [|q|q]; try done.
      destruct q as [[[[|[]|]|[[]|[]|]|]|[[|[]|]|[[]|[]|]|]|]
                    |[[[|[]|]|[[]|[]|]|]|[[|[]|]|[[]|[]|]|]|]|];
        try done; lia.
    - intros H.
      assert (level = 1 \/ level = 2 \/ level = 3 \/ level = 4 \/ level = 5 \/
              level = 6 \/ level = 7 \/ level = 8 \/ level = 9)%Z
        as Hc by lia.
      destruct Hc as [->|[->|[->|[->|[->|[->|[->|[->| ->]]]]]]]]; done. }
  split; [exact H1|]. split.
  - intros a b Ha Hab.
    assert (Hb : (1 <= b <= 9)%Z).
    { apply H1. rewrite <- Hab. by apply H1. }
    assert (a = 1 \/ a = 2 \/ a = 3 \/ a = 4 \/ a = 5 \/
            a = 6 \/ a = 7 \/ a = 8 \/ a = 9)%Z as Hca by lia.
    assert (b = 1 \/ b = 2 \/ b = 3 \/ b = 4 \/ b = 5 \/
            b = 6 \/ b = 7 \/ b = 8 \/ b = 9)%Z as Hcb by lia.
    destruct Hca as [->|[->|[->|[->|[->|[->|[->|[->| ->]]]]]]]];
      destruct Hcb as [->|[->|[->|[->|[->|[->|[->|[->| ->]]]]]]]];
      simpl in Hab; done.
  - intros c. rewrite H1. unfold divLevelOf. simpl.
    pose proof (nat_ascii_bounded c) as Hc.
    set (n := nat_of_ascii c) in *.
    destruct (decide (48 <= n)) as [Hge|Hlt].
    + rewrite Z.mod_small by lia. lia.
    + replace ((Z.of_nat n - 48) mod 256)%Z with (Z.of_nat n + 208)%Z.
      * lia.
      * apply (Z.mod_unique _ _ (-1)); lia.
Qed.
End DivTypeFacts.

Section TitleIndependence.
Import xml data parser divTypes changeMetrics.
Context {lib : GoLib}.

Lemma sumWordCount_withTitle p (l : list CfrStructure) :
  sumWordCount (withTitle p <$> l) = sumWordCount l.
Proof.
  induction l as [|x l IH]; [done|].
  change (withTitle p <$> x :: l) with (withTitle p x :: (withTitle p <$> l)).
  rewrite !sumWordCount_cons, IH. done.
Qed.

Lemma parseDiv_withTitle (p p' : CfrParser) fuel :
  (forall d name attr lvl pid pp,
      parseDivElement fuel p' d name attr lvl pid pp
      = withTitleElement p' <$> parseDivElement fuel p d name attr lvl pid pp) /\
  (forall d sl path body,
      parseDivLoop fuel p' d sl path (withTitleBody p' body)
      = withTitleLoop p' <$> parseDivLoop fuel p d sl path body).
Proof.
  induction fuel as [|fuel [IHe IHl]];
    (split; [intros d name attr lvl pid pp|intros d sl path body]);
    try reflexivity.
  - simpl.
    change (mkDivBody None "" []) with (withTitleBody p' (mkDivBody None "" [])).
    rewrite IHl.
    destruct (parseDivLoop fuel p d _ _ _) as [[d2 b2]|]; simpl;
      [|reflexivity].
    rewrite !buildStructures_eq. simpl.
    by rewrite sumWordCount_withTitle.
  - simpl. destruct (Decoder_Token d) as [[tok|e] d'] eqn:Ht;
      [|reflexivity].
    destruct tok; try apply IHl.
    + destruct (String.eqb (Local name) "HEAD").
      { destruct (readHead fuel d' "") as [[d2 ht]|]; [|reflexivity].
        apply (IHl d2 sl path
                   (mkDivBody (Some (TrimSpace ht)) (textContent body)
                              (childStructures body))). }
      destruct (isDivElement _).
      { rewrite IHe.
        destruct (parseDivElement fuel p d' _ _ _ _ _)
          as [[d2 [cd w]]|]; simpl; [|reflexivity].
        rewrite <- IHl. unfold withTitleBody. simpl.
        by rewrite fmap_app. }
      simpl.
      destruct (extractTextContent fuel d' _ _) as [[d2 tc2]|]; [|reflexivity].
      apply (IHl d2 sl path
                 (mkDivBody (heading body) tc2 (childStructures body))).
    + destruct (String.eqb _ _); [reflexivity|]. apply IHl.
    + apply (IHl d' sl path
                 (mkDivBody (heading body)
                            (writeText (textContent body) data)
                            (childStructures body))).
Qed.

Lemma parseLoop_withTitle (p p' : CfrParser) fuel :
  forall d structures total,
    parseLoop fuel p' d (withTitle p' <$> structures) total
    = withTitleResult p' <$> parseLoop fuel p d structures total.
Proof.
  induction fuel as [|fuel IH]; intros d structures total; [reflexivity|].
  simpl. destruct (Decoder_Token d) as [[tok|e] d'] eqn:Ht.
  - destruct tok; try apply IH.
    destruct (isDivElement _); [|apply IH].
    rewrite (proj1 (parseDiv_withTitle p p' fuel)).
    destruct (parseDivElement fuel p d' _ _ _ _ _) as [[d2 [ds w]]|];
      simpl; [|reflexivity].
    rewrite <- IH. by rewrite fmap_app.
  - destruct e; reflexivity.
Qed.

(** X5.  The title id and title number of a parser only label the
    records: parsing a text with another parser gives the same
    outcome, the same records in the same order and the same total,
    up to the two title fields. *)
Theorem Parse_uses_title_only_as_label (p p' : CfrParser) (text : string) :
  Parse p' text = withTitleResult p' <$> Parse p text.
Proof. apply (parseLoop_withTitle p p' _ _ [] 0%Z). Qed.

Lemma countSections_withTitle p (l : list CfrStructure) :
  countSections (withTitle p <$> l) = countSections l.
Proof.
  unfold countSections. generalize 0%Z.
  induction l as [|x l IH]; intros z; [done|]. simpl. apply IH.
Qed.

Lemma parseVersionMetrics_ids (id1 n1 id2 n2 : Z) (content : string) :
  parseVersionMetrics id2 n2 content = parseVersionMetrics id1 n1 content.
Proof.
  unfold parseVersionMetrics.
  assert (HP : Parse (NewCfrParser id2 n2) content
               = withTitleResult (NewCfrParser id2 n2)
                   <$> Parse (NewCfrParser id1 n1) content)
    by apply (parseLoop_withTitle _ _ _ _ [] 0%Z).
  rewrite HP.
  destruct (Parse (NewCfrParser id1 n1) content) as [[r|e]|];
    [|reflexivity..].
  cbv [fmap option_fmap option_map withTitleResult].
  cbn [Structures parser.TotalWords].
  by rewrite countSections_withTitle.
Qed.

(** X21.  When the versions of the two dates hold the same
    well-formed content, whatever their title ids,
    [computeTitleChange] returns a change of 0 words and 0 sections,
    with equal totals at start and end. *)
Theorem computeTitleChange_same_content_no_change {Time : Type}
    (getContentByVersion :
       Z -> Time -> option TitleVersionWithContent + string)
    (titleNumber : Z) (startDate endDate : Time)
    (startVersion endVersion : TitleVersionWithContent) :
  getContentByVersion titleNumber startDate = inl (Some startVersion) ->
  getContentByVersion titleNumber endDate = inl (Some endVersion) ->
  Content startVersion = Content endVersion ->
  xml.finalError (NewDecoder (Content startVersion)) = Some io_EOF ->
  exists change,
    computeTitleChange getContentByVersion titleNumber startDate endDate
    = Some (inl change) /\
    changeTracking.WordCountChange change = 0%Z /\
    changeTracking.SectionCountChange change = 0%Z /\
    changeTracking.TotalWordsStart change
    = changeTracking.TotalWordsEnd change /\
    changeTracking.TotalSectionsStart change
    = changeTracking.TotalSectionsEnd change.
Proof.
  intros Hs He Hc Hclean. unfold computeTitleChange. rewrite Hs, He.
  rewrite (parseVersionMetrics_ids (TitleId startVersion) titleNumber
             (TitleId endVersion) titleNumber (Content endVersion)).
  rewrite <- Hc. unfold parseVersionMetrics.
  destruct (Parse_returns (NewCfrParser (TitleId startVersion) titleNumber)
              (Content startVersion)) as [r Hr].
  rewrite Hr.
  destruct (parseLoop_clean _ _ _ _ _ _ Hr Hclean) as [result ->].
  eexists. split; [reflexivity|]. simpl. repeat split; lia.
Qed.
End TitleIndependence.

Section HistoricalImport.
Import concurrent delivery fmt cfrStructureService titleVersionService.

(** X26.  The filter of [getAllFilesForDate] keeps, in their order,
    the files whose title number is positive and, when a filter is
    given, printed in decimal is one of its entries; a file with
    title number 0 or less is dropped even without filter. *)
Theorem getAllFilesForDate_selects (files : list AllFilesItem)
    (titlesFilter : list string) :
  getAllFilesForDate files titlesFilter
  = List.filter
      (fun file =>
         (0 <? CFRTitle file)%Z
         && (bool_decide (titlesFilter = [])
             || bool_decide (Sprintf_d (CFRTitle file) ∈ titlesFilter)))
      files /\
  Forall (fun file => (0 < CFRTitle file)%Z)
         (getAllFilesForDate files titlesFilter).
Proof.
  assert (H : getAllFilesForDate files titlesFilter
    = List.filter
      (fun file =>
         (0 <? CFRTitle file)%Z
         && (bool_decide (titlesFilter = [])
             || bool_decide (Sprintf_d (CFRTitle file) ∈ titlesFilter)))
      files).
  { unfold getAllFilesForDate. rewrite fold_append_filter. simpl.
    induction files as [|x xs IH]; [done|]. simpl.
    rewrite filterLookup_spec, IH.
    by destruct titlesFilter. }
  split; [exact H|]. rewrite H. apply Forall_forall.
  intros file Hin. apply list_elem_of_In, filter_In in Hin as [_ Hc].
  apply andb_true_iff in Hc as [Hc _]. by apply Z.ltb_lt.
Qed.

Lemma findXML_spec (files : list TitleFileItem) :
  match findXML files with
  | Some titleFile =>
      exists before after,
        files = before ++ titleFile :: after /\
        FileExtension titleFile = "xml" /\
        Forall (fun f => FileExtension f <> "xml") before
  | None => Forall (fun f => FileExtension f <> "xml") files
  end.
Proof.
  induction files as [|f files IH]; simpl; [constructor|].
  destruct (String.eqb_spec (FileExtension f) "xml") as [He|Hne].
  - exists [], files. done.
  - destruct (findXML files) as [t|].
    + destruct IH as (before & after & -> & Hx & Hb).
      exists (f :: before), after. split; [done|]. split; [done|].
      by constructor.
    + by constructor.
Qed.

(** X27.  On a decoded response [getTitleFile] returns the first
    file whose extension is exactly "xml", and the error "no XML
    file found for title" exactly when no file has that extension. *)
Theorem getTitleFile_returns_first_xml (url : string)
    (files : list TitleFileItem) :
  (forall titleFile,
     getTitleFile url (TitleFilesResponse files) = inl titleFile <->
     exists before after,
       files = before ++ titleFile :: after /\
       FileExtension titleFile = "xml" /\
       Forall (fun f => FileExtension f <> "xml") before) /\
  (getTitleFile url (TitleFilesResponse files)
   = inr "no XML file found for title" <->
   Forall (fun f => FileExtension f <> "xml") files).
Proof.
  pose proof (findXML_spec files) as H. simpl.
  destruct (findXML files) as [t|].
  - destruct H as (before & after & -> & Hx & Hb). split.
    + intros titleFile. split.
      * intros [= <-]. by exists before, after.
      * intros (b' & a' & Heq & Hx' & Hb'). f_equal.
        assert (Hlen : length b' = length before).
        { destruct (Nat.lt_trichotomy (length b') (length before))
            as [Hlt|[?|Hgt]]; [|done|]; exfalso.
          - assert (Hl : (before ++ t :: after) !! length b' = Some titleFile).
            { rewrite Heq. by rewrite list_lookup_middle. }
            rewrite lookup_app_l in Hl by done.
            rewrite Forall_forall in Hb. apply (Hb titleFile); [|done].
            by eapply list_elem_of_lookup_2.
          - assert (Hl : (b' ++ titleFile :: a') !! length before = Some t).
            { rewrite <- Heq. by rewrite list_lookup_middle. }
            rewrite lookup_app_l in Hl by done.
            rewrite Forall_forall in Hb'. apply (Hb' t); [|done].
            by eapply list_elem_of_lookup_2. }
        assert (Hl : (before ++ t :: after) !! length b' = Some titleFile).
        { rewrite Heq. by rewrite list_lookup_middle. }
        rewrite Hlen, list_lookup_middle in Hl by done. by injection Hl.
    + split; [discriminate|]. intros Hall.
      rewrite Forall_forall in Hall. exfalso. apply (Hall t); [|done].
      apply elem_of_app. right. left.
  - split; [|done]. intros titleFile. split; [discriminate|].
    intros (b' & a' & -> & Hx' & _). rewrite Forall_forall in H.
    exfalso. apply (H titleFile); [|done]. apply elem_of_app. right. left.
Qed.

(** X28.  In every run of the runner of [ImportHistoricalTitles]
    that has returned, [Results] holds the title number of each file
    that was found, listed with an "xml" file, downloaded and
    stored, the lengths of [Results] and [Errors] add up to the
    number of files, and an imported file did have an "xml" entry. *)
Theorem ImportHistoricalTitles_reports_each_file (date : string)
    (items : list (AllFilesItem * Answers)) s result :
  reachable (runner date) processTitleVersionFile items s ->
  main s = Returned result ->
  Results result ≡ₚ
    (fun item => CFRTitle (fst item)) <$> List.filter imported items /\
  length (Results result) + length (Errors result) = length items /\
  (forall item, item ∈ items -> imported item = true ->
     exists files titleFile,
       TitleFiles (snd item) = TitleFilesResponse files /\
       titleFile ∈ files /\ FileExtension titleFile = "xml").
Proof.
  intros Hs Hm.
  destruct (returned_inFlight (runner date) processTitleVersionFile
              items s result) as (_ & H2 & H3);
    [by apply reachable_Inv|done|].
  destruct (reachable_inFlight (runner date) processTitleVersionFile
              items s Hs) as (_ & P2 & P3).
  rewrite H2 in P2. rewrite H3 in P3.
  split; [|split].
  - rewrite P2, <- bind_if_singleton. unfold allResults.
    erewrite list_bind_ext; [reflexivity| |done]. intros [file answers].
    unfold processTitleVersionFile, imported. simpl.
    destruct (FindByNumber answers); [done|].
    destruct (getTitleFile _ _); [|done]. simpl.
    by destruct (downloadTitleVersion _ _).
  - rewrite P2, P3. unfold allResults, allErrors.
    apply bind_length_one. intros [file answers] _.
    unfold processTitleVersionFile. simpl.
    destruct (FindByNumber answers); [done|].
    destruct (getTitleFile _ _); [|done]. simpl.
    by destruct (downloadTitleVersion _ _).
  - intros [file answers] _. unfold imported. simpl.
    destruct (FindByNumber answers); [done|].
    destruct (TitleFiles answers) as [e|e|files]; simpl; try done.
    pose proof (findXML_spec files) as Hf.
    destruct (findXML files) as [t|]; [|done].
    destruct Hf as (before & after & -> & Hx & _). intros _.
    exists (before ++ t :: after), t. split; [done|]. split; [|done].
    apply elem_of_app. right. left.
Qed.
End HistoricalImport.

Section MoreExamples.
Import xml data parser service samples.

(** [Parse_records_provenance] on an example. *)
Lemma Parse_records_provenance_witness :
  exists result structure,
    Parse (lib := lib) theParser serviceSamples.nested = Some (inl result) /\
    structure ∈ Structures result /\
    TitleId structure = titleId theParser /\
    TitleNumber structure = titleNumber theParser /\
    InternalId structure = 0%Z /\ Id structure = "" /\
    ParentId structure = None /\
    (0 <= DivLevel structure < 256)%Z /\
    exists parentPath,
      Path structure = buildPath parentPath (Identifier structure).
Proof.
  assert (H : exists result structure,
    Parse (lib := lib) theParser serviceSamples.nested = Some (inl result) /\
    structure ∈ Structures result).
  { vm_compute. eexists _, _. split; [reflexivity|left]. }
  destruct H as (result & structure & HP & Hin).
  exists result, structure. split; [exact HP|]. split; [exact Hin|].
  exact (Parse_records_provenance theParser serviceSamples.nested result HP
           structure Hin).
Defined.

(** [Parse_text_and_word_count] on an example. *)
Lemma Parse_text_and_word_count_witness :
  exists result structure,
    Parse (lib := lib) theParser serviceSamples.nested = Some (inl result) /\
    structure ∈ Structures result /\
    (0 <= WordCount structure)%Z /\
    (TextContent structure = None -> WordCount structure = 0%Z) /\
    (forall body, TextContent structure = Some body ->
       body <> "" /\
       WordCount structure = Z.of_nat (length (Fields (GoLib := lib) body))).
Proof.
  assert (H : exists result structure,
    Parse (lib := lib) theParser serviceSamples.nested = Some (inl result) /\
    structure ∈ Structures result).
  { vm_compute. eexists _, _. split; [reflexivity|right; left]. }
  destruct H as (result & structure & HP & Hin).
  exists result, structure. split; [exact HP|]. split; [exact Hin|].
  exact (Parse_text_and_word_count theParser serviceSamples.nested result HP
           structure Hin).
Defined.

(** [Parse_parent_precedes_child] on an example. *)
Lemma Parse_parent_precedes_child_witness :
  exists result structure,
    Parse (lib := lib) theParser serviceSamples.nested = Some (inl result) /\
    Structures result !! 1 = Some structure /\
    (Path structure = Identifier structure \/
     exists j parent,
       j < 1 /\ Structures result !! j = Some parent /\
       Path structure = buildPath (Path parent) (Identifier structure)).
Proof.
  assert (H : exists result structure,
    Parse (lib := lib) theParser serviceSamples.nested = Some (inl result) /\
    Structures result !! 1 = Some structure).
  { vm_compute. eexists _, _. split; reflexivity. }
  destruct H as (result & structure & HP & Hin).
  exists result, structure. split; [exact HP|]. split; [exact Hin|].
  exact (Parse_parent_precedes_child theParser serviceSamples.nested result HP
           1 structure Hin).
Defined.

(** [linkParents_links_to_last] on an example. *)
Lemma linkParents_links_to_last_witness :
  serviceSamples.twins !! 2 = Some (serviceSamples.record "1/A") /\
  getParentPath (Path (serviceSamples.record "1/A")) <> "" /\
  serviceSamples.twins !! 0 = Some (serviceSamples.record "1") /\
  Path (serviceSamples.record "1")
  = getParentPath (Path (serviceSamples.record "1/A")) /\
  exists last parent,
    linkParents serviceSamples.twins !! 2
    = Some (setParentId (serviceSamples.record "1/A") (Some last)) /\
    serviceSamples.twins !! last = Some parent /\
    Path parent = getParentPath (Path (serviceSamples.record "1/A")) /\
    0 <= last.
Proof.
  assert (H1 : serviceSamples.twins !! 2
               = Some (serviceSamples.record "1/A")) by reflexivity.
  assert (H2 : getParentPath (Path (serviceSamples.record "1/A")) <> "")
    by (vm_compute; discriminate).
  assert (H3 : serviceSamples.twins !! 0
               = Some (serviceSamples.record "1")) by reflexivity.
  assert (H4 : Path (serviceSamples.record "1")
               = getParentPath (Path (serviceSamples.record "1/A")))
    by reflexivity.
  repeat (split; [assumption|]).
  exact (linkParents_links_to_last serviceSamples.twins 2 0
           (serviceSamples.record "1/A") (serviceSamples.record "1")
           H1 H2 H3 H4).
Defined.

(** [Parse_then_linkParents] on an example. *)
Lemma Parse_then_linkParents_witness :
  exists result structure,
    Parse (lib := lib) theParser serviceSamples.nested = Some (inl result) /\
    Structures result !! 1 = Some structure /\
    hasSeparator (Identifier structure) = false /\
    ((Path structure = Identifier structure /\
      linkParents (Structures result) !! 1 = Some structure) \/
     (exists j parent last other,
        j < 1 /\ Structures result !! j = Some parent /\
        Path parent <> "" /\
        Path structure = (Path parent +:+ "/") +:+ Identifier structure /\
        linkParents (Structures result) !! 1
          = Some (setParentId structure (Some last)) /\
        j <= last /\
        Structures result !! last = Some other /\
        Path other = Path parent)).
Proof.
  assert (H : exists result structure,
    Parse (lib := lib) theParser serviceSamples.nested = Some (inl result) /\
    Structures result !! 1 = Some structure /\
    hasSeparator (Identifier structure) = false).
  { vm_compute. eexists _, _. repeat split; reflexivity. }
  destruct H as (result & structure & HP & Hin & Hsep).
  exists result, structure. split; [exact HP|]. split; [exact Hin|].
  split; [exact Hsep|].
  exact (Parse_then_linkParents theParser serviceSamples.nested result HP
           1 structure Hin Hsep).
Defined.
End MoreExamples.

Section ServiceExamples.
Import xml data parser service concurrent delivery fmt samples schedules.
Import cfrStructureService serviceSamples.

(** [processTitle_rejects_malformed_before_deleting] on an example. *)
Lemma processTitle_rejects_malformed_witness :
  GetContent (serving truncated) (Name title41) = inl truncated /\
  malformed (NewDecoder (GoLib := lib) truncated) /\
  exists msg,
    processTitle (lib := lib) (serving truncated) title41
    = Some ([CallGetContent (Name title41)],
            Some (Errorf "failed to parse XML: %w"
                    (parserError (parser.Errorf "error parsing XML: %w"
                                                (SyntaxError msg))))).
Proof.
  assert (H1 : GetContent (serving truncated) (Name title41) = inl truncated)
    by reflexivity.
  assert (H2 : malformed (NewDecoder (GoLib := lib) truncated)).
  { vm_compute. eexists. reflexivity. }
  split; [exact H1|]. split; [exact H2|].
  exact (processTitle_rejects_malformed_before_deleting
           (lib := lib) (serving truncated) title41 truncated H1 H2).
Defined.

(** [processTitle_inserts_linked_records] on an example. *)
Lemma processTitle_inserts_linked_records_witness :
  exists calls structures,
    processTitle (lib := lib) (serving nested) title40 = Some (calls, None) /\
    CallBatchInsert structures ∈ calls /\
    calls = [CallGetContent (Name title40);
             CallDeleteByTitleId (InternalId title40);
             CallBatchInsert structures] /\
    structures <> [] /\
    (forall structure, structure ∈ structures ->
       TitleId structure = InternalId title40 /\
       TitleNumber structure = Name title40 /\
       data.InternalId structure = 0%Z) /\
    (forall structure k, structure ∈ structures ->
       ParentId structure = Some k ->
       exists parent,
         structures !! k = Some parent /\
         data.InternalId parent = 0%Z /\
         Path parent = getParentPath (Path structure)).
Proof.
  assert (H : exists calls structures,
    processTitle (lib := lib) (serving nested) title40 = Some (calls, None) /\
    CallBatchInsert structures ∈ calls).
  { vm_compute. eexists _, _. split; [reflexivity|]. right. right. left. }
  destruct H as (calls & structures & HP & Hin).
  exists calls, structures. split; [exact HP|]. split; [exact Hin|].
  exact (processTitle_inserts_linked_records (lib := lib) (serving nested)
           title40 calls None structures HP Hin).
Defined.

(** [ProcessAllTitles_reports_each_title] on an example. *)
Lemma ProcessAllTitles_reports_each_title_witness :
  exists s result,
    runSchedule runner (worker (lib := lib) errorText)
      (sequentialSchedule (worker (lib := lib) errorText <$> titleItems))
      (initial titleItems) = Some s /\
    main s = Returned result /\
    Results result ≡ₚ
      (fun item => "Title " +:+ Sprintf_d (Name (fst item)))
        <$> List.filter (succeeds (lib := lib)) titleItems /\
    Errors result ≡ₚ
      omap (fun item =>
              (fun err =>
                 errorText
                   (Errorf (("title " +:+ Sprintf_d (Name (fst item)))
                            +:+ ": %w") err))
                <$> failure (lib := lib) item) titleItems /\
    length (Results result) + length (Errors result) = length titleItems.
Proof.
  assert (H : exists s result,
    runSchedule runner (worker (lib := lib) errorText)
      (sequentialSchedule (worker (lib := lib) errorText <$> titleItems))
      (initial titleItems) = Some s /\
    main s = Returned result).
  { vm_compute. eexists _, _. split; reflexivity. }
  destruct H as (s & result & Hs & Hm).
  exists s, result. split; [exact Hs|]. split; [exact Hm|].
  exact (ProcessAllTitles_reports_each_title (lib := lib) errorText
           titleItems s result
           (runSchedule_reachable runner (worker (lib := lib) errorText)
              (sequentialSchedule (worker (lib := lib) errorText <$> titleItems))
              (initial titleItems) s Hs) Hm).
Defined.
End ServiceExamples.

Section RunExamples.
Import xml data parser service concurrent delivery fmt samples schedules runs.
Import cfrStructureService serviceSamples.

(** [ProcessAllTitles_logs_each_title_in_order] on an example. *)
Lemma ProcessAllTitles_logs_each_title_in_order_witness :
  exists s result,
    runSchedule runner (worker (lib := lib) errorText)
      (sequentialSchedule (worker (lib := lib) errorText <$> titleItems))
      (initial titleItems) = Some s /\
    main s = Returned result /\
    titleItems !! 0 = Some (title40, serving nested) /\
    exists outcome,
      ["CFR Structure Parser: Processing: Title "
         +:+ Sprintf_d (Name title40);
       "CFR Structure Parser: " +:+ outcome] `sublist_of` logged s /\
      (if succeeds (lib := lib) (title40, serving nested)
       then outcome = "Success: Title " +:+ Sprintf_d (Name title40)
       else exists err,
         failure (lib := lib) (title40, serving nested) = Some err /\
         outcome = (("Failed: Title " +:+ Sprintf_d (Name title40)) +:+ " - ")
                   +:+ errorText err).
Proof.
  assert (H : exists s result,
    runSchedule runner (worker (lib := lib) errorText)
      (sequentialSchedule (worker (lib := lib) errorText <$> titleItems))
      (initial titleItems) = Some s /\
    main s = Returned result).
  { vm_compute. eexists _, _. split; reflexivity. }
  destruct H as (s & result & Hs & Hm).
  exists s, result. split; [exact Hs|]. split; [exact Hm|].
  split; [reflexivity|].
  exact (ProcessAllTitles_logs_each_title_in_order (lib := lib) errorText
           titleItems s result 0 title40 (serving nested)
           (runSchedule_reachable runner (worker (lib := lib) errorText)
              (sequentialSchedule (worker (lib := lib) errorText <$> titleItems))
              (initial titleItems) s Hs) Hm eq_refl).
Defined.

(** [Run_delivers_every_value] on an example. *)
Lemma Run_delivers_every_value_witness :
  exists s result,
    runSchedule oneSlot parity fullSchedule (initial [1; 2]) = Some s /\
    main s = Returned result /\
    Results result ≡ₚ allResults parity [1; 2] /\
    Errors result ≡ₚ allErrors parity [1; 2] /\
    logged s ≡ₚ
      (fun m => (LogPrefix (config oneSlot) +:+ ": ") +:+ m)
        <$> allMessages parity [1; 2].
Proof.
  assert (H : exists s result,
    runSchedule oneSlot parity fullSchedule (initial [1; 2]) = Some s /\
    main s = Returned result).
  { vm_compute. eexists _, _. split; reflexivity. }
  destruct H as (s & result & Hs & Hm).
  exists s, result. split; [exact Hs|]. split; [exact Hm|].
  exact (Run_delivers_every_value oneSlot parity [1; 2] s result
           (runSchedule_reachable oneSlot parity fullSchedule
              (initial [1; 2]) s Hs) Hm).
Defined.

(** [Run_closes_channels_after_workers] on an example. *)
Lemma Run_closes_channels_after_workers_witness :
  exists s,
    runSchedule oneSlot parity fullSchedule (initial [1; 2]) = Some s /\
    messagesClosed s || resultsClosed s || errorsClosed s = true /\
    length (workers s) = length [1; 2] /\
    Forall (fun g => g = Exited) (workers s) /\
    workersWg s = 0.
Proof.
  assert (H : exists s,
    runSchedule oneSlot parity fullSchedule (initial [1; 2]) = Some s /\
    messagesClosed s || resultsClosed s || errorsClosed s = true).
  { vm_compute. eexists. split; reflexivity. }
  destruct H as (s & Hs & Hc).
  exists s. split; [exact Hs|]. split; [exact Hc|].
  exact (Run_closes_channels_after_workers oneSlot parity [1; 2] s
           (runSchedule_reachable oneSlot parity fullSchedule
              (initial [1; 2]) s Hs) Hc).
Defined.

(** [Run_keeps_each_workers_order] on an example. *)
Lemma Run_keeps_each_workers_order_witness :
  exists s result,
    runSchedule oneSlot parity fullSchedule (initial [1; 2]) = Some s /\
    main s = Returned result /\
    [1; 2] !! 1 = Some 2 /\
    resultsIn (parity 2) `sublist_of` Results result /\
    errorsIn (parity 2) `sublist_of` Errors result /\
    ((fun m => (LogPrefix (config oneSlot) +:+ ": ") +:+ m)
       <$> messagesIn (parity 2)) `sublist_of` logged s.
Proof.
  assert (H : exists s result,
    runSchedule oneSlot parity fullSchedule (initial [1; 2]) = Some s /\
    main s = Returned result).
  { vm_compute. eexists _, _. split; reflexivity. }
  destruct H as (s & result & Hs & Hm).
  exists s, result. split; [exact Hs|]. split; [exact Hm|].
  split; [reflexivity|].
  exact (Run_keeps_each_workers_order oneSlot parity [1; 2] s result 1 2
           (runSchedule_reachable oneSlot parity fullSchedule
              (initial [1; 2]) s Hs) Hm eq_refl).
Defined.

(** [Run_reaches_full_concurrency] on an example. *)
Lemma Run_reaches_full_concurrency_witness :
  2 <= length [1; 2] /\
  ((0 < MaxConcurrency (config negativeRunner))%Z ->
   (Z.of_nat 2 <= MaxConcurrency (config negativeRunner))%Z) /\
  exists s, reachable negativeRunner parity [1; 2] s /\ executing s = 2 /\
            length (workers s) = 2.
Proof.
  assert (H1 : 2 <= length [1; 2]) by (simpl; lia).
  assert (H2 : (0 < MaxConcurrency (config negativeRunner))%Z ->
               (Z.of_nat 2 <= MaxConcurrency (config negativeRunner))%Z)
    by (simpl; lia).
  split; [exact H1|]. split; [exact H2|].
  exact (Run_reaches_full_concurrency negativeRunner parity [1; 2] 2 H1 H2).
Defined.
End RunExamples.

Section ChangeExamples.
Import xml data parser samples changeMetrics serviceSamples.

(** [computeTitleChange_same_content_no_change] on an example. *)
Lemma computeTitleChange_same_content_witness :
  let get := fun (n : Z) (date : string) =>
    inl (Some (mkTitleVersionWithContent
                 (if String.eqb date "2024-01-01" then 7 else 9)%Z
                 nested)) : option TitleVersionWithContent + string in
  get 40%Z "2024-01-01"
  = inl (Some (mkTitleVersionWithContent 7 nested)) /\
  get 40%Z "2025-01-01"
  = inl (Some (mkTitleVersionWithContent 9 nested)) /\
  Content (mkTitleVersionWithContent 7 nested)
  = Content (mkTitleVersionWithContent 9 nested) /\
  finalError (NewDecoder (GoLib := lib)
                (Content (mkTitleVersionWithContent 7 nested)))
  = Some io_EOF /\
  exists change,
    computeTitleChange (lib := lib) get 40%Z "2024-01-01" "2025-01-01"
    = Some (inl change) /\
    changeTracking.WordCountChange change = 0%Z /\
    changeTracking.SectionCountChange change = 0%Z /\
    changeTracking.TotalWordsStart change
    = changeTracking.TotalWordsEnd change /\
    changeTracking.TotalSectionsStart change
    = changeTracking.TotalSectionsEnd change.
Proof.
  intros get.
  assert (H1 : get 40%Z "2024-01-01"
               = inl (Some (mkTitleVersionWithContent 7 nested)))
    by reflexivity.
  assert (H2 : get 40%Z "2025-01-01"
               = inl (Some (mkTitleVersionWithContent 9 nested)))
    by reflexivity.
  assert (H3 : Content (mkTitleVersionWithContent 7 nested)
               = Content (mkTitleVersionWithContent 9 nested))
    by reflexivity.
  assert (H4 : finalError (NewDecoder (GoLib := lib)
                 (Content (mkTitleVersionWithContent 7 nested)))
               = Some io_EOF) by reflexivity.
  repeat (split; [assumption|]).
  exact (computeTitleChange_same_content_no_change (lib := lib) get 40%Z
           "2024-01-01" "2025-01-01" _ _ H1 H2 H3 H4).
Defined.
End ChangeExamples.

Section AgencyExamples.
Import concurrent delivery schedules computedValueService agencySamples.

Lemma noNil_heap : noNil heap [0; 1].
Proof.
  intros agency Hin.
  repeat (apply elem_of_cons in Hin as [->|Hin];
          [split; [simpl; lia|];
           intros child Hc; vm_compute in Hc;
           repeat (apply elem_of_cons in Hc as [->|Hc]; [simpl; lia|]);
           by apply elem_of_nil in Hc|]).
  by apply elem_of_nil in Hin.
Defined.

(** [extractSubAgencies_sets_parents] on an example. *)
Lemma extractSubAgencies_sets_parents_witness :
  noNil heap [0; 1] /\
  exists heap',
    extractSubAgencies heap [0; 1]
    = Some (heap', [0; 1] ≫= childrenOf heap) /\
    sameButParent heap heap' /\
    (forall child, child ∈ ([0; 1] ≫= childrenOf heap) ->
       exists subAgency agency,
         heap' !! child = Some subAgency /\
         Parent subAgency = Some agency /\
         agency ∈ [0; 1] /\ child ∈ childrenOf heap agency) /\
    (forall q, q ∉ ([0; 1] ≫= childrenOf heap) -> heap' !! q = heap !! q).
Proof.
  split; [exact noNil_heap|].
  exact (extractSubAgencies_sets_parents heap [0; 1] noNil_heap).
Defined.

(** [ProcessAgencyMetrics_reports_each_agency] on an example. *)
Lemma ProcessAgencyMetrics_reports_each_agency_witness :
  exists s result,
    runSchedule agencyRunner processAgencyMetric
      (sequentialSchedule (processAgencyMetric <$> agencyItems))
      (initial agencyItems) = Some s /\
    main s = Returned result /\
    Results result ≡ₚ
      (fun item => Slug (fst item))
        <$> List.filter (fun item => succeeds (snd item)) agencyItems /\
    length (Results result) + length (Errors result) = length agencyItems /\
    (forall e, e ∈ Errors result ->
       exists item err, item ∈ agencyItems /\ succeeds (snd item) = false /\
         e = (("agency " +:+ Slug (fst item)) +:+ ": ") +:+ err).
Proof.
  assert (H : exists s result,
    runSchedule agencyRunner processAgencyMetric
      (sequentialSchedule (processAgencyMetric <$> agencyItems))
      (initial agencyItems) = Some s /\
    main s = Returned result).
  { vm_compute. eexists _, _. split; reflexivity. }
  destruct H as (s & result & Hs & Hm).
  exists s, result. split; [exact Hs|]. split; [exact Hm|].
  exact (ProcessAgencyMetrics_reports_each_agency agencyItems s result
           (runSchedule_reachable agencyRunner processAgencyMetric
              (sequentialSchedule (processAgencyMetric <$> agencyItems))
              (initial agencyItems) s Hs) Hm).
Defined.

(** [ProcessSubAgencyMetrics_finds_every_parent] on an example. *)
Lemma ProcessSubAgencyMetrics_finds_every_parent_witness :
  noNil heap [0; 1] /\
  (forall item, item ∈ [(2, calm); (2, failing); (3, calm)] ->
     fst item ∈ ([0; 1] ≫= childrenOf heap)) /\
  exists heap',
    extractSubAgencies heap [0; 1]
    = Some (heap', [0; 1] ≫= childrenOf heap) /\
    (forall item, item ∈ [(2, calm); (2, failing); (3, calm)] ->
       exists subAgency agency parent,
         heap !! fst item = Some subAgency /\
         agency ∈ [0; 1] /\ fst item ∈ childrenOf heap agency /\
         heap !! agency = Some parent /\
         processSubAgencyMetric heap' item
         = Message (((("Processing: " +:+ Name subAgency)
                        +:+ " (sub-agency of ") +:+ Slug parent) +:+ ")")
           :: report "sub-agency" (Name subAgency) (snd item)) /\
    (forall s result,
       reachable subAgencyRunner (processSubAgencyMetric heap')
                 [(2, calm); (2, failing); (3, calm)] s ->
       main s = Returned result ->
       length (Results result) + length (Errors result)
       = length [(2, calm); (2, failing); (3, calm)]).
Proof.
  assert (H : forall item, item ∈ [(2, calm); (2, failing); (3, calm)] ->
     fst item ∈ ([0; 1] ≫= childrenOf heap)).
  { intros item Hin. vm_compute.
    repeat (apply elem_of_cons in Hin as [->|Hin];
            [simpl; first [left|right; left|right; right; left]|]).
    by apply elem_of_nil in Hin. }
  split; [exact noNil_heap|]. split; [exact H|].
  exact (ProcessSubAgencyMetrics_finds_every_parent heap [0; 1]
           [(2, calm); (2, failing); (3, calm)] noNil_heap H).
Defined.
End AgencyExamples.

Section ImportExamples.
Import concurrent delivery schedules titleVersionService importSamples.

(** [ImportHistoricalTitles_reports_each_file] on an example. *)
Lemma ImportHistoricalTitles_reports_each_file_witness :
  exists s result,
    runSchedule (runner "2024-01-01") processTitleVersionFile
      (sequentialSchedule (processTitleVersionFile <$> fileItems))
      (initial fileItems) = Some s /\
    main s = Returned result /\
    Results result ≡ₚ
      (fun item => CFRTitle (fst item)) <$> List.filter imported fileItems /\
    length (Results result) + length (Errors result) = length fileItems /\
    (forall item, item ∈ fileItems -> imported item = true ->
       exists files titleFile,
         TitleFiles (snd item) = TitleFilesResponse files /\
         titleFile ∈ files /\ FileExtension titleFile = "xml").
Proof.
  assert (H : exists s result,
    runSchedule (runner "2024-01-01") processTitleVersionFile
      (sequentialSchedule (processTitleVersionFile <$> fileItems))
      (initial fileItems) = Some s /\
    main s = Returned result).
  { vm_compute. eexists _, _. split; reflexivity. }
  destruct H as (s & result & Hs & Hm).
  exists s, result. split; [exact Hs|]. split; [exact Hm|].
  exact (ImportHistoricalTitles_reports_each_file "2024-01-01" fileItems
           s result
           (runSchedule_reachable (runner "2024-01-01")
              processTitleVersionFile
              (sequentialSchedule (processTitleVersionFile <$> fileItems))
              (initial fileItems) s Hs) Hm).
Defined.
End ImportExamples.

Section ProvenanceExamples.
Import xml data parser samples provenance serviceSamples.

(** [Parse_records_come_from_tags] on an example. *)
Lemma Parse_records_come_from_tags_witness :
  exists result,
    Parse (lib := lib) theParser nested = Some (inl result) /\
    Forall (fromTag (pending (NewDecoder (GoLib := lib) nested)))
           (Structures result) /\
    length (Structures result)
    <= length (hierarchyTags (pending (NewDecoder (GoLib := lib) nested))).
Proof.
  assert (H : exists result,
    Parse (lib := lib) theParser nested = Some (inl result)).
  { vm_compute. eexists. reflexivity. }
  destruct H as (result & HP).
  exists result. split; [exact HP|].
  exact (Parse_records_come_from_tags (lib := lib) theParser nested result HP).
Defined.
End ProvenanceExamples.

(** * Proofs about recognition and about repeated calls *)

Section Recognition.
Context {lib : GoLib}.
Import xml data parser recognition.






(** *** The decoder *)




Lemma Token_broken d :
  broken d ->
  exists e, Decoder_Token d = (inr e, d) /\ (e = io_EOF -> pending d = []).
Proof.
  intros (e0 & He & Hb). unfold Decoder_Token. rewrite He.
  eexists. split; [reflexivity|]. unfold unexpectedEOF.
  destruct Hb as [Hp|[msg ->]]; [done|]. done.
Qed.



(** *** Composition of traces *)








(** *** The loops on a decoder that has failed *)


Lemma readHead_broken fuel d text d' text' :
  broken d -> readHead fuel d text = Some (d', text') ->
  d' = d /\ text' = text.
Proof.
  intros (e & Ht & _)%Token_broken H. destruct fuel; [discriminate|].
  simpl in H. rewrite Ht in H. by injection H as <- <-.
Qed.



(** *** The loops that make no record *)



(** *** The loops that make records *)






(** *** Tags that only hierarchy elements precede *)






End Recognition.

Section DivTags.
Import xml data parser recognition.

End DivTags.

Section RecognitionExamples.
Import xml data parser recognition samples recognitionSamples.



(** A tag of four bytes that does not start with "DIV" gives no record. *)
Lemma HEAD_on_top_gives_no_record :
  Parse (lib := recognitionSamples.lib) theParser headOnTop
  = Some (inl (mkParseResult [] 0)).
Proof. reflexivity. Qed.

(** The inner loop over a HEAD element ends at the first end tag named
    HEAD: a DIV2 element that follows an inner HEAD element inside a
    HEAD element is read by the main loop again and gives a record. *)
Lemma DIV_after_inner_HEAD_is_recognized :
  Parse (lib := recognitionSamples.lib) theParser headInHead
  = Some (inl (mkParseResult
      [mkCfrStructure 0 "" 7 40 "" 1 "1" None (Some "x") None 0 None "1";
       mkCfrStructure 0 "" 7 40 "" 2 "A" None None (Some "foo") 1 None "1/A"]
      1)) /\
  recognized [] (pending (NewDecoder (GoLib := recognitionSamples.lib)
                                     headInHead))
  = [StartElement (name "DIV1") [attr "N" "1"];
     StartElement (name "DIV2") [attr "N" "A"]].
Proof. split; reflexivity. Qed.
End RecognitionExamples.

Section StoreFacts.
Context {lib : GoLib}.
Import xml data parser.

Lemma after_decoder dptr d d' new h :
  store.decoders h !! dptr = Some d ->
  store.decoders (store.after dptr d' new h) !! dptr = Some d'.
Proof.
  intros H. simpl. apply list_lookup_insert_eq. by eapply lookup_lt_Some.
Qed.

Lemma after_after dptr d1 d2 n1 n2 h :
  store.after dptr d2 n2 (store.after dptr d1 n1 h)
  = store.after dptr d2 (n1 ++ n2) h.
Proof.
  unfold store.after, store.addStructures, store.setDecoder. simpl.
  by rewrite list_insert_insert_eq, app_assoc.
Qed.

Lemma after_nil dptr d h :
  store.setDecoder dptr d h = store.after dptr d [] h.
Proof.
  unfold store.after, store.addStructures. simpl. by rewrite app_nil_r.
Qed.

Lemma Token_run dptr d h x d' :
  store.decoders h !! dptr = Some d -> Decoder_Token d = (x, d') ->
  store.Token dptr h = store.Returns x (store.after dptr d' [] h).
Proof.
  intros Hd Ht. unfold store.Token. rewrite Hd, Ht. by rewrite after_nil.
Qed.

Lemma pointTo_app objects new l k :
  store.pointTo objects l k -> store.pointTo (objects ++ new) l k.
Proof.
  intros H. eapply Forall2_impl; [exact H|].
  intros q s Hq. by apply lookup_app_l_Some.
Qed.

(** *** The loops that allocate nothing *)

Lemma extractTextContent_sim fuel : forall dptr d sl tc d' tc' h,
  store.decoders h !! dptr = Some d ->
  extractTextContent fuel d sl tc = Some (d', tc') ->
  store.extractTextContent fuel dptr sl tc h
  = store.Returns tc' (store.after dptr d' [] h).
Proof.
  induction fuel as [|fuel IH]; intros dptr d sl tc d1 tc1 h Hd H;
    [discriminate|].
  simpl in H. simpl. unfold store.bind.
  destruct (Decoder_Token d) as [[tok|e] d'] eqn:Ht;
    rewrite (Token_run _ _ _ _ _ Hd Ht).
  - assert (Hd' : store.decoders (store.after dptr d' [] h) !! dptr = Some d')
      by (by eapply after_decoder).
    assert (Hnext : forall tc2,
      extractTextContent fuel d' sl tc2 = Some (d1, tc1) ->
      store.extractTextContent fuel dptr sl tc2 (store.after dptr d' [] h)
      = store.Returns tc1 (store.after dptr d1 [] h)).
    { intros tc2 H2. rewrite (IH _ _ _ _ _ _ _ Hd' H2). by rewrite after_after. }
    destruct tok; try (by apply Hnext).
    + destruct (extractTextContent fuel d' _ tc) as [[d2 tc2]|] eqn:H2;
        [|discriminate].
      rewrite (IH _ _ _ _ _ _ _ Hd' H2), after_after. simpl.
      rewrite (IH _ d2 _ _ _ _ _ (after_decoder _ _ _ _ _ Hd) H).
      by rewrite after_after.
    + destruct (String.eqb _ _); [|by apply Hnext].
      by injection H as <- <-.
  - by injection H as <- <-.
Qed.

Lemma readHead_sim fuel : forall dptr d text d' text' h,
  store.decoders h !! dptr = Some d ->
  readHead fuel d text = Some (d', text') ->
  store.readHead fuel dptr text h
  = store.Returns text' (store.after dptr d' [] h).
Proof.
  induction fuel as [|fuel IH]; intros dptr d text d1 text1 h Hd H;
    [discriminate|].
  simpl in H. simpl. unfold store.bind.
  destruct (Decoder_Token d) as [[tok|e] d'] eqn:Ht;
    rewrite (Token_run _ _ _ _ _ Hd Ht).
  - assert (Hd' : store.decoders (store.after dptr d' [] h) !! dptr = Some d')
      by (by eapply after_decoder).
    assert (Hnext : forall text2,
      readHead fuel d' text2 = Some (d1, text1) ->
      store.readHead fuel dptr text2 (store.after dptr d' [] h)
      = store.Returns text1 (store.after dptr d1 [] h)).
    { intros t2 H2. rewrite (IH _ _ _ _ _ _ Hd' H2). by rewrite after_after. }
    destruct tok; try (by apply Hnext).
    destruct (String.eqb _ _); [|by apply Hnext].
    by injection H as <- <-.
  - by injection H as <- <-.
Qed.

(** *** The loops that allocate records *)

Lemma addWordCounts_sim children : forall structs z h,
  store.pointTo (store.structures h) children structs ->
  store.addWordCounts children z h
  = store.Returns
      (fold_left (fun acc child => acc + WordCount child)%Z structs z) h.
Proof.
  induction children as [|q children IH]; intros structs z h Hp.
  - by apply Forall2_nil_inv_l in Hp as ->.
  - apply Forall2_cons_inv_l in Hp as (s & structs' & Hq & Hp & ->).
    simpl. unfold store.bind, store.loadWordCount. rewrite Hq.
    by apply IH.
Qed.

Lemma addStructures_after dptr d new record h :
  store.addStructures [record] (store.after dptr d new h)
  = store.after dptr d (new ++ [record]) h.
Proof.
  unfold store.after, store.addStructures. simpl. by rewrite app_assoc.
Qed.

Lemma buildStructures_sim p c attrs lvl pid path body body0 h :
  store.parsers h !! p = Some c ->
  store.sameBody (store.structures h) body body0 ->
  exists ptrs,
    store.buildStructures p attrs lvl pid path body h
    = store.Returns
        (ptrs, snd (buildStructures c attrs lvl pid path body0))
        (store.addStructures
           [newStructure c attrs lvl pid path (heading body0)
                         (textContent body0)] h) /\
    store.pointTo
      (store.structures h
         ++ [newStructure c attrs lvl pid path (heading body0)
                          (textContent body0)])
      ptrs (fst (buildStructures c attrs lvl pid path body0)).
Proof.
  intros Hc (Hh & Ht & Hp).
  rewrite buildStructures_eq. simpl.
  unfold store.buildStructures, store.bind, store.loadParser.
  rewrite Hc. unfold store.allocStructure. rewrite Hh, Ht.
  set (record := newStructure c attrs lvl pid path (heading body0)
                              (textContent body0)).
  rewrite (addWordCounts_sim _ (childStructures body0)).
  - rewrite sumWordCount_from, append_each. eexists. split; [reflexivity|].
    constructor.
    + simpl. by apply list_lookup_middle.
    + by apply pointTo_app.
  - simpl. by apply pointTo_app.
Qed.

Lemma parseDiv_sim p c fuel :
  (forall dptr d name attr lvl pid pp d' structs w h,
      store.parsers h !! p = Some c ->
      store.decoders h !! dptr = Some d ->
      parseDivElement fuel c d name attr lvl pid pp = Some (d', (structs, w)) ->
      exists ptrs new,
        store.parseDivElement fuel p dptr name attr lvl pid pp h
        = store.Returns (ptrs, w) (store.after dptr d' new h) /\
        store.pointTo (store.structures h ++ new) ptrs structs) /\
  (forall dptr d sl path body body0 d' body0' h,
      store.parsers h !! p = Some c ->
      store.decoders h !! dptr = Some d ->
      store.sameBody (store.structures h) body body0 ->
      parseDivLoop fuel c d sl path body0 = Some (d', body0') ->
      exists body' new,
        store.parseDivLoop fuel p dptr sl path body h
        = store.Returns body' (store.after dptr d' new h) /\
        store.sameBody (store.structures h ++ new) body' body0').
Proof.
  induction fuel as [|fuel [IHe IHl]];
    (split; [intros dptr d name attr lvl pid pp d1 structs w h Hc Hd H
            |intros dptr d sl path body body0 d1 body1 h Hc Hd Hb H]);
    try discriminate.
  - simpl in H.
    destruct (parseDivLoop fuel c d _ _ _) as [[d2 b2]|] eqn:H2;
      [|discriminate].
    destruct (IHl dptr d _ _ (store.mkDivBody None "" [])
                  (mkDivBody None "" []) _ _ h Hc Hd
                  ltac:(repeat split; constructor) H2)
      as (body' & new & Hrun & Hsame).
    simpl. unfold store.bind. rewrite Hrun.
    destruct (buildStructures_sim p c (scanAttrs attr) lvl pid
                (buildPath pp (identifier (scanAttrs attr))) body' b2
                (store.after dptr d2 new h) Hc Hsame)
      as (ptrs & Hbuild & Hpt).
    rewrite Hbuild, addStructures_after.
    injection H as <- Hs Hw.
    exists ptrs, (new ++ [newStructure c (scanAttrs attr) lvl pid
                            (buildPath pp (identifier (scanAttrs attr)))
                            (heading b2) (textContent b2)]).
    rewrite <- Hw. split; [reflexivity|].
    rewrite <- Hs, app_assoc. exact Hpt.
  - simpl in H. simpl. unfold store.bind.
    destruct (Decoder_Token d) as [[tok|e] d'] eqn:Ht;
      rewrite (Token_run _ _ _ _ _ Hd Ht).
    + assert (Hd' : store.decoders (store.after dptr d' [] h) !! dptr = Some d')
        by (by eapply after_decoder).
      assert (Hnext : forall b b0 d2 new,
        store.sameBody (store.structures h ++ new) b b0 ->
        parseDivLoop fuel c d2 sl path b0 = Some (d1, body1) ->
        exists body' new',
          store.parseDivLoop fuel p dptr sl path b (store.after dptr d2 new h)
          = store.Returns body' (store.after dptr d1 new' h) /\
          store.sameBody (store.structures h ++ new') body' body1).
      { intros b b0 d2 new Hs H2.
        destruct (IHl dptr d2 sl path b b0 d1 body1 (store.after dptr d2 new h)
                      Hc (after_decoder _ _ _ _ _ Hd) Hs H2)
          as (body' & new' & Hrun & Hsame).
        exists body', (new ++ new'). rewrite Hrun, after_after.
        split; [done|]. simpl in Hsame. by rewrite app_assoc. }
      assert (Hb' : store.sameBody (store.structures h ++ []) body body0)
        by (by rewrite app_nil_r).
      destruct tok; try (by eapply Hnext).
      * destruct (String.eqb (Local name) "HEAD").
        { destruct (readHead fuel d' "") as [[d2 ht]|] eqn:Hr; [|discriminate].
          rewrite (readHead_sim _ _ _ _ _ _ _ Hd' Hr), after_after.
          eapply Hnext; [|exact H].
          destruct Hb' as (? & ? & ?). by repeat split. }
        destruct (isDivElement (Local name)).
        { destruct (parseDivElement fuel c d' _ _ _ _ _)
            as [[d2 [cd w]]|] eqn:H2; [|discriminate].
          destruct (IHe dptr d' _ _ _ _ _ _ _ _ (store.after dptr d' [] h)
                        Hc Hd' H2)
            as (ptrs & new & Hrun & Hpt).
          rewrite Hrun, after_after. simpl.
          eapply Hnext; [|exact H].
          destruct Hb as (? & ? & Hcs). repeat split; try done. simpl.
          simpl in Hpt. rewrite app_nil_r in Hpt.
          apply Forall2_app; [by apply pointTo_app|done]. }
        destruct (extractTextContent fuel d' _ _) as [[d2 tc2]|] eqn:Hx;
          [|discriminate].
        destruct Hb as (Hh & Htc & Hcs).
        rewrite Htc.
        rewrite (extractTextContent_sim _ _ _ _ _ _ _ _ Hd' Hx), after_after.
        eapply Hnext; [|exact H].
        repeat split; try done. simpl. by rewrite app_nil_r.
      * destruct (String.eqb _ _); [|by eapply Hnext].
        injection H as <- <-. eexists _, _. split; [reflexivity|done].
      * eapply Hnext; [|exact H].
        destruct Hb' as (Hh & Htc & Hcs). repeat split; try done.
        simpl. by rewrite Htc.
    + injection H as <- <-. eexists _, _. split; [reflexivity|].
      by rewrite app_nil_r.
Qed.

Lemma view_pointTo h ptrs structs total :
  store.pointTo (store.structures h) ptrs structs ->
  store.view h (inl (store.mkParseResult ptrs total))
  = Some (inl (mkParseResult structs total)).
Proof.
  intros Hp. unfold store.view, store.loadAll. simpl.
  by apply mapM_Some in Hp as ->.
Qed.

Lemma parseLoop_sim p c fuel : forall dptr d ptrs structs total r h,
  store.parsers h !! p = Some c ->
  store.decoders h !! dptr = Some d ->
  store.pointTo (store.structures h) ptrs structs ->
  parseLoop fuel c d structs total = Some r ->
  exists r' d' new,
    store.parseLoop fuel p dptr ptrs total h
    = store.Returns r' (store.after dptr d' new h) /\
    store.view (store.after dptr d' new h) r' = Some r.
Proof.
  induction fuel as [|fuel IH]; intros dptr d ptrs structs total r h Hc Hd Hp H;
    [discriminate|].
  simpl in H. simpl. unfold store.bind.
  destruct (Decoder_Token d) as [[tok|e] d'] eqn:Ht;
    rewrite (Token_run _ _ _ _ _ Hd Ht).
  - assert (Hd' : store.decoders (store.after dptr d' [] h) !! dptr = Some d')
      by (by eapply after_decoder).
    assert (Hnext : forall l k t d2 new,
      store.pointTo (store.structures h ++ new) l k ->
      parseLoop fuel c d2 k t = Some r ->
      exists r' d3 new',
        store.parseLoop fuel p dptr l t (store.after dptr d2 new h)
        = store.Returns r' (store.after dptr d3 new' h) /\
        store.view (store.after dptr d3 new' h) r' = Some r).
    { intros l k t d2 new Hl H2.
      destruct (IH dptr d2 l k t r (store.after dptr d2 new h)
                   Hc (after_decoder _ _ _ _ _ Hd) Hl H2)
        as (r' & d3 & new' & Hrun & Hview).
      exists r', d3, (new ++ new'). rewrite Hrun.
      by rewrite after_after in *. }
    assert (Hp' : store.pointTo (store.structures h ++ []) ptrs structs)
      by (by rewrite app_nil_r).
    destruct tok; try (by eapply Hnext).
    destruct (isDivElement (Local name)); [|by eapply Hnext].
    destruct (parseDivElement fuel c d' _ _ _ _ _)
      as [[d2 [ds w]]|] eqn:H2; [|discriminate].
    destruct (proj1 (parseDiv_sim p c fuel) dptr d' _ _ _ _ _ _ _ _
                    (store.after dptr d' [] h) Hc Hd' H2)
      as (ps & new & Hrun & Hpt).
    rewrite Hrun, after_after. simpl.
    eapply Hnext; [|exact H].
    simpl in Hpt. rewrite app_nil_r in Hpt.
    apply Forall2_app; [by apply pointTo_app|done].
  - destruct e.
    + injection H as <-. eexists _, d', []. split; [reflexivity|].
      apply view_pointTo. simpl. by rewrite app_nil_r.
    + injection H as <-. eexists _, d', []. split; reflexivity.
Qed.

Lemma view_later h h' r v :
  store.view h r = Some v ->
  store.structures h `prefix_of` store.structures h' ->
  store.view h' r = Some v.
Proof.
  intros Hv [k Hk]. destruct r as [result|e]; [|done].
  unfold store.view, store.loadAll in *.
  destruct (mapM _ (store.Structures result)) as [l|] eqn:Hl; [|done].
  apply mapM_Some in Hl.
  assert (Hl' : mapM (fun q => store.structures h' !! q)
                     (store.Structures result) = Some l).
  { apply mapM_Some. eapply Forall2_impl; [exact Hl|].
    intros q s Hq. rewrite Hk. by apply lookup_app_l_Some. }
  by rewrite Hl'.
Qed.

(** [store.Parse] returns what [parser.Parse] computes from the fields
    of the receiver, and changes no object that was there before. *)
Lemma Parse_sim p c text h r :
  store.parsers h !! p = Some c ->
  Parse c text = Some r ->
  exists r' h',
    store.Parse p text h = store.Returns r' h' /\
    store.view h' r' = Some r /\
    store.parsers h' = store.parsers h /\
    store.decoders h `prefix_of` store.decoders h' /\
    store.structures h `prefix_of` store.structures h'.
Proof.
  intros Hc H. unfold Parse in H.
  unfold store.Parse, store.bind, store.newDecoder, store.fuelFor.
  set (h0 := store.mkStore (store.parsers h)
               (store.decoders h ++ [NewDecoder text]) (store.structures h)).
  assert (Hd : store.decoders h0 !! length (store.decoders h)
               = Some (NewDecoder text)) by (by apply list_lookup_middle).
  rewrite Hd.
  destruct (parseLoop_sim p c _ (length (store.decoders h)) _ [] [] 0%Z r h0
              Hc Hd ltac:(constructor) H) as (r' & d' & new & Hrun & Hview).
  exists r', (store.after (length (store.decoders h)) d' new h0).
  split; [exact Hrun|]. split; [exact Hview|]. split; [done|]. split.
  - simpl. rewrite insert_app_r_alt by lia. by apply prefix_app_r.
  - simpl. by apply prefix_app_r.
Qed.
End StoreFacts.

Section Determinism.
Context {lib : GoLib}.
Import xml data parser.

(** C9.  Determinism.  On a store in which the receiver points to a
    parser object, a call of [Parse] returns and leaves the receiver as
    it was; a second call on the same text, made right after it,
    returns a result that shows the same as the first: the same
    flattened list of records (the same number of records, in the same
    order, with equal fields) and the same total word count, or the
    same error.  So does a call made later, on any store in which the
    receiver has the same fields.  The results hold different
    pointers: each call has a decoder of its own and allocates its own
    records, and where the records of the first call are still in the
    store they are as that call left them. *)
Theorem Parse_deterministic (p : store.ptr) (c : CfrParser) (text : string)
    (h : store.Store) :
  store.parsers h !! p = Some c ->
  exists r1 h1 v,
    store.Parse p text h = store.Returns r1 h1 /\
    store.view h1 r1 = Some v /\
    Parse c text = Some v /\
    store.parsers h1 = store.parsers h /\
    (exists r2 h2,
        store.Parse p text h1 = store.Returns r2 h2 /\
        store.view h2 r2 = Some v /\
        store.view h2 r1 = Some v) /\
    forall h',
      store.parsers h' !! p = Some c ->
      exists r2 h2,
        store.Parse p text h' = store.Returns r2 h2 /\
        store.view h2 r2 = Some v /\
        (store.structures h1 `prefix_of` store.structures h' ->
         store.view h2 r1 = Some v).
Proof.
  intros Hc. destruct (Parse_returns c text) as [v Hv].
  destruct (Parse_sim p c text h v Hc Hv) as (r1 & h1 & Hrun & Hview & Hp & _).
  assert (Hagain : forall h',
    store.parsers h' !! p = Some c ->
    exists r2 h2,
      store.Parse p text h' = store.Returns r2 h2 /\
      store.view h2 r2 = Some v /\
      (store.structures h1 `prefix_of` store.structures h' ->
       store.view h2 r1 = Some v)).
  { intros h' Hc'.
    destruct (Parse_sim p c text h' v Hc' Hv)
      as (r2 & h2 & Hrun2 & Hview2 & _ & _ & Hs2).
    exists r2, h2. split; [done|]. split; [done|].
    intros Hpre. eapply view_later; [exact Hview|]. by etrans. }
  exists r1, h1, v. do 4 (split; [done|]). split; [|exact Hagain].
  destruct (Hagain h1) as (r2 & h2 & Hrun2 & Hview2 & Hfirst);
    [by rewrite Hp|].
  exists r2, h2. split; [done|]. split; [done|]. by apply Hfirst.
Qed.
End Determinism.

Section DeterminismExamples.
Import xml data parser samples storeSamples.

(** [Parse_deterministic] on a store with one parser and a document
    with a nested element. *)
Lemma Parse_deterministic_witness :
  store.parsers fresh !! 0 = Some theParser /\
  exists r1 h1 v,
    store.Parse (lib := lib) 0 document fresh = store.Returns r1 h1 /\
    store.view h1 r1 = Some v /\
    Parse (lib := lib) theParser document = Some v /\
    store.parsers h1 = store.parsers fresh /\
    (exists r2 h2,
        store.Parse (lib := lib) 0 document h1 = store.Returns r2 h2 /\
        store.view h2 r2 = Some v /\
        store.view h2 r1 = Some v) /\
    forall h',
      store.parsers h' !! 0 = Some theParser ->
      exists r2 h2,
        store.Parse (lib := lib) 0 document h' = store.Returns r2 h2 /\
        store.view h2 r2 = Some v /\
        (store.structures h1 `prefix_of` store.structures h' ->
         store.view h2 r1 = Some v).
Proof.
  split; [reflexivity|].
  exact (Parse_deterministic (lib := lib) 0 theParser document fresh eq_refl).
Defined.

(** Two calls one after the other: the pointers differ, the records
    and the total do not. *)
Lemma Parse_twice :
  twice document
  = Some (inl (store.mkParseResult [1; 0] 2),
          inl (store.mkParseResult [3; 2] 2),
          Some (inl (mkParseResult
            [mkCfrStructure 0 "" 7 40 "" 1 "1" None (Some "Title one") None 0
                            None "1";
             mkCfrStructure 0 "" 7 40 "" 2 "A" None None (Some "foo bar") 2
                            None "1/A"] 2)),
          Some (inl (mkParseResult
            [mkCfrStructure 0 "" 7 40 "" 1 "1" None (Some "Title one") None 0
                            None "1";
             mkCfrStructure 0 "" 7 40 "" 2 "A" None None (Some "foo bar") 2
                            None "1/A"] 2))).
Proof. vm_compute. reflexivity. Qed.
End DeterminismExamples.
